(** * The JIT linking layer of score-addon-jit, and the addon set-up path

    The development follows [ScoreLinkingLayer] (a copy of LLVM's legacy
    RTDyld object linking layer kept in the add-on) and
    [Jit::ApplicationPlugin::setupAddon]; it goes on to the node files and
    rescans of [Jit::ApplicationPlugin] and to the plug-in settings
    ([zip_helper], [RemotePluginItemModel], [PluginSettingsView]).

    - [std::map<VModuleKey, unique_ptr<LinkedObject>>] is a list of
      key/module pairs kept in ascending key order, walked front to back.
    - [StringMap<JITEvaluatedSymbol>] is a [gmap string].
    - Member functions that mutate the layer are computations in a small
      state monad whose results are: returned normally, stopped on a failed
      [assert], or still running when the step budget ran out.
    - [RuntimeDyld] and the symbol resolver belong to LLVM and to the client
      of the layer.  What they do while a module is finalized is given as a
      script of calls back into the layer.
    - Files, directories, JSON documents and the network are outside the
      program: what they hold is given as functions and lists. *)

From stdpp Require Import gmap strings list fin_maps.
From Stdlib Require Import NArith Lia Ascii.

Local Open Scope N_scope.

(** ** LLVM value types *)

Definition VModuleKey := N.
Definition JITTargetAddress := N.

(** [llvm::Error] holding a [StringError]: the message. *)
Definition Error := string.

(** [llvm::Expected<T>]. *)
Inductive Expected (T : Type) : Type :=
| Value (v : T)
| Failure (Err : Error).
Arguments Value {T} v.
Arguments Failure {T} Err.

(** [JITSymbolFlags]; the [HasError] flag is only ever set by the
    [JITSymbol(Error)] constructor and is carried by [JITSymbol_error]. *)
Record JITSymbolFlags := {
  Weak : bool;
  Common : bool;
  Absolute : bool;
  Exported : bool;
  Callable : bool
}.

Definition isExported (F : JITSymbolFlags) : bool := Exported F.

Record JITEvaluatedSymbol := {
  getAddress : JITTargetAddress;
  getFlags : JITSymbolFlags
}.

(** The closure returned by [getSymbolMaterializer]: it captures [this],
    which is the module stored under a key of [LinkedObjects], and [Name]. *)
Record GetAddressFtor := {
  ftor_this : VModuleKey;
  ftor_Name : string
}.

(** [JITSymbol], by the constructor that built it. *)
Inductive JITSymbol :=
| JITSymbol_null
| JITSymbol_error (Err : Error)
| JITSymbol_evaluated (Sym : JITEvaluatedSymbol)
| JITSymbol_lazy (GetAddress : GetAddressFtor) (Flags : JITSymbolFlags).

(** [JITSymbol::operator bool]:
    [!Flags.hasError() && (CachedAddr || GetAddress)]. *)
Definition JITSymbol_bool (Sym : JITSymbol) : bool :=
  match Sym with
  | JITSymbol_null => false
  | JITSymbol_error _ => false
  | JITSymbol_evaluated Sym' => negb (getAddress Sym' =? 0)
  | JITSymbol_lazy _ _ => true
  end.

(** [JITSymbol::takeError]. *)
Definition takeError (Sym : JITSymbol) : option Error :=
  match Sym with
  | JITSymbol_error Err => Some Err
  | _ => None
  end.

(** ** Object files *)

(** [object::BasicSymbolRef::SF_Undefined]. *)
Definition SF_Undefined : N := 1.

(** A symbol of an object file, as the three calls the layer makes on it
    answer: [Symbol.getFlags()], [Symbol.getName()] and
    [JITSymbolFlags::fromObjectSymbol(Symbol)], which returns an [Expected]
    from LLVM 8 on. *)
Record SymbolRef := {
  sym_getFlags : Expected N;
  sym_getName : Expected string;
  fromObjectSymbol : Expected JITSymbolFlags
}.

Record ObjectFile := {
  symbols : list SymbolRef
}.

(** ObjectPtr: a memory buffer, not yet parsed. *)
Definition MemoryBuffer := string.

(** ** Modules *)

(** The part of a [RuntimeDyld] instance that [finalize] reads back. *)
Record RuntimeDyld := {
  rt_ProcessAllSections : bool;
  getSymbolTable : gmap string JITEvaluatedSymbol;
  getErrorString : option Error
}.

Definition hasError (D : RuntimeDyld) : bool :=
  match getErrorString D with Some _ => true | None => false end.

Record PreFinalizeContents := {
  Obj : ObjectFile;
  pfc_ProcessAllSections : bool;
  RTDyld : option RuntimeDyld
}.

(** [ConcreteLinkedObject].  [K] is the key under which the module is
    stored, [Parent] is the layer, and the memory manager and the resolver
    act through the loader scripts. *)
Record LinkedObject := {
  SymbolTable : gmap string JITEvaluatedSymbol;
  Finalized : bool;
  ObjForNotify : option ObjectFile;
  PFC : option PreFinalizeContents
}.

(** [LinkedObject::getSymbol], for the module stored under [K]. *)
Definition getSymbolMaterializer (K : VModuleKey) (Name : string) : GetAddressFtor :=
  {| ftor_this := K; ftor_Name := Name |}.

Definition getSymbol (K : VModuleKey) (this : LinkedObject)
    (Name : string) (ExportedSymbolsOnly : bool) : JITSymbol :=
  match SymbolTable this !! Name with
  | None => JITSymbol_null
  | Some SymEntry =>
      if negb (isExported (getFlags SymEntry)) && ExportedSymbolsOnly
      then JITSymbol_null
      else if negb (Finalized this)
      then JITSymbol_lazy (getSymbolMaterializer K Name) (getFlags SymEntry)
      else JITSymbol_evaluated SymEntry
  end.

(** [buildInitialSymbolTable].  [None] is the failed assertion of
    [Expected]'s storage, "Cannot get value when an error exists!": of
    [SymbolName.get()], which the logging line calls before the name is
    checked, or of [*JITSymbolFlags::fromObjectSymbol(Symbol)], which is
    dereferenced without a check.  [StringMap::insert] keeps an entry that
    is already there. *)
Fixpoint buildInitialSymbolTable (Syms : list SymbolRef)
    (Table : gmap string JITEvaluatedSymbol)
    : option (gmap string JITEvaluatedSymbol) :=
  match Syms with
  | [] => Some Table
  | Symbol :: Syms' =>
      let skip :=
        match sym_getFlags Symbol with
        | Failure _ => true
        | Value flags => negb (N.land flags SF_Undefined =? 0)
        end in
      if skip then buildInitialSymbolTable Syms' Table
      else
        match sym_getName Symbol with
        | Failure _ => None
        | Value SymbolName =>
            match fromObjectSymbol Symbol with
            | Failure _ => None
            | Value Flags =>
                let Table' :=
                  match Table !! SymbolName with
                  | Some _ => Table
                  | None =>
                      <[SymbolName := {| getAddress := 0; getFlags := Flags |}]> Table
                  end in
                buildInitialSymbolTable Syms' Table'
            end
        end
  end.

(** The constructor of [ConcreteLinkedObject], through [createLinkedObject]. *)
Definition createLinkedObject (O : ObjectFile) (ProcessAllSections : bool)
    : option LinkedObject :=
  match buildInitialSymbolTable (symbols O) ∅ with
  | None => None
  | Some Table =>
      Some {| SymbolTable := Table;
              Finalized := false;
              ObjForNotify := None;
              PFC := Some {| Obj := O;
                             pfc_ProcessAllSections := ProcessAllSections;
                             RTDyld := None |} |}
  end.

(** ** The ordered map [LinkedObjects] *)

Module StdMap.

Definition t := list (VModuleKey * LinkedObject).

Fixpoint find (K : VModuleKey) (M : t) : option LinkedObject :=
  match M with
  | [] => None
  | (k, x) :: M' => if k =? K then Some x else find K M'
  end.

Definition count (K : VModuleKey) (M : t) : bool :=
  match find K M with Some _ => true | None => false end.

(** [M[K] = x]. *)
Fixpoint assign (K : VModuleKey) (x : LinkedObject) (M : t) : t :=
  match M with
  | [] => [(K, x)]
  | (k, y) :: M' =>
      if K <? k then (K, x) :: (k, y) :: M'
      else if k =? K then (K, x) :: M'
      else (k, y) :: assign K x M'
  end.

Fixpoint erase (K : VModuleKey) (M : t) : t :=
  match M with
  | [] => []
  | (k, y) :: M' => if k =? K then M' else (k, y) :: erase K M'
  end.

(** A write through the pointer held in the map. *)
Fixpoint alter (f : LinkedObject → LinkedObject) (K : VModuleKey) (M : t) : t :=
  match M with
  | [] => []
  | (k, y) :: M' => if k =? K then (k, f y) :: M' else (k, y) :: alter f K M'
  end.

Definition keys (M : t) : list VModuleKey := M.*1.

(** Strictly ascending keys. *)
Fixpoint ascending (M : t) : Prop :=
  match M with
  | [] => True
  | (k, _) :: M' => Forall (λ e, k < e.1) M' ∧ ascending M'
  end.

End StdMap.

(** ** The layer *)

(** A call made to one of the three notification functors. *)
Inductive Notification :=
| Loaded (K : VModuleKey)
| FinalizedNote (K : VModuleKey)
| Freed (K : VModuleKey) (O : option ObjectFile).

Record ScoreLinkingLayer := {
  LinkedObjects : StdMap.t;
  NotifyLoaded : bool;
  NotifyFinalized : bool;
  NotifyFreed : bool;
  ProcessAllSections : bool;
  notified : list Notification
}.

Definition set_LinkedObjects (M : StdMap.t) (L : ScoreLinkingLayer) : ScoreLinkingLayer :=
  {| LinkedObjects := M;
     NotifyLoaded := NotifyLoaded L;
     NotifyFinalized := NotifyFinalized L;
     NotifyFreed := NotifyFreed L;
     ProcessAllSections := ProcessAllSections L;
     notified := notified L |}.

Definition push_notified (e : Notification) (L : ScoreLinkingLayer) : ScoreLinkingLayer :=
  {| LinkedObjects := LinkedObjects L;
     NotifyLoaded := NotifyLoaded L;
     NotifyFinalized := NotifyFinalized L;
     NotifyFreed := NotifyFreed L;
     ProcessAllSections := ProcessAllSections L;
     notified := e :: notified L |}.

(** The constructor: no module, [ProcessAllSections(false)]. *)
Definition newLayer (loaded finalized freed : bool) : ScoreLinkingLayer :=
  {| LinkedObjects := [];
     NotifyLoaded := loaded;
     NotifyFinalized := finalized;
     NotifyFreed := freed;
     ProcessAllSections := false;
     notified := [] |}.

Definition setProcessAllSections (b : bool) (L : ScoreLinkingLayer) : ScoreLinkingLayer :=
  {| LinkedObjects := LinkedObjects L;
     NotifyLoaded := NotifyLoaded L;
     NotifyFinalized := NotifyFinalized L;
     NotifyFreed := NotifyFreed L;
     ProcessAllSections := b;
     notified := notified L |}.

(** [findSymbol]: the range-for over [LinkedObjects]. *)
Fixpoint findSymbol_in (M : StdMap.t) (Name : string) (ExportedSymbolsOnly : bool)
    : JITSymbol :=
  match M with
  | [] => JITSymbol_null
  | (K, this) :: M' =>
      let Sym := getSymbol K this Name ExportedSymbolsOnly in
      if JITSymbol_bool Sym then Sym
      else match takeError Sym with
           | Some Err => JITSymbol_error Err
           | None => findSymbol_in M' Name ExportedSymbolsOnly
           end
  end.

Definition findSymbol (L : ScoreLinkingLayer) (Name : string)
    (ExportedSymbolsOnly : bool) : JITSymbol :=
  findSymbol_in (LinkedObjects L) Name ExportedSymbolsOnly.

(** ** Computations on the layer *)

Inductive Outcome (A : Type) : Type :=
| Returned (a : A) (L : ScoreLinkingLayer)
| Aborted (msg : string)
| OutOfFuel.
Arguments Returned {A} a L.
Arguments Aborted {A} msg.
Arguments OutOfFuel {A}.

Definition M (A : Type) : Type := ScoreLinkingLayer → Outcome A.

Definition ret {A} (a : A) : M A := λ L, Returned a L.

Definition bind {A B} (m : M A) (f : A → M B) : M B :=
  λ L, match m L with
       | Returned a L' => f a L'
       | Aborted msg => Aborted msg
       | OutOfFuel => OutOfFuel
       end.

#[global] Instance M_ret : MRet M := @ret.
#[global] Instance M_bind : MBind M := λ A B f m, bind m f.

Definition get : M ScoreLinkingLayer := λ L, Returned L L.
Definition modify (f : ScoreLinkingLayer → ScoreLinkingLayer) : M () :=
  λ L, Returned () (f L).
Definition abort {A} (msg : string) : M A := λ _, Aborted msg.

(** [assert(c && msg)]. *)
Definition assert (c : bool) (msg : string) : M () :=
  if c then ret () else abort msg.

(** Reading the module behind [this] or behind [LinkedObjects[K]]; a key
    that holds no module is a pointer to a destroyed object. *)
Definition get_this (K : VModuleKey) : M LinkedObject :=
  L ← get;
  match StdMap.find K (LinkedObjects L) with
  | Some this => ret this
  | None => abort "use of a destroyed LinkedObject"
  end.

(** A write to fields of [*this]. *)
Definition update_this (K : VModuleKey) (f : LinkedObject → LinkedObject) : M () :=
  modify (λ L, set_LinkedObjects (StdMap.alter f K (LinkedObjects L)) L).

(** [if (Parent.Notify) Parent.Notify(...)]. *)
Definition notify (enabled : ScoreLinkingLayer → bool) (e : Notification) : M () :=
  modify (λ L, if enabled L then push_notified e L else L).

(** ** What the loader does during [finalize] *)

(** A run of code outside the layer that may call back into it: the
    resolver looks names up with [findSymbol] and asks symbols it holds for
    their address with [JITSymbol::getAddress], which on a lazy symbol
    invokes the closure of [getSymbolMaterializer]. *)
Inductive Script (R : Type) : Type :=
| Done (r : R)
| CallFindSymbol (Name : string) (ExportedSymbolsOnly : bool)
    (k : JITSymbol → Script R)
| CallGetAddress (Sym : JITSymbol)
    (k : Expected JITTargetAddress → Script R).
Arguments Done {R} r.
Arguments CallFindSymbol {R} Name ExportedSymbolsOnly k.
Arguments CallGetAddress {R} Sym k.

(** The two calls [finalize] makes on its [RuntimeDyld]: [loadObject], after
    which [getSymbolTable] answers the given table, and
    [finalizeWithMemoryManagerLocking], after which [getErrorString] answers
    the given error, if any. *)
Record DyldRun := {
  loadObject : Script (gmap string JITEvaluatedSymbol);
  finalizeWithMemoryManagerLocking : Script (option Error)
}.

(** [JITSymbol::getAddress]; [call] runs the closure of a lazy symbol. *)
Definition JITSymbol_getAddress
    (call : GetAddressFtor → M (Expected JITTargetAddress))
    (Sym : JITSymbol) : M (Expected JITTargetAddress) :=
  match Sym with
  | JITSymbol_error _ => abort "getAddress called on error value"
  | JITSymbol_lazy F _ =>
      r ← call F;
      match r with
      | Value CachedAddr =>
          assert (negb (CachedAddr =? 0)) "Symbol could not be materialized.";;
          ret (Value CachedAddr)
      | Failure Err => ret (Failure Err)
      end
  | JITSymbol_evaluated E => ret (Value (getAddress E))
  | JITSymbol_null => ret (Value 0)
  end.

Fixpoint run_script {R} (call : GetAddressFtor → M (Expected JITTargetAddress))
    (p : Script R) : M R :=
  match p with
  | Done r => ret r
  | CallFindSymbol Name ExportedSymbolsOnly k =>
      L ← get;
      run_script call (k (findSymbol L Name ExportedSymbolsOnly))
  | CallGetAddress Sym k =>
      a ← JITSymbol_getAddress call Sym;
      run_script call (k a)
  end.

(** ** Field updates made by [finalize] *)

Definition set_PFC (P : option PreFinalizeContents) (this : LinkedObject) : LinkedObject :=
  {| SymbolTable := SymbolTable this;
     Finalized := Finalized this;
     ObjForNotify := ObjForNotify this;
     PFC := P |}.

Definition set_RTDyld (D : RuntimeDyld) (this : LinkedObject) : LinkedObject :=
  match PFC this with
  | None => this
  | Some P =>
      set_PFC (Some {| Obj := Obj P;
                       pfc_ProcessAllSections := pfc_ProcessAllSections P;
                       RTDyld := Some D |}) this
  end.

Definition set_Finalized (this : LinkedObject) : LinkedObject :=
  {| SymbolTable := SymbolTable this;
     Finalized := true;
     ObjForNotify := ObjForNotify this;
     PFC := PFC this |}.

(** [for (auto& KV : SymTab) SymbolTable[KV.first] = KV.second;] *)
Definition copy_symbol_table (SymTab : gmap string JITEvaluatedSymbol)
    (this : LinkedObject) : LinkedObject :=
  {| SymbolTable := map_fold (λ Name Sym T, <[Name := Sym]> T) (SymbolTable this) SymTab;
     Finalized := Finalized this;
     ObjForNotify := ObjForNotify this;
     PFC := PFC this |}.

(** [if (NotifyFreed) ObjForNotify = std::move(PFC->Obj); PFC = nullptr;] *)
Definition release_resources (keep : bool) (O : ObjectFile) (this : LinkedObject)
    : LinkedObject :=
  {| SymbolTable := SymbolTable this;
     Finalized := Finalized this;
     ObjForNotify := if keep then Some O else ObjForNotify this;
     PFC := None |}.

(** [PFC->...] and [PFC->RTDyld->...]. *)
Definition deref_PFC (K : VModuleKey) : M PreFinalizeContents :=
  this ← get_this K;
  match PFC this with
  | Some P => ret P
  | None => abort "null PFC"
  end.

Definition deref_RTDyld (K : VModuleKey) : M RuntimeDyld :=
  P ← deref_PFC K;
  match RTDyld P with
  | Some D => ret D
  | None => abort "null RTDyld"
  end.

(** ** What [finalize] leaves behind *)

(** The symbol table after the copy loop of [finalize]. *)
Definition copied (SymTab T : gmap string JITEvaluatedSymbol) : gmap string JITEvaluatedSymbol :=
  map_fold (λ Name Sym T, <[Name := Sym]> T) T SymTab.

(** The module once [finalize] has returned: with the error [Err] of the
    loader, or with none. *)
Definition after_finalize (this : LinkedObject) (P : PreFinalizeContents)
    (SymTab : gmap string JITEvaluatedSymbol) (Err : option Error) (keep : bool)
    : LinkedObject :=
  match Err with
  | Some msg =>
      {| SymbolTable := copied SymTab (SymbolTable this);
         Finalized := true;
         ObjForNotify := ObjForNotify this;
         PFC := Some {| Obj := Obj P;
                        pfc_ProcessAllSections := pfc_ProcessAllSections P;
                        RTDyld := Some {| rt_ProcessAllSections := pfc_ProcessAllSections P;
                                          getSymbolTable := SymTab;
                                          getErrorString := Some msg |} |} |}
  | None =>
      {| SymbolTable := copied SymTab (SymbolTable this);
         Finalized := true;
         ObjForNotify := if keep then Some (Obj P) else ObjForNotify this;
         PFC := None |}
  end.

Section Layer.

(** [object::ObjectFile::createObjectFile]. *)
Variable createObjectFile : MemoryBuffer → Expected ObjectFile.

(** The [RuntimeDyld] built over the resources of [GetResources(K)],
    loading the given object. *)
Variable Dyld : VModuleKey → ObjectFile → DyldRun.

(** [ConcreteLinkedObject::finalize], on the module stored under [K];
    [call] runs the closures the loader invokes. *)
Definition finalize_body
    (call : GetAddressFtor → M (Expected JITTargetAddress))
    (K : VModuleKey) : M (Expected ()) :=
  this ← get_this K;
  assert (bool_decide (is_Some (PFC this)))
    "mapSectionAddress called on finalized LinkedObject";;
  P ← deref_PFC K;
  update_this K
    (set_RTDyld {| rt_ProcessAllSections := pfc_ProcessAllSections P;
                   getSymbolTable := ∅;
                   getErrorString := None |});;
  update_this K set_Finalized;;
  SymTab ← run_script call (loadObject (Dyld K (Obj P)));
  D ← deref_RTDyld K;
  update_this K
    (set_RTDyld {| rt_ProcessAllSections := rt_ProcessAllSections D;
                   getSymbolTable := SymTab;
                   getErrorString := getErrorString D |});;
  update_this K (copy_symbol_table SymTab);;
  notify NotifyLoaded (Loaded K);;
  Err ← run_script call (finalizeWithMemoryManagerLocking (Dyld K (Obj P)));
  D' ← deref_RTDyld K;
  update_this K
    (set_RTDyld {| rt_ProcessAllSections := rt_ProcessAllSections D';
                   getSymbolTable := getSymbolTable D';
                   getErrorString := Err |});;
  match Err with
  | Some msg => ret (Failure msg)
  | None =>
      notify NotifyFinalized (FinalizedNote K);;
      P' ← deref_PFC K;
      L ← get;
      update_this K (release_resources (NotifyFreed L) (Obj P'));;
      ret (Value ())
  end.

(** The closure of [getSymbolMaterializer]. *)
Definition call_body
    (fin : VModuleKey → M (Expected ()))
    (call : GetAddressFtor → M (Expected JITTargetAddress))
    (F : GetAddressFtor) : M (Expected JITTargetAddress) :=
  this ← get_this (ftor_this F);
  r ← (if negb (Finalized this) then fin (ftor_this F) else ret (Value ()));
  match r with
  | Failure Err => ret (Failure Err)
  | Value _ =>
      this' ← get_this (ftor_this F);
      JITSymbol_getAddress call
        (getSymbol (ftor_this F) this' (ftor_Name F) false)
  end.

(** [finalize] and the closure call each other; [fuel] bounds the depth of
    the calls. *)
Fixpoint finalize (fuel : nat) (K : VModuleKey) {struct fuel} : M (Expected ()) :=
  match fuel with
  | O => λ _, OutOfFuel
  | S fuel' => finalize_body (call_ftor fuel') K
  end
with call_ftor (fuel : nat) (F : GetAddressFtor) {struct fuel}
    : M (Expected JITTargetAddress) :=
  match fuel with
  | O => λ _, OutOfFuel
  | S fuel' => call_body (finalize fuel') (call_ftor fuel') F
  end.

(** [addObject].  The assertion leaves [LinkedObjects[K] = ...] only the
    case of a new entry. *)
Definition addObject (K : VModuleKey) (ObjBuffer : MemoryBuffer) : M (Expected ()) :=
  match createObjectFile ObjBuffer with
  | Failure Err => ret (Failure Err)
  | Value Object =>
      L ← get;
      assert (negb (StdMap.count K (LinkedObjects L))) "VModuleKey already in use";;
      match createLinkedObject Object (ProcessAllSections L) with
      | None => abort "Cannot get value when an error exists!"
      | Some LO =>
          modify (set_LinkedObjects (StdMap.assign K LO (LinkedObjects L)));;
          ret (Value ())
      end
  end.

(** [removeObject]; erasing the entry runs the destructor of the module. *)
Definition removeObject (K : VModuleKey) : M (Expected ()) :=
  L ← get;
  assert (StdMap.count K (LinkedObjects L)) "VModuleKey not associated with object";;
  this ← get_this K;
  notify NotifyFreed (Freed K (ObjForNotify this));;
  modify (λ L, set_LinkedObjects (StdMap.erase K (LinkedObjects L)) L);;
  ret (Value ()).

(** [findSymbolIn]. *)
Definition findSymbolIn (K : VModuleKey) (Name : string)
    (ExportedSymbolsOnly : bool) : M JITSymbol :=
  L ← get;
  assert (StdMap.count K (LinkedObjects L)) "VModuleKey not associated with object";;
  this ← get_this K;
  ret (getSymbol K this Name ExportedSymbolsOnly).

(** [emitAndFinalize]. *)
Definition emitAndFinalize (fuel : nat) (K : VModuleKey) : M (Expected ()) :=
  L ← get;
  assert (StdMap.count K (LinkedObjects L)) "VModuleKey not associated with object";;
  finalize fuel K.

(** The two scripts of the loader ran to their results, [SymTab] and [Err],
    each from a layer in which the module under [K] was already marked
    finalized: the first with the symbol table the module had, the second
    with the loader's table copied over it. *)
Definition loader_ran (call : GetAddressFtor → M (Expected JITTargetAddress))
    (K : VModuleKey) (this : LinkedObject) (P : PreFinalizeContents)
    (SymTab : gmap string JITEvaluatedSymbol) (Err : option Error) : Prop :=
  ∃ L1 L2 L3 L4 this1 this3,
    run_script call (loadObject (Dyld K (Obj P))) L1 = Returned SymTab L2 ∧
    StdMap.find K (LinkedObjects L1) = Some this1 ∧
    Finalized this1 = true ∧ SymbolTable this1 = SymbolTable this ∧
    run_script call (finalizeWithMemoryManagerLocking (Dyld K (Obj P))) L3
    = Returned Err L4 ∧
    StdMap.find K (LinkedObjects L3) = Some this3 ∧
    Finalized this3 = true ∧
    SymbolTable this3 = copied SymTab (SymbolTable this).

(** ** Layers a client can reach *)

(** One call of the client on the layer that returns. *)
Inductive client_step (L : ScoreLinkingLayer) : ScoreLinkingLayer → Prop :=
| step_addObject K ObjBuffer r L' :
    addObject K ObjBuffer L = Returned r L' → client_step L L'
| step_removeObject K r L' :
    removeObject K L = Returned r L' → client_step L L'
| step_emitAndFinalize fuel K r L' :
    emitAndFinalize fuel K L = Returned r L' → client_step L L'
| step_getAddress fuel F r L' :
    (* the closure of a lazy symbol ran and returned; the check
       [JITSymbol::getAddress] then makes on the address leaves the layer
       as it is *)
    call_ftor fuel F L = Returned r L' → client_step L L'
| step_setProcessAllSections b :
    client_step L (setProcessAllSections b L).

Inductive reachable : ScoreLinkingLayer → Prop :=
| reachable_new loaded finalized freed :
    reachable (newLayer loaded finalized freed)
| reachable_step L L' :
    reachable L → client_step L L' → reachable L'.

End Layer.

(** ** How layers relate across a run *)

(** A computation whose every normal return relates the layer before to the
    layer after. *)
Definition steps {A} (R : relation ScoreLinkingLayer) (m : M A) : Prop :=
  ∀ L a L', m L = Returned a L' → R L L'.

(** [m'] does what [m] does wherever [m] does not run out of fuel. *)
Definition extends {A} (m m' : M A) : Prop :=
  ∀ L, m L ≠ OutOfFuel → m' L = m L.

(** The notification functors and [ProcessAllSections] are left alone. *)
Definition same_setup (L L' : ScoreLinkingLayer) : Prop :=
  NotifyLoaded L' = NotifyLoaded L ∧ NotifyFinalized L' = NotifyFinalized L ∧
  NotifyFreed L' = NotifyFreed L ∧ ProcessAllSections L' = ProcessAllSections L.

(** A module is as it was, or it was not finalized and now is. *)
Definition module_lazy (m m' : LinkedObject) : Prop :=
  m' = m ∨ (Finalized m = false ∧ Finalized m' = true).

(** What a call to a materializer closure may do to the layer. *)
Definition lazy_step (L L' : ScoreLinkingLayer) : Prop :=
  same_setup L L' ∧
  StdMap.keys (LinkedObjects L') = StdMap.keys (LinkedObjects L) ∧
  ∀ K m, StdMap.find K (LinkedObjects L) = Some m →
         ∃ m', StdMap.find K (LinkedObjects L') = Some m' ∧ module_lazy m m'.

(** The same, with no promise on the module stored under [K]. *)
Definition frame (K : VModuleKey) (L L' : ScoreLinkingLayer) : Prop :=
  same_setup L L' ∧
  StdMap.keys (LinkedObjects L') = StdMap.keys (LinkedObjects L) ∧
  ∀ K' m, K' ≠ K → StdMap.find K' (LinkedObjects L) = Some m →
          ∃ m', StdMap.find K' (LinkedObjects L') = Some m' ∧ module_lazy m m'.

Definition unfinalized (K : VModuleKey) (L : ScoreLinkingLayer) : bool :=
  match StdMap.find K (LinkedObjects L) with
  | Some this => negb (Finalized this)
  | None => false
  end.

(** The number of keys whose module is not finalized: a bound on how deep
    [finalize] and the closures can call each other. *)
Definition pending (L : ScoreLinkingLayer) : nat :=
  length (filter (λ K, unfinalized K L = true) (StdMap.keys (LinkedObjects L))).

(** A module as its constructor leaves it: every symbol named, at address
    0, and the loader not yet created. *)
Definition placeholder (this : LinkedObject) : Prop :=
  (∀ Name E, SymbolTable this !! Name = Some E → getAddress E = 0) ∧
  ∃ P, PFC this = Some P ∧ RTDyld P = None.

Definition well_formed (L : ScoreLinkingLayer) : Prop :=
  StdMap.ascending (LinkedObjects L) ∧
  ∀ K this, StdMap.find K (LinkedObjects L) = Some this →
            Finalized this = false → placeholder this.


(** The address the table of the module under [K] holds for [Name]; 0 when
    there is none. *)
Definition address_in (L : ScoreLinkingLayer) (K : VModuleKey) (Name : string)
    : JITTargetAddress :=
  match StdMap.find K (LinkedObjects L) with
  | Some this =>
      match SymbolTable this !! Name with
      | Some E => getAddress E
      | None => 0
      end
  | None => 0
  end.

(** ** More of the layer *)

(** [mapSectionAddress] of the layer, then of the module.  The call it
    forwards acts on the section table kept by [RuntimeDyld], which is not
    part of the layer. *)
Definition mapSectionAddress (K : VModuleKey)
    (LocalAddress TargetAddr : JITTargetAddress) : M () :=
  L ← get;
  assert (StdMap.count K (LinkedObjects L)) "VModuleKey not associated with object";;
  this ← get_this K;
  assert (bool_decide (is_Some (PFC this)))
    "mapSectionAddress called on finalized LinkedObject";;
  P ← deref_PFC K;
  assert (bool_decide (is_Some (RTDyld P)))
    "mapSectionAddress called on raw LinkedObject";;
  ret ().

(** The symbols [buildInitialSymbolTable] does not pass over: flags
    readable and without [SF_Undefined]. *)
Definition is_defined (Symbol : SymbolRef) : bool :=
  match sym_getFlags Symbol with
  | Failure _ => false
  | Value flags => N.land flags SF_Undefined =? 0
  end.

Definition has_name (Name : string) (Symbol : SymbolRef) : bool :=
  match sym_getName Symbol with
  | Value SymbolName => String.eqb SymbolName Name
  | Failure _ => false
  end.

Definition unnamed (Symbol : SymbolRef) : bool :=
  match sym_getName Symbol with
  | Value _ => false
  | Failure _ => true
  end.

(** The first symbol of the list that is defined and carries [Name]. *)
Fixpoint first_definition (Name : string) (Syms : list SymbolRef) : option SymbolRef :=
  match Syms with
  | [] => None
  | Symbol :: Syms' =>
      if is_defined Symbol && has_name Name Symbol then Some Symbol
      else first_definition Name Syms'
  end.

(** A symbol whose JIT flags cannot be computed. *)
Definition flagless (Symbol : SymbolRef) : bool :=
  match fromObjectSymbol Symbol with
  | Value _ => false
  | Failure _ => true
  end.

(** The entry [buildInitialSymbolTable] makes for a symbol, when its flags
    can be computed. *)
Definition initial_entry (Symbol : SymbolRef) : option JITEvaluatedSymbol :=
  match fromObjectSymbol Symbol with
  | Value Flags => Some {| getAddress := 0; getFlags := Flags |}
  | Failure _ => None
  end.

(** What a lookup by key yields on a module fresh from [addObject]. *)
Definition fresh_symbol (K : VModuleKey) (Object : ObjectFile) (Name : string)
    (ExportedSymbolsOnly : bool) : JITSymbol :=
  match first_definition Name (symbols Object) ≫= initial_entry with
  | None => JITSymbol_null
  | Some SymEntry =>
      if negb (isExported (getFlags SymEntry)) && ExportedSymbolsOnly
      then JITSymbol_null
      else JITSymbol_lazy (getSymbolMaterializer K Name) (getFlags SymEntry)
  end.

(** * The add-on set-up path of the application plug-in *)

(** [QString::remove(QChar)]. *)
Fixpoint QString_remove (c : Ascii.ascii) (s : string) : string :=
  match s with
  | EmptyString => EmptyString
  | String a s' =>
      if Ascii.eqb a c then QString_remove c s' else String a (QString_remove c s')
  end.

(** What [loadAddon] returns: [json], of which only ["key"] is read,
    [cpp_files] and [files]. *)
Record AddonContents := {
  json_key : string;
  cpp_files : list string;
  files : list string
}.

(** A call [m_compiler.submitJob(id, cpp_files, flags)]. *)
Record Job := {
  job_id : string;
  job_cpp_files : list string;
  job_flags : list string
}.

(** The plug-in as [setupAddon] acts on it: the jobs submitted to
    [m_compiler] and the lines sent to [qDebug], latest first.  Completions
    reach the plug-in only through the [jobCompleted] signal of
    [m_compiler]; [setupAddon] itself notifies nothing. *)
Record ApplicationPlugin := {
  m_compiler : list Job;
  qDebug : list (string * string)
}.

Definition submitJob (id : string) (cpp : list string) (flags : list string)
    (P : ApplicationPlugin) : ApplicationPlugin :=
  {| m_compiler := {| job_id := id; job_cpp_files := cpp; job_flags := flags |}
                   :: m_compiler P;
     qDebug := qDebug P |}.

Definition debug (what : string) (arg : string) (P : ApplicationPlugin)
    : ApplicationPlugin :=
  {| m_compiler := m_compiler P; qDebug := (what, arg) :: qDebug P |}.

Section SetupAddon.

(** [QFileInfo{addon}.fileName()]. *)
Variable fileName : string → string.
Variable loadAddon : string → AddonContents.
Variable generateAddonFiles : string → string → list string → string.

(** [ApplicationPlugin::setupAddon]. *)
Definition setupAddon (addon : string) (P : ApplicationPlugin) : ApplicationPlugin :=
  let P := debug "Registering JIT addon" addon P in
  let addonFolderName := fileName addon in
  if String.eqb addonFolderName "Nodes" then P
  else
    let contents := loadAddon addon in
    match cpp_files contents with
    | [] => P
    | _ :: _ =>
        let addon_files_path :=
          generateAddonFiles addonFolderName addon (files contents) in
        let flags := ["-I" +:+ addon; "-I" +:+ addon_files_path] in
        let id := QString_remove "-"%char (json_key contents) in
        submitJob id (cpp_files contents) flags P
    end.

End SetupAddon.

(** * Node files and rescans *)

(** Text is held as its UTF-8 characters, so [toStdString] on a [QString]
    is the identity, as in [setupAddon]; reading a [QByteArray] as a
    [QString] is left to [fromUtf8] below. *)

(** A call on [m_compiler]: [submitJob(id, cpp_files, flags)] on a list of
    source files, as [setupAddon] makes it, or [submitJob(id, source, flags)]
    on one source text, as [setupNode] makes it. *)
Inductive Submission :=
  | FilesJob (j : Job)
  | SourceJob (id : string) (source : string) (flags : list string).

Definition is_SourceJob (s : Submission) : bool :=
  match s with
  | FilesJob _ => false
  | SourceJob _ _ _ => true
  end.

Definition submission_id (s : Submission) : string :=
  match s with
  | FilesJob j => job_id j
  | SourceJob id _ _ => id
  end.

Definition make_uuid_s : string := "make_uuid".

(** The double quote and the line feed. *)
Definition double_quote : Ascii.ascii := "034"%char.
Definition line_feed : Ascii.ascii := "010"%char.

(** The raw string literal [setupNode] appends to a node. *)
Definition footer : string :=
  String line_feed
    ("            #include <score/plugins/PluginInstances.hpp>"
     +:+ String line_feed (String line_feed
    ("            SCORE_EXPORT_PLUGIN(Control::score_generic_plugin<Node>)"
     +:+ String line_feed "            "))).

(** [QByteArray::indexOf(what, from)]; [None] is the source's [-1]. *)
Definition indexOf (what : string) (from : nat) (node : string) : option nat :=
  String.index from what node.

(** [QByteArray::mid(pos, len)]. *)
Definition mid (pos len : nat) (node : string) : string :=
  String.substring pos len node.

(** What [setupAddon] does on a plug-in that has submitted and written
    nothing yet. *)
Definition fresh_plugin : ApplicationPlugin := {| m_compiler := []; qDebug := [] |}.

Definition submitted (P : ApplicationPlugin) : list Submission := FilesJob <$> m_compiler P.

Definition written (P : ApplicationPlugin) : list (string * string) := qDebug P.

(** Whether a character occurs in a text. *)
Fixpoint occurs (c : Ascii.ascii) (s : string) : bool :=
  match s with
  | EmptyString => false
  | String a s' => Ascii.eqb a c || occurs c s'
  end.

(** A node text as [setupNode] takes it: [before] ends where [make_uuid]
    first occurs, no double quote stands in [between], and [uuid] is the 36
    characters between the next two double quotes. *)
Definition node_text (node before between uuid rest : string) : Prop :=
  node = before +:+ make_uuid_s +:+ between
         +:+ String double_quote (uuid +:+ String double_quote rest) ∧
  (∀ k, (k < String.length before)%nat → String.substring k 9 node ≠ make_uuid_s) ∧
  occurs double_quote between = false ∧
  occurs double_quote uuid = false ∧
  String.length uuid = 36%nat.

(** A job whose id holds no ['-']. *)
Definition dashless (job : Submission) : Prop :=
  occurs "-"%char (submission_id job) = false.

Module Jit.

(** The plug-in with its watchers and the paths it has seen; [m_compiler]
    holds the calls made on the compiler and [qDebug] the lines written,
    latest first. *)
Record ApplicationPlugin := {
  m_addonsWatch : gset string;
  m_nodesWatch : gset string;
  m_addonsPaths : gset string;
  m_nodesPaths : gset string;
  m_compiler : list Submission;
  qDebug : list (string * string)
}.

Definition submitJob (job : Submission) (P : ApplicationPlugin) : ApplicationPlugin :=
  {| m_addonsWatch := m_addonsWatch P; m_nodesWatch := m_nodesWatch P;
     m_addonsPaths := m_addonsPaths P; m_nodesPaths := m_nodesPaths P;
     m_compiler := job :: m_compiler P; qDebug := qDebug P |}.

Definition debug (what arg : string) (P : ApplicationPlugin) : ApplicationPlugin :=
  {| m_addonsWatch := m_addonsWatch P; m_nodesWatch := m_nodesWatch P;
     m_addonsPaths := m_addonsPaths P; m_nodesPaths := m_nodesPaths P;
     m_compiler := m_compiler P; qDebug := (what, arg) :: qDebug P |}.

Section Plugin.

(** [QFileInfo::fileName] and [QFileInfo::suffix]. *)
Variable fileName : string → string.
Variable suffix : string → string.
Variable loadAddon : string → AddonContents.
Variable generateAddonFiles : string → string → list string → string.
(** [QFile::open(ReadOnly)] followed by [readAll]; [None] when the file
    does not open. *)
Variable readAll : string → option string.
(** [QString{QByteArray}]. *)
Variable fromUtf8 : string → string.
(** Whether a path exists, which is when [QFileSystemWatcher::addPath]
    takes it. *)
Variable pathExists : string → bool.
(** [context.settings<Library::Settings::Model>().getPath()]. *)
Variable libpath : string.

(** [QFileSystemWatcher::addPath]: a path that does not exist, or is
    watched already, is not added. *)
Definition addPath (path : string) (watch : gset string) : gset string :=
  if pathExists path then {[path]} ∪ watch else watch.

(** [ApplicationPlugin::setupAddon], on the whole plug-in. *)
Definition setupAddon (addon : string) (P : ApplicationPlugin) : ApplicationPlugin :=
  let done := setupAddon fileName loadAddon generateAddonFiles addon fresh_plugin in
  {| m_addonsWatch := m_addonsWatch P; m_nodesWatch := m_nodesWatch P;
     m_addonsPaths := m_addonsPaths P; m_nodesPaths := m_nodesPaths P;
     m_compiler := submitted done ++ m_compiler P;
     qDebug := written done ++ qDebug P |}.

(** [ApplicationPlugin::setupNode].  [umax] is found after [umin], so the
    difference [umax - umin] is positive. *)
Definition setupNode (f : string) (P : ApplicationPlugin) : ApplicationPlugin :=
  if String.eqb (suffix f) "hpp" || String.eqb (suffix f) "cpp" then
    match readAll f with
    | None => P
    | Some node =>
        match indexOf make_uuid_s 0 node with
        | None => P
        | Some make_uuid =>
            match indexOf (String double_quote EmptyString) (make_uuid + 9) node with
            | None => P
            | Some umin =>
                match indexOf (String double_quote EmptyString) (umin + 1) node with
                | None => P
                | Some umax =>
                    if negb (Nat.eqb (umax - umin) 37) then P
                    else
                      let uuid := fromUtf8 (mid (umin + 1) 36 node) in
                      let uuid := QString_remove "-"%char uuid in
                      let node := node +:+ footer in
                      let P := debug "Registering JIT node" f P in
                      submitJob (SourceJob uuid node []) P
                end
            end
        end
    end
  else P.

(** [ApplicationPlugin::rescanAddons]; [entries] is what the directory
    iterator yields, in order. *)
Definition rescanAddons_entry (P : ApplicationPlugin) (p : string) : ApplicationPlugin :=
  if decide (p ∈ m_addonsPaths P) then P
  else
    setupAddon p
      {| m_addonsWatch := m_addonsWatch P; m_nodesWatch := m_nodesWatch P;
         m_addonsPaths := {[p]} ∪ m_addonsPaths P; m_nodesPaths := m_nodesPaths P;
         m_compiler := m_compiler P; qDebug := qDebug P |}.

Definition rescanAddons (entries : list string) (P : ApplicationPlugin)
    : ApplicationPlugin :=
  let addons := libpath +:+ "/Addons" in
  let P :=
    {| m_addonsWatch := addPath addons (m_addonsWatch P); m_nodesWatch := m_nodesWatch P;
       m_addonsPaths := m_addonsPaths P; m_nodesPaths := m_nodesPaths P;
       m_compiler := m_compiler P; qDebug := qDebug P |} in
  foldl rescanAddons_entry P entries.

(** [ApplicationPlugin::rescanNodes]. *)
Definition rescanNodes_entry (P : ApplicationPlugin) (path : string) : ApplicationPlugin :=
  let P :=
    {| m_addonsWatch := m_addonsWatch P; m_nodesWatch := addPath path (m_nodesWatch P);
       m_addonsPaths := m_addonsPaths P; m_nodesPaths := m_nodesPaths P;
       m_compiler := m_compiler P; qDebug := qDebug P |} in
  let P :=
    if decide (path ∈ m_nodesPaths P) then P
    else
      setupAddon path
        {| m_addonsWatch := m_addonsWatch P; m_nodesWatch := m_nodesWatch P;
           m_addonsPaths := m_addonsPaths P; m_nodesPaths := {[path]} ∪ m_nodesPaths P;
           m_compiler := m_compiler P; qDebug := qDebug P |} in
  setupNode path P.

Definition rescanNodes (entries : list string) (P : ApplicationPlugin)
    : ApplicationPlugin :=
  let nodes := libpath +:+ "/Nodes" in
  let P :=
    {| m_addonsWatch := m_addonsWatch P; m_nodesWatch := addPath nodes (m_nodesWatch P);
       m_addonsPaths := m_addonsPaths P; m_nodesPaths := m_nodesPaths P;
       m_compiler := m_compiler P; qDebug := qDebug P |} in
  foldl rescanNodes_entry P entries.

(** The plug-in as its constructor leaves it. *)
Definition initial : ApplicationPlugin :=
  {| m_addonsWatch := ∅; m_nodesWatch := ∅; m_addonsPaths := ∅; m_nodesPaths := ∅;
     m_compiler := []; qDebug := [] |}.

(** The job [setupNode] submits for a file, if it submits one. *)
Definition node_job (f : string) : option Submission :=
  head (m_compiler (setupNode f initial)).

(** One call of a member function that sets up or rescans, and the plug-ins
    such calls lead to. *)
Inductive call (P : ApplicationPlugin) : ApplicationPlugin → Prop :=
  | call_rescanAddons entries : call P (rescanAddons entries P)
  | call_rescanNodes entries : call P (rescanNodes entries P)
  | call_setupAddon addon : call P (setupAddon addon P)
  | call_setupNode f : call P (setupNode f P).

Inductive reached : ApplicationPlugin → Prop :=
  | reached_initial : reached initial
  | reached_call P P' : reached P → call P P' → reached P'.

End Plugin.

End Jit.

(** * The plug-in settings *)

(** ** Paths of a downloaded archive *)

Module zip_helper.

(** [QString::lastIndexOf(QChar)]; [None] is the source's [-1]. *)
Fixpoint lastIndexOf (c : Ascii.ascii) (str : string) : option nat :=
  match str with
  | EmptyString => None
  | String a str' =>
      match lastIndexOf c str' with
      | Some idx => Some (S idx)
      | None => if Ascii.eqb a c then Some 0%nat else None
      end
  end.

Definition get_path (str : string) : string :=
  match lastIndexOf "/"%char str with
  | Some idx => mid 0 idx str
  | None => ""
  end.

Definition slash_path (str : string) : string := "".

Definition relative_path (base filename : string) : string := filename.

Definition combine_path (path filename : string) : string :=
  path +:+ "/" +:+ filename.

End zip_helper.

(** ** The add-ons offered for download *)

Module PluginSettings.

Definition QUrl := string.
Definition UuidKey := N.
(** An image by the data it was loaded from; [None] is the null image. *)
Definition QImage := option string.

Record RemoteAddon := {
  source : QUrl;
  key : UuidKey;
  raw_name : string;
  name : string;
  version : string;
  latestVersionAddress : string;
  shortDescription : string;
  longDescription : string;
  smallImagePath : string;
  largeImagePath : string;
  smallImage : QImage;
  largeImage : QImage;
  enabled : bool;
  corePlugin : bool
}.

(** [RemotePluginItemModel]: its vector, and how many times it has reset
    itself with [beginResetModel] and [endResetModel]. *)
Record RemotePluginItemModel := {
  m_vec : list RemoteAddon;
  modelReset : nat
}.

(** [ossia::find_if], by the position found. *)
Fixpoint find_if {A} (pred : A → bool) (vec : list A) : option nat :=
  match vec with
  | [] => None
  | x :: vec' => if pred x then Some 0%nat else S <$> find_if pred vec'
  end.

(** [RemotePluginItemModel::addon]; the pointer is the position of the
    add-on in [m_vec]. *)
Definition addon (k : UuidKey) (M : RemotePluginItemModel) : option nat :=
  find_if (λ add, N.eqb (key add) k) (m_vec M).

(** [RemotePluginItemModel::updateAddon]. *)
Definition updateAddon (k : UuidKey) (f : RemoteAddon → RemoteAddon)
    (M : RemotePluginItemModel) : RemotePluginItemModel :=
  match addon k M with
  | Some add => {| m_vec := alter f add (m_vec M); modelReset := S (modelReset M) |}
  | None => M
  end.

Definition set_smallImage (image : QImage) (add : RemoteAddon) : RemoteAddon :=
  {| source := source add; key := key add; raw_name := raw_name add; name := name add;
     version := version add; latestVersionAddress := latestVersionAddress add;
     shortDescription := shortDescription add; longDescription := longDescription add;
     smallImagePath := smallImagePath add; largeImagePath := largeImagePath add;
     smallImage := image; largeImage := largeImage add;
     enabled := enabled add; corePlugin := corePlugin add |}.

Definition set_largeImage (image : QImage) (add : RemoteAddon) : RemoteAddon :=
  {| source := source add; key := key add; raw_name := raw_name add; name := name add;
     version := version add; latestVersionAddress := latestVersionAddress add;
     shortDescription := shortDescription add; longDescription := longDescription add;
     smallImagePath := smallImagePath add; largeImagePath := largeImagePath add;
     smallImage := smallImage add; largeImage := image;
     enabled := enabled add; corePlugin := corePlugin add |}.

(** A [FileDownloader] made by [handleAddon], with what its [downloaded]
    slot will update. *)
Inductive Which := SmallImage | LargeImage.

Record Download := {
  url : QUrl;
  for_key : UuidKey;
  which : Which
}.

(** The view: whether [m_progress] is hidden, the counter, the requests
    sent through [mgr] and the downloaders made, latest first, the model
    behind [m_remoteAddons], and the lines sent to [qDebug]. *)
Record PluginSettingsView := {
  m_progress_hidden : bool;
  m_addonsToRetrieve : Z;
  mgr : list QUrl;
  downloaders : list Download;
  model : RemotePluginItemModel;
  qDebug : list string
}.

Definition setHidden (hidden : bool) (V : PluginSettingsView) : PluginSettingsView :=
  {| m_progress_hidden := hidden; m_addonsToRetrieve := m_addonsToRetrieve V;
     mgr := mgr V; downloaders := downloaders V; model := model V; qDebug := qDebug V |}.

Definition set_addonsToRetrieve (n : Z) (V : PluginSettingsView) : PluginSettingsView :=
  {| m_progress_hidden := m_progress_hidden V; m_addonsToRetrieve := n;
     mgr := mgr V; downloaders := downloaders V; model := model V; qDebug := qDebug V |}.

Definition get_request (rqst : QUrl) (V : PluginSettingsView) : PluginSettingsView :=
  {| m_progress_hidden := m_progress_hidden V;
     m_addonsToRetrieve := m_addonsToRetrieve V;
     mgr := rqst :: mgr V; downloaders := downloaders V; model := model V;
     qDebug := qDebug V |}.

Definition new_downloader (dl : Download) (V : PluginSettingsView) : PluginSettingsView :=
  {| m_progress_hidden := m_progress_hidden V;
     m_addonsToRetrieve := m_addonsToRetrieve V;
     mgr := mgr V; downloaders := dl :: downloaders V; model := model V;
     qDebug := qDebug V |}.

Definition on_model (f : RemotePluginItemModel → RemotePluginItemModel)
    (V : PluginSettingsView) : PluginSettingsView :=
  {| m_progress_hidden := m_progress_hidden V;
     m_addonsToRetrieve := m_addonsToRetrieve V;
     mgr := mgr V; downloaders := downloaders V; model := f (model V);
     qDebug := qDebug V |}.

Definition debug (line : string) (V : PluginSettingsView) : PluginSettingsView :=
  {| m_progress_hidden := m_progress_hidden V;
     m_addonsToRetrieve := m_addonsToRetrieve V;
     mgr := mgr V; downloaders := downloaders V; model := model V;
     qDebug := line :: qDebug V |}.

Section View.

Variable QJsonObject : Type.
(** [QJsonDocument::fromJson(res).object()]. *)
Variable fromJson_object : string → QJsonObject.
Variable contains : QJsonObject → string → bool.
(** [obj["addons"].toArray()], each element by its [toString]. *)
Variable addons_array : QJsonObject → list string.
(** [RemoteAddon::fromJson], [RemotePluginItemModel::addAddon] and
    [QImage::loadFromData], which are defined elsewhere. *)
Variable fromJson : QJsonObject → option RemoteAddon.
Variable addAddon : RemoteAddon → RemotePluginItemModel → RemotePluginItemModel.
Variable loadFromData : string → QImage → QImage.

(** [PluginSettingsView::handleAddonList]. *)
Definition handleAddonList (obj : QJsonObject) (V : PluginSettingsView)
    : PluginSettingsView :=
  let V := setHidden false V in
  let arr := addons_array obj in
  let V := set_addonsToRetrieve (Z.of_nat (length arr)) V in
  foldl (λ V elt, get_request elt V) V arr.

(** [PluginSettingsView::handleAddon]. *)
Definition handleAddon (obj : QJsonObject) (V : PluginSettingsView)
    : PluginSettingsView :=
  let V := set_addonsToRetrieve (m_addonsToRetrieve V - 1)%Z V in
  let V := if (m_addonsToRetrieve V =? 0)%Z then setHidden true V else V in
  match fromJson obj with
  | None => V
  | Some add =>
      let V :=
        if negb (String.eqb (smallImagePath add) "")
        then new_downloader
               {| url := smallImagePath add; for_key := key add; which := SmallImage |} V
        else V in
      let V :=
        if negb (String.eqb (largeImagePath add) "")
        then new_downloader
               {| url := largeImagePath add; for_key := key add; which := LargeImage |} V
        else V in
      on_model (addAddon add) V
  end.

(** The slot [handleAddon] connects to [downloaded]. *)
Definition downloaded (dl : Download) (arr : string) (V : PluginSettingsView)
    : PluginSettingsView :=
  on_model
    (updateAddon (for_key dl)
       (λ add,
          match which dl with
          | SmallImage => set_smallImage (loadFromData arr (smallImage add)) add
          | LargeImage => set_largeImage (loadFromData arr (largeImage add)) add
          end))
    V.

(** [PluginSettingsView::on_message], on what the reply holds. *)
Definition on_message (V : PluginSettingsView) (res : string) : PluginSettingsView :=
  let json := fromJson_object res in
  if contains json "addons" then handleAddonList json V
  else if contains json "name" then handleAddon json V
  else setHidden true (debug res V).

End View.

End PluginSettings.

(** * A concrete setting *)

(** Object files and loader behaviours used to run the layer: two add-ons
    that both export [shared_sym], an object with a weak definition the
    loader leaves to another provider, an object whose relocation fails,
    two objects whose loader asks a symbol of the module it is finalizing
    for its address, and an object with a symbol whose flags cannot be
    computed. *)

Local Open Scope string_scope.

Definition ex_flags (weak exported : bool) : JITSymbolFlags :=
  {| Weak := weak; Common := false; Absolute := false;
     Exported := exported; Callable := true |}.

(** A defined global symbol ([SF_Global] only). *)
Definition ex_symbol (Name : string) (weak exported : bool) : SymbolRef :=
  {| sym_getFlags := Value 2%N;
     sym_getName := Value Name;
     fromObjectSymbol := Value (ex_flags weak exported) |}.

(** A reference to a symbol defined elsewhere ([SF_Undefined | SF_Global]). *)
Definition ex_undefined (Name : string) : SymbolRef :=
  {| sym_getFlags := Value 3%N;
     sym_getName := Value Name;
     fromObjectSymbol := Value (ex_flags false false) |}.

Definition ex_objC : ObjectFile :=
  {| symbols := [ex_symbol "run_addonC" false true; ex_symbol "shared_sym" false true] |}.
Definition ex_objD : ObjectFile :=
  {| symbols := [ex_symbol "helper" false false; ex_symbol "shared_sym" false true;
                 ex_undefined "run_addonC"] |}.
Definition ex_objW : ObjectFile :=
  {| symbols := [ex_symbol "w_entry" false true; ex_symbol "weak_sym" true true] |}.
Definition ex_objX : ObjectFile :=
  {| symbols := [ex_symbol "x_entry" false true; ex_symbol "weak_sym" false true] |}.
Definition ex_objR : ObjectFile :=
  {| symbols := [ex_symbol "entry" false true] |}.
Definition ex_objS : ObjectFile :=
  {| symbols := [ex_symbol "self" false true] |}.
Definition ex_objE : ObjectFile :=
  {| symbols := [ex_symbol "e_entry" false true; ex_symbol "shared_sym" false true] |}.
Definition ex_objT : ObjectFile :=
  {| symbols := [ex_symbol "early" false true] |}.

(** An object with a defined, named symbol whose JIT flags cannot be
    computed. *)
Definition ex_objF : ObjectFile :=
  {| symbols := [ex_symbol "f_entry" false true;
                 {| sym_getFlags := Value 2%N;
                    sym_getName := Value "odd";
                    fromObjectSymbol := Failure "Invalid symbol flags" |}] |}.

(** An object that defines [twice] twice, first weak and exported, then
    strong and local, and refers to [elsewhere]. *)
Definition ex_objTwice : ObjectFile :=
  {| symbols := [ex_undefined "elsewhere"; ex_symbol "twice" true true;
                 ex_symbol "twice" false false] |}.

Definition ex_created (Object : ObjectFile) : LinkedObject :=
  match createLinkedObject Object false with
  | Some this => this
  | None => {| SymbolTable := ∅; Finalized := false; ObjForNotify := None; PFC := None |}
  end.

Definition ex_parse (ObjBuffer : MemoryBuffer) : Expected ObjectFile :=
  if String.eqb ObjBuffer "C" then Value ex_objC
  else if String.eqb ObjBuffer "D" then Value ex_objD
  else if String.eqb ObjBuffer "W" then Value ex_objW
  else if String.eqb ObjBuffer "X" then Value ex_objX
  else if String.eqb ObjBuffer "R" then Value ex_objR
  else if String.eqb ObjBuffer "S" then Value ex_objS
  else if String.eqb ObjBuffer "E" then Value ex_objE
  else if String.eqb ObjBuffer "T" then Value ex_objT
  else if String.eqb ObjBuffer "F" then Value ex_objF
  else Failure "The file was not recognized as a valid object file".

Definition ex_at (addr : JITTargetAddress) (exported : bool) : JITEvaluatedSymbol :=
  {| getAddress := addr; getFlags := ex_flags false exported |}.

Definition ex_first_name (Object : ObjectFile) : string :=
  match symbols Object with
  | Symbol :: _ => match sym_getName Symbol with Value Name => Name | Failure _ => "" end
  | [] => ""
  end.

(** The loader, by the object it is given.  For [ex_objD] it resolves
    [run_addonC] through [findSymbol] and the symbol's address; for
    [ex_objW] it leaves [weak_sym] out of its table; for [ex_objR] it reports
    an error; for [ex_objS] it asks, once the object is loaded, a lazy symbol
    of the module it is finalizing for its address and passes on any error;
    for [ex_objT] it asks such a symbol before the object is loaded. *)
Definition ex_dyld (K : VModuleKey) (Object : ObjectFile) : DyldRun :=
  let Name := ex_first_name Object in
  if String.eqb Name "run_addonC" then
    {| loadObject := Done {[ "run_addonC" := ex_at 4096 true;
                             "shared_sym" := ex_at 4112 true ]};
       finalizeWithMemoryManagerLocking := Done None |}
  else if String.eqb Name "helper" then
    {| loadObject := Done {[ "helper" := ex_at 8192 false;
                             "shared_sym" := ex_at 8208 true ]};
       finalizeWithMemoryManagerLocking :=
         CallFindSymbol "run_addonC" false (λ Sym,
           match Sym with
           | JITSymbol_lazy _ _ =>
               CallGetAddress Sym (λ r,
                 Done match r with
                      | Value _ => None
                      | Failure Err => Some Err
                      end)
           | JITSymbol_evaluated _ => Done None
           | _ => Done (Some "Symbol not found: run_addonC")
           end) |}
  else if String.eqb Name "w_entry" then
    {| loadObject := Done {[ "w_entry" := ex_at 12288 true ]};
       finalizeWithMemoryManagerLocking := Done None |}
  else if String.eqb Name "x_entry" then
    {| loadObject := Done {[ "x_entry" := ex_at 16384 true;
                             "weak_sym" := ex_at 16400 true ]};
       finalizeWithMemoryManagerLocking := Done None |}
  else if String.eqb Name "e_entry" then
    {| loadObject := Done {[ "e_entry" := ex_at 28672 true;
                             "shared_sym" := ex_at 28688 true ]};
       finalizeWithMemoryManagerLocking := Done None |}
  else if String.eqb Name "entry" then
    {| loadObject := Done {[ "entry" := ex_at 20480 true ]};
       finalizeWithMemoryManagerLocking := Done (Some "Relocation failed") |}
  else if String.eqb Name "early" then
    {| loadObject :=
         CallGetAddress
           (JITSymbol_lazy (getSymbolMaterializer K "early") (ex_flags false true))
           (λ r, Done {[ "early" := ex_at 32768 true ]});
       finalizeWithMemoryManagerLocking := Done None |}
  else
    {| loadObject := Done {[ "self" := ex_at 24576 true ]};
       finalizeWithMemoryManagerLocking :=
         CallGetAddress
           (JITSymbol_lazy (getSymbolMaterializer K "self") (ex_flags false true))
           (λ r,
              Done match r with
                   | Value _ => None
                   | Failure Err => Some Err
                   end) |}.

(** The layer a computation leaves. *)
Definition ex_after {A} (m : M A) (L : ScoreLinkingLayer) : ScoreLinkingLayer :=
  match m L with
  | Returned _ L' => L'
  | _ => L
  end.

Definition ex_module (K : VModuleKey) (L : ScoreLinkingLayer) : LinkedObject :=
  match StdMap.find K (LinkedObjects L) with
  | Some this => this
  | None => {| SymbolTable := ∅; Finalized := false; ObjForNotify := None; PFC := None |}
  end.

Definition ex_entry (K : VModuleKey) (Name : string) (L : ScoreLinkingLayer)
    : JITEvaluatedSymbol :=
  match SymbolTable (ex_module K L) !! Name with
  | Some E => E
  | None => ex_at 0 false
  end.

Definition ex_new : ScoreLinkingLayer := newLayer true true true.

(** add-on C added under key 1, then finalized. *)
Definition ex_C0 : ScoreLinkingLayer := ex_after (addObject ex_parse 1 "C") ex_new.
Definition ex_C1 : ScoreLinkingLayer := ex_after (emitAndFinalize ex_dyld 4 1) ex_C0.
(** ... then add-on D added under key 2, then finalized. *)
Definition ex_CD0 : ScoreLinkingLayer := ex_after (addObject ex_parse 2 "D") ex_C1.
Definition ex_CD1 : ScoreLinkingLayer := ex_after (emitAndFinalize ex_dyld 4 2) ex_CD0.
(** add-on E under key 2 first, finalized; then add-on C under key 1,
    finalized; then C unloaded. *)
Definition ex_E1 : ScoreLinkingLayer :=
  ex_after (emitAndFinalize ex_dyld 4 2) (ex_after (addObject ex_parse 2 "E") ex_new).
Definition ex_EC1 : ScoreLinkingLayer :=
  ex_after (emitAndFinalize ex_dyld 4 1) (ex_after (addObject ex_parse 1 "C") ex_E1).
Definition ex_EC2 : ScoreLinkingLayer := ex_after (removeObject 1) ex_EC1.
(** W alone under key 1, finalized. *)
Definition ex_W0 : ScoreLinkingLayer := ex_after (addObject ex_parse 1 "W") ex_new.
Definition ex_W1 : ScoreLinkingLayer := ex_after (emitAndFinalize ex_dyld 4 1) ex_W0.
(** W under key 1 and X under key 2; W finalized. *)
Definition ex_WX0 : ScoreLinkingLayer :=
  ex_after (addObject ex_parse 2 "X") (ex_after (addObject ex_parse 1 "W") ex_new).
Definition ex_WX1 : ScoreLinkingLayer := ex_after (emitAndFinalize ex_dyld 4 1) ex_WX0.
(** R under key 1, and a failed finalization. *)
Definition ex_R0 : ScoreLinkingLayer := ex_after (addObject ex_parse 1 "R") ex_new.
Definition ex_R1 : ScoreLinkingLayer := ex_after (emitAndFinalize ex_dyld 4 1) ex_R0.
(** S under key 1; the layer as [finalize] has it once it has made the
    loader and marked the module, before the loader runs; the layer as
    [finalize] has it when the object is loaded, the table copied and
    [NotifyLoaded] called; and the layer after [finalize]. *)
Definition ex_S0 : ScoreLinkingLayer := ex_after (addObject ex_parse 1 "S") ex_new.
Definition ex_S_marked : ScoreLinkingLayer :=
  ex_after
    (update_this 1
       (set_RTDyld {| rt_ProcessAllSections := false;
                      getSymbolTable := ∅;
                      getErrorString := None |});;
     update_this 1 set_Finalized)
    ex_S0.
Definition ex_S_loaded : ScoreLinkingLayer :=
  ex_after
    (update_this 1
       (set_RTDyld {| rt_ProcessAllSections := false;
                      getSymbolTable := {[ "self" := ex_at 24576 true ]};
                      getErrorString := None |});;
     update_this 1 (copy_symbol_table {[ "self" := ex_at 24576 true ]});;
     notify NotifyLoaded (Loaded 1))
    ex_S_marked.
Definition ex_S1 : ScoreLinkingLayer := ex_after (emitAndFinalize ex_dyld 4 1) ex_S0.

(** The last component of a path. *)
Fixpoint ex_fileName_from (acc : string) (s : string) : string :=
  match s with
  | EmptyString => acc
  | String a s' =>
      if Ascii.eqb a "/"%char then ex_fileName_from EmptyString s'
      else ex_fileName_from (acc +:+ String a EmptyString) s'
  end.

Definition ex_fileName (path : string) : string := ex_fileName_from EmptyString path.

Definition ex_loadAddon (addon : string) : AddonContents :=
  if String.eqb addon "/library/Addons/Empty"
  then {| json_key := "0f6a1b2c-3d4e"; cpp_files := []; files := ["addon.json"] |}
  else {| json_key := "9e8d7c6b-5a4f";
          cpp_files := [addon +:+ "/main.cpp"];
          files := ["addon.json"; "main.cpp"] |}.

Definition ex_generateAddonFiles (name addon : string) (fs : list string) : string :=
  "/tmp/" +:+ name.

Definition ex_plugin : ApplicationPlugin := {| m_compiler := []; qDebug := [] |}.

(** Node files: a node with its uuid, a header that names [make_uuid]
    without a text after it, and a text file that holds the node. *)
Fixpoint ex_suffix_from (dot : bool) (acc : string) (s : string) : string :=
  match s with
  | EmptyString => if dot then acc else EmptyString
  | String a s' =>
      if Ascii.eqb a "."%char then ex_suffix_from true EmptyString s'
      else ex_suffix_from dot (acc +:+ String a EmptyString) s'
  end.

Definition ex_suffix (path : string) : string :=
  ex_suffix_from false EmptyString (ex_fileName path).

Definition ex_uuid : string := "f6c626f8-b1eb-4b0e-8e2c-0f5b3c9a7d41".
Definition ex_before : string := "struct Node { static const constexpr auto uuid = ".
Definition ex_between : string := "(".
Definition ex_rest : string := "); };".

Definition ex_node : string :=
  ex_before +:+ make_uuid_s +:+ ex_between
  +:+ String double_quote (ex_uuid +:+ String double_quote ex_rest).

Definition ex_readAll (f : string) : option string :=
  if String.eqb f "/library/Nodes/Gain.hpp" then Some ex_node
  else if String.eqb f "/library/Nodes/Notes.hpp"
  then Some "// a node names its uuid with make_uuid"
  else if String.eqb f "/library/Nodes/README.txt" then Some ex_node
  else None.

Definition ex_fromUtf8 (bytes : string) : string := bytes.

Definition ex_pathExists (path : string) : bool := true.

Definition ex_libpath : string := "/library".

Definition ex_rescanAddons : list string → Jit.ApplicationPlugin → Jit.ApplicationPlugin :=
  Jit.rescanAddons ex_fileName ex_loadAddon ex_generateAddonFiles ex_pathExists
    ex_libpath.

Definition ex_rescanNodes : list string → Jit.ApplicationPlugin → Jit.ApplicationPlugin :=
  Jit.rescanNodes ex_fileName ex_suffix ex_loadAddon ex_generateAddonFiles ex_readAll
    ex_fromUtf8 ex_pathExists ex_libpath.

Definition ex_node_files : list string :=
  ["/library/Nodes/Gain.hpp"; "/library/Nodes/Notes.hpp"; "/library/Nodes/README.txt"].

(** Add-ons offered for download, two of them under one key, and the
    replies that announce them. *)
Definition ex_addon (k : N) (n : string) : PluginSettings.RemoteAddon :=
  {| PluginSettings.source := "https://example.org/" +:+ n +:+ ".zip";
     PluginSettings.key := k;
     PluginSettings.raw_name := n;
     PluginSettings.name := n;
     PluginSettings.version := "1.0";
     PluginSettings.latestVersionAddress := "";
     PluginSettings.shortDescription := "";
     PluginSettings.longDescription := "";
     PluginSettings.smallImagePath := "https://example.org/" +:+ n +:+ ".png";
     PluginSettings.largeImagePath := "";
     PluginSettings.smallImage := None;
     PluginSettings.largeImage := None;
     PluginSettings.enabled := true;
     PluginSettings.corePlugin := false |}.

Definition ex_model : PluginSettings.RemotePluginItemModel :=
  {| PluginSettings.m_vec :=
       [ex_addon 7 "synth"; ex_addon 9 "reverb"; ex_addon 7 "synth-copy"];
     PluginSettings.modelReset := 0 |}.

Definition ex_view : PluginSettings.PluginSettingsView :=
  {| PluginSettings.m_progress_hidden := true;
     PluginSettings.m_addonsToRetrieve := 0;
     PluginSettings.mgr := [];
     PluginSettings.downloaders := [];
     PluginSettings.model := {| PluginSettings.m_vec := []; PluginSettings.modelReset := 0 |};
     PluginSettings.qDebug := [] |}.

Definition ex_fromJson_object (res : string) : string := res.

Definition ex_contains (obj key : string) : bool :=
  if String.eqb obj "list" then String.eqb key "addons"
  else if String.eqb obj "synth" || String.eqb obj "reverb" then String.eqb key "name"
  else false.

Definition ex_addons_array (obj : string) : list string :=
  if String.eqb obj "list"
  then ["https://example.org/synth.json"; "https://example.org/reverb.json"]
  else [].

Definition ex_fromJson (obj : string) : option PluginSettings.RemoteAddon :=
  if String.eqb obj "synth" then Some (ex_addon 7 "synth")
  else if String.eqb obj "reverb" then Some (ex_addon 9 "reverb")
  else None.

Definition ex_addAddon (e : PluginSettings.RemoteAddon)
    (M : PluginSettings.RemotePluginItemModel) : PluginSettings.RemotePluginItemModel :=
  {| PluginSettings.m_vec := PluginSettings.m_vec M ++ [e];
     PluginSettings.modelReset := PluginSettings.modelReset M |}.

Definition ex_on_message
    : PluginSettings.PluginSettingsView → string → PluginSettings.PluginSettingsView :=
  PluginSettings.on_message string ex_fromJson_object ex_contains ex_addons_array
    ex_fromJson ex_addAddon.

Local Close Scope string_scope.

(** * Properties *)

(** ** The ordered map *)

Module StdMapFacts.
Import StdMap.

Lemma find_alter f K K' (M : t) :
  find K' (alter f K M) = if K' =? K then f <$> find K' M else find K' M.
Proof.
  induction M as [|[k y] M IH]; simpl.
  - by destruct (K' =? K).
  - destruct (N.eqb_spec k K) as [->|Hk]; simpl.
    + destruct (N.eqb_spec K K') as [->|HK].
      * by rewrite N.eqb_refl.
      * destruct (N.eqb_spec K' K); (lia || done).
    + destruct (N.eqb_spec k K') as [->|Hk'].
      * destruct (N.eqb_spec K' K); (lia || done).
      * apply IH.
Qed.

Lemma find_alter_eq f K (M : t) : find K (alter f K M) = f <$> find K M.
Proof. by rewrite find_alter, N.eqb_refl. Qed.

Lemma find_alter_ne f K K' (M : t) : K' ≠ K → find K' (alter f K M) = find K' M.
Proof. intros H. rewrite find_alter. by destruct (N.eqb_spec K' K). Qed.

Lemma keys_alter f K (M : t) : keys (alter f K M) = keys M.
Proof.
  unfold keys. induction M as [|[k y] M IH]; csimpl; [done|].
  destruct (k =? K); csimpl; by rewrite ?IH.
Qed.

Lemma find_assign_eq K x (M : t) : find K (assign K x M) = Some x.
Proof.
  induction M as [|[k y] M IH]; simpl.
  - by rewrite N.eqb_refl.
  - destruct (N.ltb_spec K k); simpl; [by rewrite N.eqb_refl|].
    destruct (N.eqb_spec k K); simpl; [by rewrite N.eqb_refl|].
    destruct (N.eqb_spec k K); [done|apply IH].
Qed.

Lemma find_assign_ne K K' x (M : t) : K' ≠ K → find K' (assign K x M) = find K' M.
Proof.
  intros HK. induction M as [|[k y] M IH]; simpl.
  - by destruct (N.eqb_spec K K').
  - destruct (N.ltb_spec K k); simpl.
    { by destruct (N.eqb_spec K K'). }
    destruct (N.eqb_spec k K) as [->|Hk]; simpl.
    { by destruct (N.eqb_spec K K'). }
    destruct (N.eqb_spec k K'); [done|apply IH].
Qed.

Lemma find_erase_ne K K' (M : t) : K' ≠ K → find K' (erase K M) = find K' M.
Proof.
  intros HK. induction M as [|[k y] M IH]; simpl; [done|].
  destruct (N.eqb_spec k K) as [->|Hk]; simpl.
  - by destruct (N.eqb_spec K K').
  - destruct (N.eqb_spec k K'); [done|apply IH].
Qed.

Lemma find_Some_elem K x (M : t) : find K M = Some x → (K, x) ∈ M.
Proof.
  induction M as [|[k y] M IH]; simpl; [done|].
  destruct (N.eqb_spec k K) as [->|Hk].
  - intros [= ->]. left.
  - intros H. right. by apply IH.
Qed.

Lemma find_None_below K (M : t) : Forall (λ e, K < e.1) M → find K M = None.
Proof.
  induction 1 as [|[k y] M Hk _ IH]; simpl in *; [done|].
  destruct (N.eqb_spec k K); [lia|done].
Qed.

Lemma find_erase_eq K (M : t) : ascending M → find K (erase K M) = None.
Proof.
  induction M as [|[k y] M IH]; simpl; [done|].
  intros [Hk HM]. destruct (N.eqb_spec k K) as [->|Hk'].
  - by apply find_None_below.
  - simpl. destruct (N.eqb_spec k K); [done|by apply IH].
Qed.

Lemma Forall_erase (P : VModuleKey * LinkedObject → Prop) K (M : t) :
  Forall P M → Forall P (erase K M).
Proof.
  induction 1 as [|[k y] M Hk HM IH]; simpl; [constructor|].
  destruct (k =? K); [done|by constructor].
Qed.

Lemma ascending_erase K (M : t) : ascending M → ascending (erase K M).
Proof.
  induction M as [|[k y] M IH]; simpl; [done|].
  intros [Hk HM]. destruct (k =? K); [done|]. simpl.
  split; [by apply Forall_erase|by apply IH].
Qed.

Lemma Forall_assign (P : VModuleKey * LinkedObject → Prop) K x (M : t) :
  P (K, x) → Forall P M → Forall P (assign K x M).
Proof.
  intros HP. induction 1 as [|[k y] M Hk HM IH]; simpl.
  - by repeat constructor.
  - destruct (K <? k); [by repeat constructor|].
    destruct (k =? K); by constructor.
Qed.

Lemma ascending_assign K x (M : t) : ascending M → ascending (assign K x M).
Proof.
  induction M as [|[k y] M IH]; simpl; [done|].
  intros [Hk HM]. destruct (N.ltb_spec K k).
  - simpl. split_and!; [|done|done].
    constructor; [done|]. eapply Forall_impl; [exact Hk|].
    intros [??]; simpl; lia.
  - destruct (N.eqb_spec k K) as [->|Hk']; simpl; [done|].
    split; [|by apply IH]. apply Forall_assign; [simpl; lia|done].
Qed.

Lemma ascending_alter f K (M : t) : ascending M → ascending (alter f K M).
Proof.
  induction M as [|[k y] M IH]; simpl; [done|].
  intros [Hk HM]. destruct (k =? K); simpl; [done|].
  split; [|by apply IH].
  clear -Hk. induction Hk as [|[k' y'] M Hk' HM' IH]; simpl; [constructor|].
  destruct (k' =? K); by constructor.
Qed.

Lemma ascending_NoDup (M : t) : ascending M → NoDup (keys M).
Proof.
  unfold keys. induction M as [|[k y] M IH]; csimpl; [constructor|].
  intros [Hk HM]. constructor; [|by apply IH].
  intros Hin. apply list_elem_of_fmap in Hin as ([k' y'] & -> & Hin).
  rewrite Forall_forall in Hk. specialize (Hk _ Hin). simpl in Hk. lia.
Qed.

Lemma count_true K (M : t) : count K M = true ↔ is_Some (find K M).
Proof.
  unfold count. destruct (find K M); split; intros H; eauto.
  - done.
  - by destruct H.
Qed.

Lemma count_false K (M : t) : count K M = false ↔ find K M = None.
Proof. unfold count. by destruct (find K M). Qed.

End StdMapFacts.

(** ** Running computations *)

Lemma bind_run {A B} (m : M A) (f : A → M B) L :
  (m ≫= f) L = match m L with
               | Returned a L' => f a L'
               | Aborted msg => Aborted msg
               | OutOfFuel => OutOfFuel
               end.
Proof. reflexivity. Qed.

Lemma bind_Returned {A B} (m : M A) (f : A → M B) L b L' :
  (m ≫= f) L = Returned b L' ↔ ∃ a L1, m L = Returned a L1 ∧ f a L1 = Returned b L'.
Proof.
  rewrite bind_run. split.
  - destruct (m L) as [a L1| |]; [eauto|done|done].
  - by intros (a & L1 & -> & ?).
Qed.

Lemma get_this_run K L :
  get_this K L = match StdMap.find K (LinkedObjects L) with
                 | Some this => Returned this L
                 | None => Aborted "use of a destroyed LinkedObject"
                 end.
Proof.
  unfold get_this. rewrite bind_run. simpl.
  by destruct (StdMap.find K (LinkedObjects L)).
Qed.

Lemma deref_PFC_run K L :
  deref_PFC K L = match StdMap.find K (LinkedObjects L) with
                  | Some this => match PFC this with
                                 | Some P => Returned P L
                                 | None => Aborted "null PFC"
                                 end
                  | None => Aborted "use of a destroyed LinkedObject"
                  end.
Proof.
  unfold deref_PFC. rewrite bind_run, get_this_run.
  destruct (StdMap.find K (LinkedObjects L)) as [this|]; [|done].
  by destruct (PFC this).
Qed.

Lemma deref_RTDyld_run K L :
  deref_RTDyld K L = match StdMap.find K (LinkedObjects L) with
                     | Some this =>
                         match PFC this with
                         | Some P => match RTDyld P with
                                     | Some D => Returned D L
                                     | None => Aborted "null RTDyld"
                                     end
                         | None => Aborted "null PFC"
                         end
                     | None => Aborted "use of a destroyed LinkedObject"
                     end.
Proof.
  unfold deref_RTDyld. rewrite bind_run, deref_PFC_run.
  destruct (StdMap.find K (LinkedObjects L)) as [this|]; [|done].
  destruct (PFC this) as [P|]; [|done]. by destruct (RTDyld P).
Qed.

Lemma notify_run enabled e L :
  notify enabled e L = Returned () (if enabled L then push_notified e L else L).
Proof. reflexivity. Qed.

Lemma update_this_run K f L :
  update_this K f L
  = Returned () (set_LinkedObjects (StdMap.alter f K (LinkedObjects L)) L).
Proof. reflexivity. Qed.

(** ** What a run may change *)

Lemma steps_ret {A} (R : relation ScoreLinkingLayer) `{!Reflexive R} (a : A) :
  steps R (mret a).
Proof. intros L a' L' [= _ <-]. reflexivity. Qed.

Lemma steps_bind {A B} (R : relation ScoreLinkingLayer) `{!Transitive R}
    (m : M A) (f : A → M B) :
  steps R m → (∀ a, steps R (f a)) → steps R (m ≫= f).
Proof.
  intros Hm Hf L b L'. rewrite bind_Returned. intros (a & L1 & H1 & H2).
  etrans; [by eapply Hm|by eapply Hf].
Qed.


Lemma steps_JITSymbol_getAddress (Rel : relation ScoreLinkingLayer) `{!PreOrder Rel}
    call Sym :
  (∀ F, steps Rel (call F)) → steps Rel (JITSymbol_getAddress call Sym).
Proof.
  intros Hcall. destruct Sym as [|Err|E|F Flags]; simpl.
  - apply (steps_ret Rel).
  - by intros L a L'.
  - apply (steps_ret Rel).
  - apply steps_bind; [apply _|apply Hcall|]. intros [a|Err].
    + apply steps_bind; [apply _| |intros; apply (steps_ret Rel)].
      unfold assert. destruct (negb _); [apply (steps_ret Rel)|by intros L r L'].
    + apply (steps_ret Rel).
Qed.


#[global] Instance same_setup_preorder : PreOrder same_setup.
Proof.
  split.
  - by intros L.
  - intros L1 L2 L3 (?&?&?&?) (?&?&?&?). unfold same_setup. by split_and!; etrans.
Qed.

#[global] Instance module_lazy_preorder : PreOrder module_lazy.
Proof.
  split.
  - by left.
  - intros m1 m2 m3 [->|[H1 H2]] [->|[H3 H4]]; unfold module_lazy; eauto.
Qed.

#[global] Instance lazy_step_preorder : PreOrder lazy_step.
Proof.
  split.
  - intros L. split_and!; [done|done|]. intros K m Hm. exists m. split; [done|by left].
  - intros L1 L2 L3 (S1 & K1 & H1) (S2 & K2 & H2). split_and!.
    + by etrans.
    + by etrans.
    + intros K m Hm. destruct (H1 _ _ Hm) as (m' & Hm' & R1).
      destruct (H2 _ _ Hm') as (m'' & Hm'' & R2).
      exists m''. split; [done|by etrans].
Qed.

#[global] Instance frame_preorder K : PreOrder (frame K).
Proof.
  split.
  - intros L. split_and!; [done|done|]. intros K' m _ Hm. exists m. split; [done|by left].
  - intros L1 L2 L3 (S1 & K1 & H1) (S2 & K2 & H2). split_and!.
    + by etrans.
    + by etrans.
    + intros K' m HK Hm. destruct (H1 _ _ HK Hm) as (m' & Hm' & R1).
      destruct (H2 _ _ HK Hm') as (m'' & Hm'' & R2).
      exists m''. split; [done|by etrans].
Qed.

Lemma lazy_step_frame K L L' : lazy_step L L' → frame K L L'.
Proof. intros (S1 & K1 & H1). split_and!; [done|done|]. intros K' m _. apply H1. Qed.

(** A finalized module is out of reach of the closures. *)
Lemma lazy_step_finalized K this L L' :
  lazy_step L L' →
  StdMap.find K (LinkedObjects L) = Some this → Finalized this = true →
  StdMap.find K (LinkedObjects L') = Some this.
Proof.
  intros (_ & _ & H) Hfind Hfin. destruct (H _ _ Hfind) as (m' & Hm' & [->|[? _]]).
  - done.
  - congruence.
Qed.

(** A write to the module under [K] is within [frame K]. *)
Lemma frame_update_this K f L :
  frame K L (set_LinkedObjects (StdMap.alter f K (LinkedObjects L)) L).
Proof.
  split_and!; [done|apply StdMapFacts.keys_alter|].
  intros K' m HK Hm. exists m. simpl. rewrite StdMapFacts.find_alter_ne; [|done].
  split; [done|by left].
Qed.

Lemma frame_notify K (b : bool) e L :
  frame K L (if b then push_notified e L else L).
Proof. destruct b; [|reflexivity]. split_and!; [done|done|]. intros K' m _ Hm. exists m. split; [done|by left]. Qed.

(** A first finalization of the module under [K] is a lazy step. *)
Lemma frame_lazy_step K this this' L L' :
  frame K L L' →
  StdMap.find K (LinkedObjects L) = Some this → Finalized this = false →
  StdMap.find K (LinkedObjects L') = Some this' → Finalized this' = true →
  lazy_step L L'.
Proof.
  intros (S1 & K1 & H1) Hthis Hun Hthis' Hfin. split_and!; [done|done|].
  intros K' m Hm. destruct (decide (K' = K)) as [->|HK].
  - exists this'. split; [done|]. right. split; [congruence|done].
  - by apply H1.
Qed.

(** [JITSymbol::getAddress] runs out of fuel only in the closure. *)
Lemma JITSymbol_getAddress_OutOfFuel call Sym L :
  JITSymbol_getAddress call Sym L = OutOfFuel → ∃ F, call F L = OutOfFuel.
Proof.
  destruct Sym as [|Err|E|F Flags]; simpl; try done.
  rewrite bind_run. intros Hrun. exists F.
  destruct (call F L) as [[a|Err] L1| |]; [|done..].
  rewrite bind_run in Hrun. unfold assert in Hrun. by destruct (negb _).
Qed.

(** A script returns after lazy steps, or stops on an assertion, or one of
    its closure calls ran out of fuel. *)
Lemma run_script_outcome {R} call (p : Script R) L :
  (∀ F, steps lazy_step (call F)) →
  match run_script call p L with
  | Returned _ L' => lazy_step L L'
  | Aborted _ => True
  | OutOfFuel => ∃ F L', lazy_step L L' ∧ call F L' = OutOfFuel
  end.
Proof.
  intros Hcall. revert L. induction p as [r|Name Exp k IH|Sym k IH]; intros L; simpl.
  - reflexivity.
  - rewrite bind_run. simpl. apply IH.
  - rewrite bind_run.
    destruct (JITSymbol_getAddress call Sym L) as [a L1| |] eqn:Hrun; [|done|].
    + apply (steps_JITSymbol_getAddress lazy_step _ _ Hcall) in Hrun.
      specialize (IH a L1).
      destruct (run_script call (k a) L1) as [r L2| |]; [by etrans|done|].
      destruct IH as (F' & L' & HL' & Hout). exists F', L'. split; [by etrans|done].
    + apply JITSymbol_getAddress_OutOfFuel in Hrun as [F Hout].
      exists F, L. split; [reflexivity|done].
Qed.

(** ** Modules still to be finalized *)

Lemma length_filter_mono {A} (P Q : A → Prop)
    `{DP : !∀ x, Decision (P x)} `{DQ : !∀ x, Decision (Q x)} (l : list A) :
  (∀ x, x ∈ l → Q x → P x) → (length (filter Q l) ≤ length (filter P l))%nat.
Proof.
  induction l as [|x l IH]; intros H; [done|].
  rewrite !filter_cons.
  assert (length (filter Q l) ≤ length (filter P l))%nat as Hl.
  { apply IH. intros y Hy. apply H. by right. }
  destruct (decide (Q x)) as [HQ|HQ].
  - rewrite decide_True by (apply H; [left|done]). simpl. lia.
  - destruct (decide (P x)); simpl; lia.
Qed.

Lemma length_filter_lt {A} (P Q : A → Prop)
    `{DP : !∀ x, Decision (P x)} `{DQ : !∀ x, Decision (Q x)} (l : list A) x0 :
  (∀ x, x ∈ l → Q x → P x) → x0 ∈ l → P x0 → ¬ Q x0 →
  (length (filter Q l) < length (filter P l))%nat.
Proof.
  induction l as [|x l IH]; intros H Hin HP HQ; [by apply elem_of_nil in Hin|].
  rewrite !filter_cons.
  assert (length (filter Q l) ≤ length (filter P l))%nat as Hl.
  { apply length_filter_mono. intros y Hy. apply H. by right. }
  apply elem_of_cons in Hin as [<-|Hin].
  - destruct (decide (Q x0)); [done|]. destruct (decide (P x0)); [|done]. simpl. lia.
  - assert (length (filter Q l) < length (filter P l))%nat as Hlt.
    { apply IH; [|done|done|done]. intros y Hy. apply H. by right. }
    destruct (decide (Q x)) as [HQx|HQx].
    + rewrite decide_True by (apply H; [left|done]). simpl. lia.
    + destruct (decide (P x)); simpl; lia.
Qed.

Lemma find_Some_keys K this (M : StdMap.t) :
  StdMap.find K M = Some this → K ∈ StdMap.keys M.
Proof.
  intros H. apply StdMapFacts.find_Some_elem in H.
  unfold StdMap.keys. apply list_elem_of_fmap. by exists (K, this).
Qed.

Lemma unfinalized_lazy_step K L L' :
  lazy_step L L' → unfinalized K L' = true → unfinalized K L = true.
Proof.
  intros (_ & Hkeys & H). unfold unfinalized.
  destruct (StdMap.find K (LinkedObjects L)) as [m|] eqn:Hm.
  - destruct (H _ _ Hm) as (m' & -> & [->|[Hf Hf']]); [done|].
    by rewrite Hf, Hf'.
  - destruct (StdMap.find K (LinkedObjects L')) as [m'|] eqn:Hm'; [|done].
    apply find_Some_keys in Hm'. rewrite Hkeys in Hm'.
    apply list_elem_of_fmap in Hm' as ([k y] & -> & Hin). simpl in *.
    exfalso. clear -Hm Hin. induction (LinkedObjects L) as [|[k' y'] M IH].
    + by apply elem_of_nil in Hin.
    + simpl in Hm. destruct (N.eqb_spec k' k) as [->|Hne]; [done|].
      apply elem_of_cons in Hin as [[= -> ->]|Hin]; [done|by apply IH].
Qed.

Lemma pending_lazy_step L L' : lazy_step L L' → (pending L' ≤ pending L)%nat.
Proof.
  intros HL. unfold pending. pose proof HL as (HS & -> & H).
  apply length_filter_mono. intros K _.
  by apply unfinalized_lazy_step.
Qed.

Lemma unfinalized_frame K K' L L' :
  frame K L L' → unfinalized K L' = false →
  unfinalized K' L' = true → unfinalized K' L = true.
Proof.
  intros (HS & Hkeys & H) HK. destruct (decide (K' = K)) as [->|Hne]; [congruence|].
  unfold unfinalized.
  destruct (StdMap.find K' (LinkedObjects L)) as [m|] eqn:Hm.
  - destruct (H _ _ Hne Hm) as (m' & -> & [->|[Hf Hf']]); [done|].
    by rewrite Hf, Hf'.
  - destruct (StdMap.find K' (LinkedObjects L')) as [m'|] eqn:Hm'; [|done].
    apply find_Some_keys in Hm'. rewrite Hkeys in Hm'.
    apply list_elem_of_fmap in Hm' as ([k y] & -> & Hin). simpl in *.
    exfalso. clear -Hm Hin. induction (LinkedObjects L) as [|[k' y'] M IH].
    + by apply elem_of_nil in Hin.
    + simpl in Hm. destruct (N.eqb_spec k' k) as [->|Hne]; [done|].
      apply elem_of_cons in Hin as [[= -> ->]|Hin]; [done|by apply IH].
Qed.

Lemma pending_frame K L L' :
  frame K L L' → unfinalized K L' = false → (pending L' ≤ pending L)%nat.
Proof.
  intros HL HK. unfold pending. pose proof HL as (HS & -> & H).
  apply length_filter_mono. intros K' _. by eapply unfinalized_frame.
Qed.

Lemma pending_frame_lt K L L' :
  frame K L L' → unfinalized K L = true → unfinalized K L' = false →
  (pending L' < pending L)%nat.
Proof.
  intros HL HK HK'. unfold pending. pose proof HL as (HS & -> & H).
  apply (length_filter_lt _ _ _ K).
  - intros K' _. by eapply unfinalized_frame.
  - unfold unfinalized in HK.
    destruct (StdMap.find K (LinkedObjects L)) as [m|] eqn:Hm; [|done].
    by eapply find_Some_keys.
  - done.
  - by rewrite HK'.
Qed.

Lemma pending_pos K L : unfinalized K L = true → (0 < pending L)%nat.
Proof.
  intros HK. unfold pending.
  assert (K ∈ filter (λ K, unfinalized K L = true) (StdMap.keys (LinkedObjects L))) as Hin.
  { apply list_elem_of_filter. split; [done|]. unfold unfinalized in HK.
    destruct (StdMap.find K (LinkedObjects L)) as [m|] eqn:Hm; [|done].
    by eapply find_Some_keys. }
  destruct (filter _ _); [by apply elem_of_nil in Hin|simpl; lia].
Qed.

Lemma pending_le_length L : (pending L ≤ length (LinkedObjects L))%nat.
Proof.
  unfold pending, StdMap.keys. etrans; [apply length_filter|]. by rewrite length_fmap.
Qed.

(** ** What [finalize] leaves behind *)

Lemma copied_union (SymTab T : gmap string JITEvaluatedSymbol) :
  copied SymTab T = SymTab ∪ T.
Proof.
  unfold copied. induction SymTab as [|Name Sym SymTab Hnone Hfold IH] using map_first_key_ind.
  - by rewrite map_fold_empty, (left_id_L ∅ (∪)).
  - rewrite map_fold_insert_first_key by done.
    by rewrite IH, insert_union_l.
Qed.

Lemma copied_lookup (SymTab T : gmap string JITEvaluatedSymbol) Name :
  copied SymTab T !! Name
  = match SymTab !! Name with Some Sym => Some Sym | None => T !! Name end.
Proof.
  rewrite copied_union. destruct (SymTab !! Name) as [Sym|] eqn:H.
  - by apply lookup_union_Some_l.
  - by rewrite lookup_union_r.
Qed.

Lemma copy_symbol_table_copied SymTab this :
  SymbolTable (copy_symbol_table SymTab this) = copied SymTab (SymbolTable this).
Proof. reflexivity. Qed.

Section LayerFacts.

Variable createObjectFile : MemoryBuffer → Expected ObjectFile.
Variable Dyld : VModuleKey → ObjectFile → DyldRun.

(** [finalize], whatever the closures do within lazy steps. *)
Lemma finalize_body_outcome call K L :
  (∀ F, steps lazy_step (call F)) →
  match finalize_body Dyld call K L with
  | Returned r L' =>
      ∃ this P SymTab Err,
        StdMap.find K (LinkedObjects L) = Some this ∧ PFC this = Some P ∧
        r = match Err with Some msg => Failure msg | None => Value () end ∧
        frame K L L' ∧
        StdMap.find K (LinkedObjects L')
        = Some (after_finalize this P SymTab Err (NotifyFreed L)) ∧
        loader_ran Dyld call K this P SymTab Err
  | Aborted _ => True
  | OutOfFuel =>
      ∃ F L' this', frame K L L' ∧
        StdMap.find K (LinkedObjects L') = Some this' ∧ Finalized this' = true ∧
        call F L' = OutOfFuel
  end.
Proof.
  intros Hcall. unfold finalize_body.
  rewrite bind_run, get_this_run.
  destruct (StdMap.find K (LinkedObjects L)) as [this|] eqn:Hthis; [|done].
  rewrite bind_run. destruct (PFC this) as [P|] eqn:HP; simpl; [|done].
  rewrite bind_run, deref_PFC_run, Hthis, HP.
  rewrite bind_run, update_this_run. rewrite bind_run, update_this_run.
  simpl LinkedObjects.
  destruct this as [T F O pfc]; simpl in HP; subst pfc.
  rewrite bind_run.
  match goal with |- context [run_script call ?p ?L1] => set (L1' := L1) end.
  assert (H1 : StdMap.find K (LinkedObjects L1') = Some
     {| SymbolTable := T; Finalized := true; ObjForNotify := O;
        PFC := Some {| Obj := Obj P;
                       pfc_ProcessAllSections := pfc_ProcessAllSections P;
                       RTDyld := Some {| rt_ProcessAllSections := pfc_ProcessAllSections P;
                                         getSymbolTable := ∅;
                                         getErrorString := None |} |} |}).
  { subst L1'. simpl. by rewrite !StdMapFacts.find_alter_eq, Hthis. }
  assert (F1 : frame K L L1').
  { subst L1'. etrans; [apply frame_update_this|].
    match goal with |- frame _ ?X _ => apply (frame_update_this K set_Finalized X) end. }
  pose proof (run_script_outcome call (loadObject (Dyld K (Obj P))) L1' Hcall) as Hload.
  destruct (run_script call _ L1') as [SymTab L2| |] eqn:Eload; [|done|].
  2:{ destruct Hload as (F' & L' & HL' & Hout). exists F', L'. eexists.
      split_and!; [|by eapply lazy_step_finalized|done|done].
      etrans; [exact F1|by apply lazy_step_frame]. }
  pose proof (lazy_step_finalized _ _ _ _ Hload H1 eq_refl) as H2.
  rewrite bind_run, deref_RTDyld_run, H2. simpl.
  rewrite bind_run, update_this_run. rewrite bind_run, update_this_run.
  rewrite bind_run. unfold notify at 1, modify at 1.
  rewrite bind_run.
  match goal with |- context [run_script call ?p ?L1] => set (L3 := L1) end.
  assert (H3 : StdMap.find K (LinkedObjects L3) = Some
     {| SymbolTable := copied SymTab T; Finalized := true; ObjForNotify := O;
        PFC := Some {| Obj := Obj P;
                       pfc_ProcessAllSections := pfc_ProcessAllSections P;
                       RTDyld := Some {| rt_ProcessAllSections := pfc_ProcessAllSections P;
                                         getSymbolTable := SymTab;
                                         getErrorString := None |} |} |}).
  { subst L3. destruct (NotifyLoaded _); simpl;
      by rewrite !StdMapFacts.find_alter_eq, H2. }
  assert (F3 : frame K L L3).
  { etrans; [exact F1|]. etrans; [by apply lazy_step_frame|].
    subst L3. etrans; [apply frame_update_this|]. etrans;
    [match goal with |- frame _ ?X _ =>
       apply (frame_update_this K (copy_symbol_table SymTab) X) end|].
    apply frame_notify. }
  pose proof (run_script_outcome call
    (finalizeWithMemoryManagerLocking (Dyld K (Obj P))) L3 Hcall) as Hlink.
  destruct (run_script call _ L3) as [Err L4| |] eqn:Elink; [|done|].
  2:{ destruct Hlink as (F' & L' & HL' & Hout). exists F', L'. eexists.
      split_and!; [|by eapply lazy_step_finalized|done|done].
      etrans; [exact F3|by apply lazy_step_frame]. }
  pose proof (lazy_step_finalized _ _ _ _ Hlink H3 eq_refl) as H4.
  rewrite bind_run, deref_RTDyld_run, H4. simpl.
  rewrite bind_run, update_this_run.
  assert (F5 : frame K L L4).
  { etrans; [exact F3|]. by apply lazy_step_frame. }
  assert (HS : NotifyFreed L4 = NotifyFreed L) by apply F5.
  destruct Err as [msg|].
  - simpl.
    exists {| SymbolTable := T; Finalized := F; ObjForNotify := O; PFC := Some P |},
      P, SymTab, (Some msg).
    split_and!; [done|done|done| | |].
    + etrans; [exact F5|]. apply frame_update_this.
    + simpl. by rewrite StdMapFacts.find_alter_eq, H4.
    + exists L1', L2, L3, L4. eexists _, _.
      split_and!; [exact Eload|exact H1|done|done|exact Elink|exact H3|done|done].
  - rewrite bind_run. unfold notify at 1, modify at 1.
    rewrite bind_run, deref_PFC_run.
    match goal with |- context [StdMap.find K (LinkedObjects ?X)] => set (L5 := X) end.
    assert (H5 : StdMap.find K (LinkedObjects L5) = Some
     {| SymbolTable := copied SymTab T; Finalized := true; ObjForNotify := O;
        PFC := Some {| Obj := Obj P;
                       pfc_ProcessAllSections := pfc_ProcessAllSections P;
                       RTDyld := Some {| rt_ProcessAllSections := pfc_ProcessAllSections P;
                                         getSymbolTable := SymTab;
                                         getErrorString := None |} |} |}).
    { subst L5. destruct (NotifyFinalized _); simpl;
        by rewrite !StdMapFacts.find_alter_eq, H4. }
    assert (F6 : frame K L4 L5).
    { subst L5. etrans; [apply frame_update_this|]. apply frame_notify. }
    rewrite H5. simpl.
    exists {| SymbolTable := T; Finalized := F; ObjForNotify := O; PFC := Some P |},
      P, SymTab, None.
    split_and!; [done|done|done| | |].
    + etrans; [exact F5|]. etrans; [exact F6|]. apply frame_update_this.
    + simpl. rewrite StdMapFacts.find_alter_eq, H5. simpl.
      assert (NotifyFreed L5 = NotifyFreed L) as ->; [|done].
      etrans; [apply F6|done].
    + exists L1', L2, L3, L4. eexists _, _.
      split_and!; [exact Eload|exact H1|done|done|exact Elink|exact H3|done|done].
Qed.

Lemma finalize_body_spec call K L r L' :
  (∀ F, steps lazy_step (call F)) →
  finalize_body Dyld call K L = Returned r L' →
  ∃ this P SymTab Err,
    StdMap.find K (LinkedObjects L) = Some this ∧ PFC this = Some P ∧
    r = match Err with Some msg => Failure msg | None => Value () end ∧
    frame K L L' ∧
    StdMap.find K (LinkedObjects L')
    = Some (after_finalize this P SymTab Err (NotifyFreed L)) ∧
    loader_ran Dyld call K this P SymTab Err.
Proof.
  intros Hcall Hrun. pose proof (finalize_body_outcome call K L Hcall) as H.
  by rewrite Hrun in H.
Qed.

(** The closure of a finalized module does not call [finalize]. *)
Lemma call_body_finalized fin call F L this :
  StdMap.find (ftor_this F) (LinkedObjects L) = Some this →
  Finalized this = true →
  call_body fin call F L
  = Returned (Value (match SymbolTable this !! ftor_Name F with
                     | Some E => getAddress E
                     | None => 0
                     end)) L.
Proof.
  intros Hthis Hfin. unfold call_body.
  rewrite bind_run, get_this_run, Hthis, Hfin. simpl.
  rewrite bind_run. simpl. rewrite bind_run, get_this_run, Hthis.
  unfold getSymbol. destruct (SymbolTable this !! ftor_Name F) as [E|]; [|done].
  rewrite andb_false_r, Hfin. done.
Qed.

Lemma call_body_lazy fin call F :
  (∀ K L this r L', StdMap.find K (LinkedObjects L) = Some this →
     Finalized this = false → fin K L = Returned r L' → lazy_step L L') →
  (∀ F', steps lazy_step (call F')) →
  steps lazy_step (call_body fin call F).
Proof.
  intros Hfin Hcall L a L'. unfold call_body.
  rewrite bind_run, get_this_run.
  destruct (StdMap.find _ _) as [this|] eqn:Hthis; [|done].
  rewrite bind_run. destruct (Finalized this) eqn:HF; simpl.
  - rewrite bind_run, get_this_run, Hthis.
    apply (steps_JITSymbol_getAddress lazy_step), Hcall.
  - destruct (fin _ L) as [[[]|Err] L1| |] eqn:Hrun; [| |done|done].
    + rewrite bind_run, get_this_run.
      destruct (StdMap.find _ (LinkedObjects L1)) as [this'|]; [|done].
      intros H. etrans; [by eapply Hfin|].
      revert H. apply (steps_JITSymbol_getAddress lazy_step), Hcall.
    + intros [= <- <-]. by eapply Hfin.
Qed.

(** Whatever the loader scripts do, a closure call finalizes modules that
    were not finalized and changes nothing else. *)
Lemma call_ftor_lazy fuel :
  (∀ F, steps lazy_step (call_ftor Dyld fuel F)) ∧
  (∀ K L this r L', StdMap.find K (LinkedObjects L) = Some this →
     Finalized this = false → finalize Dyld fuel K L = Returned r L' →
     lazy_step L L').
Proof.
  induction fuel as [|fuel [IHcall IHfin]].
  { split; [by intros F L a L'|by intros K L this r L' ? ?]. }
  split.
  - intros F. simpl. by apply call_body_lazy.
  - intros K L this r L' Hthis Hun. simpl. intros Hrun.
    apply finalize_body_spec in Hrun as (this0 & P & SymTab & Err & H0 & HP & _ & Hframe & Hafter & _);
      [|done].
    eapply (frame_lazy_step K this); [exact Hframe|exact Hthis|exact Hun|exact Hafter|by destruct Err].
Qed.

(** [finalize]: the module under [K] held resources, every other module
    is as a closure call may leave it, and the module under [K] is as
    [after_finalize] says. *)
Lemma finalize_spec fuel K L r L' :
  finalize Dyld fuel K L = Returned r L' →
  ∃ this P SymTab Err,
    StdMap.find K (LinkedObjects L) = Some this ∧ PFC this = Some P ∧
    r = match Err with Some msg => Failure msg | None => Value () end ∧
    frame K L L' ∧
    StdMap.find K (LinkedObjects L')
    = Some (after_finalize this P SymTab Err (NotifyFreed L)) ∧
    loader_ran Dyld (call_ftor Dyld (pred fuel)) K this P SymTab Err.
Proof.
  destruct fuel as [|fuel]; [done|]. simpl.
  apply finalize_body_spec. apply call_ftor_lazy.
Qed.

(** ** More fuel *)

Lemma extends_refl {A} (m : M A) : extends m m.
Proof. by intros L _. Qed.

Lemma extends_bind {A B} (m m' : M A) (f g : A → M B) :
  extends m m' → (∀ a, extends (f a) (g a)) → extends (m ≫= f) (m' ≫= g).
Proof.
  intros Hm Hf L. rewrite !bind_run. intros Hrun.
  rewrite Hm by (by destruct (m L)).
  destruct (m L) as [a L'| |]; [by apply Hf|done|done].
Qed.

Lemma extends_JITSymbol_getAddress call call' Sym :
  (∀ F, extends (call F) (call' F)) →
  extends (JITSymbol_getAddress call Sym) (JITSymbol_getAddress call' Sym).
Proof.
  intros Hcall. destruct Sym as [|Err|E|F Flags]; simpl; try apply extends_refl.
  apply extends_bind; [apply Hcall|]. intros r. apply extends_refl.
Qed.

Lemma extends_run_script {R} call call' (p : Script R) :
  (∀ F, extends (call F) (call' F)) →
  extends (run_script call p) (run_script call' p).
Proof.
  intros Hcall. induction p as [r|Name Exp k IH|Sym k IH]; simpl.
  - apply extends_refl.
  - apply extends_bind; [apply extends_refl|]. intros L. apply IH.
  - apply extends_bind; [by apply extends_JITSymbol_getAddress|]. intros a. apply IH.
Qed.

Lemma extends_finalize_body call call' K :
  (∀ F, extends (call F) (call' F)) →
  extends (finalize_body Dyld call K) (finalize_body Dyld call' K).
Proof.
  intros Hcall. unfold finalize_body.
  repeat first
    [ apply extends_run_script, Hcall
    | apply extends_bind; [|intros ?]
    | apply extends_refl ].
Qed.

Lemma extends_call_body fin fin' call call' F :
  (∀ K, extends (fin K) (fin' K)) → (∀ F', extends (call F') (call' F')) →
  extends (call_body fin call F) (call_body fin' call' F).
Proof.
  intros Hfin Hcall. unfold call_body.
  apply extends_bind; [apply extends_refl|]. intros this.
  apply extends_bind.
  - destruct (negb (Finalized this)); [apply Hfin|apply extends_refl].
  - intros [[]|Err]; [|apply extends_refl].
    apply extends_bind; [apply extends_refl|]. intros this'.
    by apply extends_JITSymbol_getAddress.
Qed.

(** Fuel only decides whether a run is cut short, never what it returns. *)
Lemma more_fuel fuel :
  (∀ K, extends (finalize Dyld fuel K) (finalize Dyld (S fuel) K)) ∧
  (∀ F, extends (call_ftor Dyld fuel F) (call_ftor Dyld (S fuel) F)).
Proof.
  induction fuel as [|fuel [IHfin IHcall]].
  { split; by intros ? L HL. }
  split.
  - intros K. change (extends (finalize_body Dyld (call_ftor Dyld fuel) K)
                              (finalize_body Dyld (call_ftor Dyld (S fuel)) K)).
    by apply extends_finalize_body.
  - intros F. change (extends
      (call_body (finalize Dyld fuel) (call_ftor Dyld fuel) F)
      (call_body (finalize Dyld (S fuel)) (call_ftor Dyld (S fuel)) F)).
    by apply extends_call_body.
Qed.

(** ** Enough fuel *)

(** [finalize] and the closures return, or stop on an assertion, once the
    fuel exceeds twice the number of modules still to be finalized. *)
Lemma enough_fuel fuel :
  (∀ F L, (2 * pending L < fuel)%nat → call_ftor Dyld fuel F L ≠ OutOfFuel) ∧
  (∀ K L,
     (2 * pending L + 1 < fuel)%nat ∨
     (unfinalized K L = true ∧ (2 * pending L ≤ fuel)%nat) →
     finalize Dyld fuel K L ≠ OutOfFuel).
Proof.
  induction fuel as [|fuel [IHcall IHfin]].
  { split; [intros F L ?; lia|]. intros K L [?|[HK ?]]; [lia|].
    apply pending_pos in HK. lia. }
  split.
  - intros F L Hb. simpl.
    destruct (StdMap.find (ftor_this F) (LinkedObjects L)) as [this|] eqn:Hthis.
    2:{ unfold call_body. by rewrite bind_run, get_this_run, Hthis. }
    destruct (Finalized this) eqn:HF.
    { by erewrite call_body_finalized. }
    assert (unfinalized (ftor_this F) L = true) as HK.
    { unfold unfinalized. by rewrite Hthis, HF. }
    unfold call_body. rewrite bind_run, get_this_run, Hthis, HF. simpl.
    rewrite bind_run.
    destruct (finalize Dyld fuel (ftor_this F) L) as [r L1| |] eqn:Hrun; [|done|].
    + apply finalize_spec in Hrun
        as (this0 & P & SymTab & Err & _ & _ & -> & _ & Hafter & _).
      destruct Err as [msg|]; [done|].
      rewrite bind_run, get_this_run, Hafter. unfold getSymbol. simpl.
      destruct (copied SymTab (SymbolTable this0) !! ftor_Name F); [|done].
      by rewrite andb_false_r.
    + exfalso. revert Hrun. apply IHfin. right. split; [done|lia].
  - intros K L Hb. simpl.
    pose proof (finalize_body_outcome (call_ftor Dyld fuel) K L
                  (proj1 (call_ftor_lazy fuel))) as H.
    destruct (finalize_body Dyld (call_ftor Dyld fuel) K L); [done|done|].
    destruct H as (F & L' & this' & Hframe & Hfind & Hfin & Hout).
    exfalso. revert Hout. apply IHcall.
    assert (unfinalized K L' = false) as HK'.
    { unfold unfinalized. by rewrite Hfind, Hfin. }
    destruct Hb as [Hb|[HK Hb]].
    + pose proof (pending_frame _ _ _ Hframe HK'). lia.
    + pose proof (pending_frame_lt _ _ _ Hframe HK HK'). lia.
Qed.

(** ** Layers a client can reach *)

Lemma buildInitialSymbolTable_zero Syms :
  ∀ T T', (∀ Name E, T !! Name = Some E → getAddress E = 0) →
  buildInitialSymbolTable Syms T = Some T' →
  ∀ Name E, T' !! Name = Some E → getAddress E = 0.
Proof.
  induction Syms as [|Symbol Syms IH]; intros T T' HT; simpl.
  - by intros [= <-].
  - destruct (match sym_getFlags Symbol with
              | Value flags => negb (N.land flags SF_Undefined =? 0)
              | Failure _ => true
              end); [by apply IH|].
    destruct (sym_getName Symbol) as [SymbolName|]; [|done].
    destruct (fromObjectSymbol Symbol) as [Flags|]; [|done].
    apply IH. destruct (T !! SymbolName) eqn:Hin; [done|].
    intros Name E. rewrite lookup_insert. case_decide.
    + by intros [= <-].
    + apply HT.
Qed.

Lemma createLinkedObject_placeholder Object pas this :
  createLinkedObject Object pas = Some this →
  Finalized this = false ∧ placeholder this.
Proof.
  unfold createLinkedObject.
  destruct (buildInitialSymbolTable (symbols Object) ∅) as [T|] eqn:HT; [|done].
  intros [= <-]. split; [done|]. split; simpl; [|eauto].
  eapply buildInitialSymbolTable_zero; [|exact HT]. intros Name E.
  by rewrite lookup_empty.
Qed.

Lemma keys_find K (M : StdMap.t) : K ∈ StdMap.keys M → is_Some (StdMap.find K M).
Proof.
  unfold StdMap.keys. induction M as [|[k y] M IH]; csimpl.
  - intros H. by apply elem_of_nil in H.
  - intros H. destruct (N.eqb_spec k K) as [->|Hne]; [eauto|].
    apply elem_of_cons in H as [->|H]; [done|by apply IH].
Qed.

Lemma ascending_keys (M M' : StdMap.t) :
  StdMap.keys M' = StdMap.keys M → StdMap.ascending M → StdMap.ascending M'.
Proof.
  unfold StdMap.keys. revert M'.
  induction M as [|[k y] M IH]; intros [|[k' y'] M']; csimpl; try done.
  intros [= -> HM] [Hk Hasc]. split; [|by apply IH].
  apply Forall_forall. intros [k2 y2] Hin. simpl.
  assert (k2 ∈ M'.*1) as Hin' by (apply list_elem_of_fmap; by exists (k2, y2)).
  rewrite HM in Hin'. apply list_elem_of_fmap in Hin' as ([k3 y3] & -> & Hin3).
  rewrite Forall_forall in Hk. by apply (Hk (k3, y3)).
Qed.

Lemma well_formed_lazy_step L L' : lazy_step L L' → well_formed L → well_formed L'.
Proof.
  intros (_ & Hkeys & H) [Hasc Hmod]. split; [by eapply ascending_keys|].
  intros K this' Hthis' Hun.
  destruct (keys_find K (LinkedObjects L)) as [this Hthis].
  { rewrite <- Hkeys. by eapply find_Some_keys. }
  destruct (H _ _ Hthis) as (m' & Hm' & [->|[_ Hfin]]).
  - assert (this' = this) as -> by congruence. eauto.
  - congruence.
Qed.

Lemma well_formed_frame K this' L L' :
  frame K L L' →
  StdMap.find K (LinkedObjects L') = Some this' → Finalized this' = true →
  well_formed L → well_formed L'.
Proof.
  intros (_ & Hkeys & H) HK HKfin [Hasc Hmod]. split; [by eapply ascending_keys|].
  intros K' m' Hm' Hun. destruct (decide (K' = K)) as [->|Hne]; [congruence|].
  destruct (keys_find K' (LinkedObjects L)) as [m Hm].
  { rewrite <- Hkeys. by eapply find_Some_keys. }
  destruct (H _ _ Hne Hm) as (m'' & Hm'' & [->|[_ Hfin]]).
  - assert (m' = m) as -> by congruence. eauto.
  - congruence.
Qed.

Lemma addObject_Returned K ObjBuffer L r L' :
  addObject createObjectFile K ObjBuffer L = Returned r L' →
  (∃ Err, createObjectFile ObjBuffer = Failure Err ∧ r = Failure Err ∧ L' = L) ∨
  (∃ Object this,
     createObjectFile ObjBuffer = Value Object ∧
     StdMap.find K (LinkedObjects L) = None ∧
     createLinkedObject Object (ProcessAllSections L) = Some this ∧
     r = Value () ∧
     L' = set_LinkedObjects (StdMap.assign K this (LinkedObjects L)) L).
Proof.
  unfold addObject. destruct (createObjectFile ObjBuffer) as [Object|Err].
  - rewrite bind_run. simpl. rewrite bind_run. unfold assert.
    destruct (StdMap.count K (LinkedObjects L)) eqn:Hcount; simpl; [done|].
    apply StdMapFacts.count_false in Hcount.
    destruct (createLinkedObject Object (ProcessAllSections L)) as [this|] eqn:Hnew;
      [|done].
    rewrite bind_run. simpl. intros [= <- <-]. right. by exists Object, this.
  - intros [= <- <-]. left. by exists Err.
Qed.

Lemma removeObject_run K L :
  removeObject K L
  = match StdMap.find K (LinkedObjects L) with
    | Some this =>
        Returned (Value ())
          (let L1 := if NotifyFreed L
                     then push_notified (Freed K (ObjForNotify this)) L else L in
           set_LinkedObjects (StdMap.erase K (LinkedObjects L1)) L1)
    | None => Aborted "VModuleKey not associated with object"
    end.
Proof.
  unfold removeObject. rewrite bind_run. simpl. rewrite bind_run.
  unfold StdMap.count. destruct (StdMap.find K (LinkedObjects L)) as [this|] eqn:Hthis;
    simpl; [|done].
  rewrite bind_run, get_this_run, Hthis. rewrite bind_run. unfold notify, modify.
  rewrite bind_run. by destruct (NotifyFreed L).
Qed.

Lemma findSymbolIn_run K Name Exp L :
  findSymbolIn K Name Exp L
  = match StdMap.find K (LinkedObjects L) with
    | Some this => Returned (getSymbol K this Name Exp) L
    | None => Aborted "VModuleKey not associated with object"
    end.
Proof.
  unfold findSymbolIn. rewrite bind_run. simpl. rewrite bind_run.
  unfold StdMap.count. destruct (StdMap.find K (LinkedObjects L)) as [this|] eqn:Hthis;
    simpl; [|done].
  by rewrite bind_run, get_this_run, Hthis.
Qed.

Lemma emitAndFinalize_run fuel K L :
  emitAndFinalize Dyld fuel K L
  = match StdMap.find K (LinkedObjects L) with
    | Some _ => finalize Dyld fuel K L
    | None => Aborted "VModuleKey not associated with object"
    end.
Proof.
  unfold emitAndFinalize. rewrite bind_run. simpl. rewrite bind_run.
  unfold StdMap.count. by destruct (StdMap.find K (LinkedObjects L)).
Qed.

Lemma client_step_well_formed L L' :
  client_step createObjectFile Dyld L L' → well_formed L → well_formed L'.
Proof.
  intros Hstep Hwf. destruct Hstep as [K buf r L' Hrun|K r L' Hrun|fuel K r L' Hrun
                                      |fuel F r L' Hrun|b].
  - apply addObject_Returned in Hrun
      as [(Err & _ & _ & ->)|(Object & this & _ & Hnone & Hnew & _ & ->)]; [done|].
    destruct Hwf as [Hasc Hmod]. split; simpl.
    + by apply StdMapFacts.ascending_assign.
    + intros K' m. destruct (decide (K' = K)) as [->|Hne].
      * rewrite StdMapFacts.find_assign_eq. intros [= <-] _.
        by eapply createLinkedObject_placeholder.
      * rewrite StdMapFacts.find_assign_ne by done. apply Hmod.
  - rewrite removeObject_run in Hrun.
    destruct (StdMap.find K (LinkedObjects L)) as [this|]; [|done].
    injection Hrun as _ <-. destruct Hwf as [Hasc Hmod].
    assert (∀ L1, LinkedObjects L1 = LinkedObjects L →
              well_formed (set_LinkedObjects (StdMap.erase K (LinkedObjects L1)) L1))
      as Hgoal.
    { intros L1 ->. split; simpl.
      - by apply StdMapFacts.ascending_erase.
      - intros K' m. destruct (decide (K' = K)) as [->|Hne].
        + by rewrite StdMapFacts.find_erase_eq.
        + rewrite StdMapFacts.find_erase_ne by done. apply Hmod. }
    apply Hgoal. by destruct (NotifyFreed L).
  - rewrite emitAndFinalize_run in Hrun.
    destruct (StdMap.find K (LinkedObjects L)); [|done].
    apply finalize_spec in Hrun
      as (this0 & P & SymTab & Err & _ & _ & _ & Hframe & Hafter & _).
    eapply well_formed_frame; [exact Hframe|exact Hafter| |done]. by destruct Err.
  - apply (proj1 (call_ftor_lazy fuel)) in Hrun. by eapply well_formed_lazy_step.
  - done.
Qed.

Lemma reachable_well_formed L : reachable createObjectFile Dyld L → well_formed L.
Proof.
  induction 1 as [| L L' _ IH Hstep].
  - split; [done|]. by intros K this.
  - by eapply client_step_well_formed.
Qed.

(** ** Lookup across modules *)

Lemma getSymbol_takeError K this Name Exp :
  takeError (getSymbol K this Name Exp) = None.
Proof.
  unfold getSymbol. destruct (SymbolTable this !! Name) as [E|]; [|done].
  destruct (negb (isExported (getFlags E)) && Exp); [done|].
  by destruct (negb (Finalized this)).
Qed.

(** When a module provides a name: the name is in its table, passes the
    filter on exported symbols, and the module is either not finalized (the
    symbol is lazy) or holds an address other than 0 for it. *)
Lemma getSymbol_usable K this Name Exp :
  JITSymbol_bool (getSymbol K this Name Exp) = true ↔
  ∃ E, SymbolTable this !! Name = Some E ∧
       (isExported (getFlags E) = true ∨ Exp = false) ∧
       (Finalized this = false ∨ getAddress E ≠ 0).
Proof.
  unfold getSymbol. destruct (SymbolTable this !! Name) as [E|]; simpl.
  2:{ split; [done|]. by intros (E & ? & _). }
  destruct (isExported (getFlags E)) eqn:Hexp, Exp; simpl.
  - destruct (Finalized this) eqn:Hfin; simpl.
    + split.
      * intros H. exists E. split_and!; eauto. right.
        destruct (N.eqb_spec (getAddress E) 0); [done|done].
      * intros (E' & [= <-] & _ & [?|Ha]); [done|].
        by destruct (N.eqb_spec (getAddress E) 0).
    + split; [|done]. intros _. exists E. eauto.
  - destruct (Finalized this) eqn:Hfin; simpl.
    + split.
      * intros H. exists E. split_and!; eauto. right.
        destruct (N.eqb_spec (getAddress E) 0); [done|done].
      * intros (E' & [= <-] & _ & [?|Ha]); [done|].
        by destruct (N.eqb_spec (getAddress E) 0).
    + split; [|done]. intros _. exists E. eauto.
  - split; [done|]. intros (E' & [= <-] & [?|?] & _); congruence.
  - destruct (Finalized this) eqn:Hfin; simpl.
    + split.
      * intros H. exists E. split_and!; eauto. right.
        destruct (N.eqb_spec (getAddress E) 0); [done|done].
      * intros (E' & [= <-] & _ & [?|Ha]); [done|].
        by destruct (N.eqb_spec (getAddress E) 0).
    + split; [|done]. intros _. exists E. eauto.
Qed.

(** [findSymbol] over an ascending map: nothing, or the symbol of the
    module with the least key among those that provide the name. *)
Lemma findSymbol_in_spec (M : StdMap.t) Name Exp :
  StdMap.ascending M →
  (findSymbol_in M Name Exp = JITSymbol_null ∧
   ∀ K this, StdMap.find K M = Some this →
             JITSymbol_bool (getSymbol K this Name Exp) = false) ∨
  (∃ K this, StdMap.find K M = Some this ∧
     findSymbol_in M Name Exp = getSymbol K this Name Exp ∧
     JITSymbol_bool (getSymbol K this Name Exp) = true ∧
     ∀ K' this', K' < K → StdMap.find K' M = Some this' →
                 JITSymbol_bool (getSymbol K' this' Name Exp) = false).
Proof.
  induction M as [|[k this] M IH]; simpl.
  { intros _. left. split; [done|]. by intros K this. }
  intros [Hk Hasc].
  assert (∀ K x, StdMap.find K M = Some x → k < K) as Hlt.
  { intros K x Hx. apply StdMapFacts.find_Some_elem in Hx.
    rewrite Forall_forall in Hk. apply (Hk _ Hx). }
  destruct (JITSymbol_bool (getSymbol k this Name Exp)) eqn:Hb.
  - right. exists k, this. rewrite N.eqb_refl. split_and!; [done|done|done|].
    intros K' this' HK'. destruct (N.eqb_spec k K'); [lia|].
    intros Hx. apply Hlt in Hx. lia.
  - rewrite getSymbol_takeError.
    destruct (IH Hasc) as [[Hnull Hall]|(K & x & Hx & Hfound & Hbx & Hleast)].
    + left. split; [done|]. intros K x.
      destruct (N.eqb_spec k K) as [->|Hne]; [by intros [= <-]|apply Hall].
    + right. exists K, x. pose proof (Hlt _ _ Hx).
      destruct (N.eqb_spec k K); [lia|]. split_and!; [done|done|done|].
      intros K' this' HK'.
      destruct (N.eqb_spec k K') as [->|Hne]; [by intros [= <-]|by apply Hleast].
Qed.

(** ** Closure calls made while [finalize] runs *)



Lemma bind_ext {A B} (m m' : M A) (f g : A → M B) L :
  m L = m' L → (∀ a L', m L = Returned a L' → f a L' = g a L') →
  (m ≫= f) L = (m' ≫= g) L.
Proof.
  intros Hm Hf. rewrite !bind_run, <- Hm.
  destruct (m L) as [a L'| |]; [by apply Hf|done|done].
Qed.



(** * The claims *)





(** C8: in every layer a client can reach the keys of the live modules are
    pairwise distinct, and adding an object under a key that is live never
    succeeds: the buffer is rejected as an object file, or the call stops on
    the assertion that the key is already in use. *)
Theorem C8_live_key_is_not_reused K ObjBuffer L this :
  reachable createObjectFile Dyld L →
  StdMap.find K (LinkedObjects L) = Some this →
  NoDup (StdMap.keys (LinkedObjects L)) ∧
  ((∃ Err, createObjectFile ObjBuffer = Failure Err ∧
           addObject createObjectFile K ObjBuffer L = Returned (Failure Err) L) ∨
   addObject createObjectFile K ObjBuffer L = Aborted "VModuleKey already in use").
Proof.
  intros Hreach Hthis. split.
  - apply StdMapFacts.ascending_NoDup. by apply reachable_well_formed.
  - unfold addObject. destruct (createObjectFile ObjBuffer) as [Object|Err].
    + right. rewrite bind_run. simpl. rewrite bind_run.
      unfold StdMap.count. by rewrite Hthis.
    + left. by exists Err.
Qed.

(** C10, as the code has it: in a layer a client can reach, [findSymbol]
    never answers an error; it answers the null symbol when no live module
    provides the name, and otherwise the symbol of the live module with the
    least key among those that provide it.  A module provides a name when
    the name is in its table and passes the filter on exported symbols, and
    the module is not finalized or holds an address other than 0 for it: an
    entry of a finalized module at address 0 is passed over. *)
Theorem C10_findSymbol_least_provider L Name Exp :
  reachable createObjectFile Dyld L →
  ((findSymbol L Name Exp = JITSymbol_null ∧
    ∀ K this, StdMap.find K (LinkedObjects L) = Some this →
              JITSymbol_bool (getSymbol K this Name Exp) = false) ∨
   (∃ K this, StdMap.find K (LinkedObjects L) = Some this ∧
      findSymbol L Name Exp = getSymbol K this Name Exp ∧
      JITSymbol_bool (getSymbol K this Name Exp) = true ∧
      ∀ K' this', K' < K → StdMap.find K' (LinkedObjects L) = Some this' →
                  JITSymbol_bool (getSymbol K' this' Name Exp) = false)) ∧
  takeError (findSymbol L Name Exp) = None ∧
  ∀ K this,
    JITSymbol_bool (getSymbol K this Name Exp) = true ↔
    ∃ E, SymbolTable this !! Name = Some E ∧
         (isExported (getFlags E) = true ∨ Exp = false) ∧
         (Finalized this = false ∨ getAddress E ≠ 0).
Proof.
  intros Hreach. apply reachable_well_formed in Hreach as [Hasc _].
  pose proof (findSymbol_in_spec (LinkedObjects L) Name Exp Hasc) as Hspec.
  split_and!.
  - exact Hspec.
  - unfold findSymbol.
    destruct Hspec as [[-> _]|(K & this & _ & -> & _)]; [done|].
    apply getSymbol_takeError.
  - intros K this. apply getSymbol_usable.
Qed.

(** C1, as the code has it: [addObject] does not look at symbol names.
    Adding, under a free key, an object that defines a name which a
    finalized live module already exports succeeds, and both modules are
    live afterwards.  The symbol of the first module is still found by
    [findSymbolIn] on its key, and by [findSymbol] when it has an address
    other than 0 and no live module with a smaller key provides the name. *)
Theorem C1_second_definition_is_accepted K1 K2 ObjBuffer Object new this1 Name E L :
  reachable createObjectFile Dyld L →
  StdMap.find K1 (LinkedObjects L) = Some this1 →
  Finalized this1 = true →
  SymbolTable this1 !! Name = Some E →
  isExported (getFlags E) = true →
  StdMap.find K2 (LinkedObjects L) = None →
  createObjectFile ObjBuffer = Value Object →
  createLinkedObject Object (ProcessAllSections L) = Some new →
  is_Some (SymbolTable new !! Name) →
  ∃ L',
    addObject createObjectFile K2 ObjBuffer L = Returned (Value ()) L' ∧
    StdMap.find K1 (LinkedObjects L') = Some this1 ∧
    StdMap.find K2 (LinkedObjects L') = Some new ∧
    findSymbolIn K1 Name true L' = Returned (JITSymbol_evaluated E) L' ∧
    (getAddress E ≠ 0 →
     (∀ K this, K < K1 → StdMap.find K (LinkedObjects L') = Some this →
                JITSymbol_bool (getSymbol K this Name true) = false) →
     findSymbol L' Name true = JITSymbol_evaluated E).
Proof.
  intros Hreach H1 Hfin HE Hexp H2 Hparse Hnew Hdef.
  assert (K1 ≠ K2) as Hne by congruence.
  set (L' := set_LinkedObjects (StdMap.assign K2 new (LinkedObjects L)) L).
  assert (addObject createObjectFile K2 ObjBuffer L = Returned (Value ()) L') as Hadd.
  { unfold addObject. rewrite Hparse, bind_run. simpl. rewrite bind_run.
    unfold StdMap.count. rewrite H2. simpl. by rewrite Hnew. }
  assert (StdMap.find K1 (LinkedObjects L') = Some this1) as H1'.
  { simpl. by rewrite StdMapFacts.find_assign_ne. }
  assert (getSymbol K1 this1 Name true = JITSymbol_evaluated E) as Hsym.
  { unfold getSymbol. by rewrite HE, Hexp, Hfin. }
  exists L'. split_and!; [done|done| | |].
  - simpl. by rewrite StdMapFacts.find_assign_eq.
  - by rewrite findSymbolIn_run, H1', Hsym.
  - intros Haddr Hbelow.
    assert (reachable createObjectFile Dyld L') as Hreach'.
    { eapply reachable_step; [exact Hreach|]. eapply step_addObject, Hadd. }
    apply reachable_well_formed in Hreach' as [Hasc _].
    assert (JITSymbol_bool (getSymbol K1 this1 Name true) = true) as Hb.
    { rewrite Hsym. simpl. by destruct (N.eqb_spec (getAddress E) 0). }
    destruct (findSymbol_in_spec (LinkedObjects L') Name true Hasc)
      as [[_ Hall]|(K & this & Hthis & Hfound & Hbool & Hleast)].
    + specialize (Hall _ _ H1'). congruence.
    + destruct (N.lt_trichotomy K K1) as [Hlt|[->|Hgt]].
      * specialize (Hbelow _ _ Hlt Hthis). congruence.
      * unfold findSymbol. rewrite Hfound.
        assert (this = this1) as -> by congruence. done.
      * specialize (Hleast _ _ Hgt H1'). congruence.
Qed.

(** C5, as the code has it: [removeObject] on a live key returns success
    and leaves no module under that key; every other module is as it was.
    A later [findSymbol] never answers from the removed module: it answers
    the null symbol unless some other live module provides the name, in
    which case it answers that module's symbol. *)
Theorem C5_unload_removes_the_module K L this :
  reachable createObjectFile Dyld L →
  StdMap.find K (LinkedObjects L) = Some this →
  ∃ L',
    removeObject K L = Returned (Value ()) L' ∧
    StdMap.find K (LinkedObjects L') = None ∧
    (∀ K', K' ≠ K →
       StdMap.find K' (LinkedObjects L') = StdMap.find K' (LinkedObjects L)) ∧
    ∀ Name Exp,
      (findSymbol L' Name Exp = JITSymbol_null ∧
       ∀ K' this', K' ≠ K → StdMap.find K' (LinkedObjects L) = Some this' →
                   JITSymbol_bool (getSymbol K' this' Name Exp) = false) ∨
      (∃ K' this', K' ≠ K ∧ StdMap.find K' (LinkedObjects L) = Some this' ∧
         findSymbol L' Name Exp = getSymbol K' this' Name Exp ∧
         JITSymbol_bool (getSymbol K' this' Name Exp) = true).
Proof.
  intros Hreach Hthis. pose proof (reachable_well_formed _ Hreach) as [Hasc _].
  rewrite removeObject_run, Hthis. eexists. split; [reflexivity|].
  set (L1 := if NotifyFreed L then _ else L).
  assert (LinkedObjects L1 = LinkedObjects L) as HL1 by (subst L1; by destruct (NotifyFreed L)).
  simpl. rewrite HL1.
  assert (∀ K', K' ≠ K →
            StdMap.find K' (StdMap.erase K (LinkedObjects L))
            = StdMap.find K' (LinkedObjects L)) as Hother.
  { intros K' Hne. by apply StdMapFacts.find_erase_ne. }
  split_and!.
  - by apply StdMapFacts.find_erase_eq.
  - exact Hother.
  - intros Name Exp. unfold findSymbol. simpl.
    destruct (findSymbol_in_spec (StdMap.erase K (LinkedObjects L)) Name Exp)
      as [[Hnull Hall]|(K' & this' & Hthis' & Hfound & Hbool & _)].
    + by apply StdMapFacts.ascending_erase.
    + left. split; [done|]. intros K' this' Hne Hthis'. apply Hall.
      by rewrite Hother.
    + right. exists K', this'.
      assert (K' ≠ K) as Hne.
      { intros ->. by rewrite StdMapFacts.find_erase_eq in Hthis'. }
      split_and!; [done| |done|done]. by rewrite <- Hother.
Qed.

(** C2, as the code has it: when the loader reports an error, [finalize]
    returns that error and undoes nothing.  The module stays live under its
    key, marked finalized, still holding its loader with the error; its
    table is the loader's table copied over the table it had; and a lookup
    of a name the loader reported yields the address the loader gave it. *)
Theorem C2_failed_finalize_is_not_undone fuel K L Err L' :
  finalize Dyld fuel K L = Returned (Failure Err) L' →
  ∃ this P SymTab this',
    StdMap.find K (LinkedObjects L) = Some this ∧
    PFC this = Some P ∧
    loader_ran Dyld (call_ftor Dyld (pred fuel)) K this P SymTab (Some Err) ∧
    StdMap.find K (LinkedObjects L') = Some this' ∧
    Finalized this' = true ∧
    PFC this'
    = Some {| Obj := Obj P;
              pfc_ProcessAllSections := pfc_ProcessAllSections P;
              RTDyld := Some {| rt_ProcessAllSections := pfc_ProcessAllSections P;
                                getSymbolTable := SymTab;
                                getErrorString := Some Err |} |} ∧
    SymbolTable this' = SymTab ∪ SymbolTable this ∧
    ∀ Name Sym, SymTab !! Name = Some Sym →
      getSymbol K this' Name false = JITSymbol_evaluated Sym ∧
      address_in L' K Name = getAddress Sym.
Proof.
  intros Hrun. apply finalize_spec in Hrun
    as (this & P & SymTab & Err' & Hthis & HP & Hr & _ & Hafter & Hran).
  destruct Err' as [msg|]; [|done]. injection Hr as ->.
  exists this, P, SymTab. eexists.
  split_and!; [done|done|done|exact Hafter|done|done|apply copied_union|].
  intros Name Sym HSym.
  assert (copied SymTab (SymbolTable this) !! Name = Some Sym) as Hlook.
  { by rewrite copied_lookup, HSym. }
  split.
  - unfold getSymbol. simpl. by rewrite Hlook, andb_false_r.
  - unfold address_in. rewrite Hafter. simpl. by rewrite Hlook.
Qed.

(** C3, as the code has it: in a layer a client can reach, a module that is
    not finalized has every symbol of its table at address 0 and a lookup
    that passes the filter on exported symbols yields a lazy symbol, not an
    address.  After a successful [finalize] the module is marked finalized
    and has released its loader; its table holds, for a name the loader
    reported, the loader's entry, and for any other name the entry it had,
    still at address 0; a lookup that passes the filter yields the entry of
    the table, never a lazy symbol. *)
Theorem C3_named_then_addressed K L this :
  reachable createObjectFile Dyld L →
  StdMap.find K (LinkedObjects L) = Some this →
  (Finalized this = false →
   ∀ Name E, SymbolTable this !! Name = Some E →
     getAddress E = 0 ∧
     ∀ Exp, isExported (getFlags E) = true ∨ Exp = false →
       getSymbol K this Name Exp
       = JITSymbol_lazy (getSymbolMaterializer K Name) (getFlags E)) ∧
  (∀ fuel L', finalize Dyld fuel K L = Returned (Value ()) L' →
   ∃ P SymTab this',
     PFC this = Some P ∧
     loader_ran Dyld (call_ftor Dyld (pred fuel)) K this P SymTab None ∧
     StdMap.find K (LinkedObjects L') = Some this' ∧
     Finalized this' = true ∧ PFC this' = None ∧
     (∀ Name, SymbolTable this' !! Name
              = match SymTab !! Name with
                | Some Sym => Some Sym
                | None => SymbolTable this !! Name
                end) ∧
     (Finalized this = false →
      ∀ Name E, SymTab !! Name = None → SymbolTable this' !! Name = Some E →
                getAddress E = 0) ∧
     ∀ Name E Exp, SymbolTable this' !! Name = Some E →
       isExported (getFlags E) = true ∨ Exp = false →
       getSymbol K this' Name Exp = JITSymbol_evaluated E).
Proof.
  intros Hreach Hthis. apply reachable_well_formed in Hreach as [_ Hmod]. split.
  - intros Hun Name E HE. destruct (Hmod _ _ Hthis Hun) as [Hzero _].
    split; [by eapply Hzero|]. intros Exp Hpass. unfold getSymbol.
    rewrite HE, Hun. simpl.
    destruct Hpass as [->| ->]; [done|by rewrite andb_false_r].
  - intros fuel L' Hrun. apply finalize_spec in Hrun
      as (this0 & P & SymTab & Err & H0 & HP & Hr & _ & Hafter & Hran).
    destruct Err as [msg|]; [done|].
    assert (this0 = this) as -> by congruence.
    exists P, SymTab. eexists.
    split_and!; [done|done|exact Hafter|done|done| | |].
    + intros Name. simpl. apply copied_lookup.
    + intros Hun Name E Hnone. simpl. rewrite copied_lookup, Hnone.
      destruct (Hmod _ _ Hthis Hun) as [Hzero _]. apply Hzero.
    + intros Name E Exp HE Hpass. unfold getSymbol. rewrite HE. simpl.
      destruct Hpass as [->| ->]; [done|by rewrite andb_false_r].
Qed.


End LayerFacts.

(** * The concrete setting, run *)

Local Open Scope string_scope.

Example ex_C1_finalized :
  emitAndFinalize ex_dyld 4 1 ex_C0 = Returned (Value ()) ex_C1.
Proof. vm_compute. reflexivity. Qed.

Example ex_CD1_resolves_through_C :
  emitAndFinalize ex_dyld 4 2 ex_CD0 = Returned (Value ()) ex_CD1 ∧
  address_in ex_CD1 2 "shared_sym" = 8208%N ∧
  findSymbol ex_CD1 "shared_sym" true = JITSymbol_evaluated (ex_at 4112 true).
Proof. vm_compute. done. Qed.

Lemma ex_reachable_add K ObjBuffer L :
  (∃ r, addObject ex_parse K ObjBuffer L = Returned r (ex_after (addObject ex_parse K ObjBuffer) L)) →
  reachable ex_parse ex_dyld L →
  reachable ex_parse ex_dyld (ex_after (addObject ex_parse K ObjBuffer) L).
Proof.
  intros [r Hrun] HL. eapply reachable_step; [exact HL|]. eapply step_addObject, Hrun.
Qed.

Lemma ex_reachable_finalize fuel K L :
  (∃ r, emitAndFinalize ex_dyld fuel K L
        = Returned r (ex_after (emitAndFinalize ex_dyld fuel K) L)) →
  reachable ex_parse ex_dyld L →
  reachable ex_parse ex_dyld (ex_after (emitAndFinalize ex_dyld fuel K) L).
Proof.
  intros [r Hrun] HL. eapply reachable_step; [exact HL|].
  eapply step_emitAndFinalize, Hrun.
Qed.

Lemma ex_reachable_remove K L :
  (∃ r, removeObject K L = Returned r (ex_after (removeObject K) L)) →
  reachable ex_parse ex_dyld L →
  reachable ex_parse ex_dyld (ex_after (removeObject K) L).
Proof.
  intros [r Hrun] HL. eapply reachable_step; [exact HL|]. eapply step_removeObject, Hrun.
Qed.

Ltac ex_reach :=
  repeat first
    [ apply reachable_new
    | apply ex_reachable_add; [eexists; vm_compute; reflexivity|]
    | apply ex_reachable_finalize; [eexists; vm_compute; reflexivity|]
    | apply ex_reachable_remove; [eexists; vm_compute; reflexivity|] ].

Lemma ex_C0_reachable : reachable ex_parse ex_dyld ex_C0.
Proof. unfold ex_C0. ex_reach. Qed.

Lemma ex_C1_reachable : reachable ex_parse ex_dyld ex_C1.
Proof. unfold ex_C1, ex_C0. ex_reach. Qed.

Lemma ex_EC1_reachable : reachable ex_parse ex_dyld ex_EC1.
Proof. unfold ex_EC1, ex_E1. ex_reach. Qed.

Lemma ex_WX1_reachable : reachable ex_parse ex_dyld ex_WX1.
Proof. unfold ex_WX1, ex_WX0. ex_reach. Qed.

(** Finalizing D while C is live but not finalized: the loader's lookup of
    [run_addonC] finalizes C on the way. *)
Example ex_lazy_finalization :
  let L := ex_after (addObject ex_parse 2 "D") ex_C0 in
  unfinalized 1 L = true ∧
  ∃ L', emitAndFinalize ex_dyld 4 2 L = Returned (Value ()) L' ∧
        unfinalized 1 L' = false ∧
        address_in L' 1 "run_addonC" = 4096%N ∧
        notified L' = [FinalizedNote 2; FinalizedNote 1; Loaded 1; Loaded 2].
Proof. vm_compute. split; [done|]. eexists. done. Qed.

(** ** The claims on the concrete setting *)




Lemma C8_witness :
  addObject ex_parse 1 "D" ex_C0 = Aborted "VModuleKey already in use".
Proof.
  destruct (C8_live_key_is_not_reused ex_parse ex_dyld 1 "D" ex_C0 (ex_module 1 ex_C0))
    as [_ [(Err & Hparse & _)|Habort]].
  - exact ex_C0_reachable.
  - vm_compute. reflexivity.
  - vm_compute in Hparse. discriminate Hparse.
  - exact Habort.
Defined.

Lemma C10_witness : takeError (findSymbol ex_WX1 "weak_sym" true) = None.
Proof.
  destruct (C10_findSymbol_least_provider ex_parse ex_dyld ex_WX1 "weak_sym" true)
    as (_ & Hnone & _).
  - exact ex_WX1_reachable.
  - exact Hnone.
Defined.

(** The module with the smaller key holds the exported name, at address 0
    after its finalization; the lookup passes it over and answers from the
    module with the larger key. *)
Lemma C10_counterexample :
  Finalized (ex_module 1 ex_WX1) = true ∧
  SymbolTable (ex_module 1 ex_WX1) !! "weak_sym" = Some {| getAddress := 0; getFlags := ex_flags true true |} ∧
  is_Some (SymbolTable (ex_module 2 ex_WX1) !! "weak_sym") ∧
  findSymbol ex_WX1 "weak_sym" true
  = JITSymbol_lazy (getSymbolMaterializer 2 "weak_sym") (ex_flags false true) ∧
  findSymbol ex_WX1 "weak_sym" true
  ≠ getSymbol 1 (ex_module 1 ex_WX1) "weak_sym" true.
Proof. vm_compute. split_and!; [done|done|by eexists|done|done]. Qed.

Lemma C1_witness :
  ∃ L', addObject ex_parse 2 "D" ex_C1 = Returned (Value ()) L' ∧
        findSymbol L' "shared_sym" true = JITSymbol_evaluated (ex_at 4112 true).
Proof.
  destruct (C1_second_definition_is_accepted ex_parse ex_dyld 1 2 "D" ex_objD
              (ex_module 2 ex_CD0) (ex_module 1 ex_C1) "shared_sym"
              (ex_at 4112 true) ex_C1)
    as (L' & Hadd & _ & _ & _ & Hfind).
  - exact ex_C1_reachable.
  - vm_compute. reflexivity.
  - vm_compute. reflexivity.
  - vm_compute. reflexivity.
  - vm_compute. reflexivity.
  - vm_compute. reflexivity.
  - vm_compute. reflexivity.
  - vm_compute. reflexivity.
  - vm_compute. by eexists.
  - exists L'. split; [exact Hadd|]. apply Hfind.
    + vm_compute. discriminate.
    + intros K this HK. assert (K = 0%N) as -> by lia.
      assert (L' = ex_CD0) as ->.
      { assert (addObject ex_parse 2 "D" ex_C1 = Returned (Value ()) ex_CD0) as H
          by (vm_compute; reflexivity).
        rewrite H in Hadd. by injection Hadd. }
      assert (StdMap.find 0 (LinkedObjects ex_CD0) = None) as Hnone
        by (vm_compute; reflexivity).
      by rewrite Hnone.
Defined.

(** Add-on D, which defines [shared_sym], is added and finalized while
    add-on C, which defines and has finalized [shared_sym], is live: both
    calls succeed and both modules stay live. *)
Lemma C1_counterexample :
  Finalized (ex_module 1 ex_C1) = true ∧
  SymbolTable (ex_module 1 ex_C1) !! "shared_sym" = Some (ex_at 4112 true) ∧
  addObject ex_parse 2 "D" ex_C1 = Returned (Value ()) ex_CD0 ∧
  emitAndFinalize ex_dyld 4 2 ex_CD0 = Returned (Value ()) ex_CD1 ∧
  StdMap.keys (LinkedObjects ex_CD1) = [1%N; 2%N] ∧
  SymbolTable (ex_module 1 ex_CD1) !! "shared_sym" = Some (ex_at 4112 true) ∧
  SymbolTable (ex_module 2 ex_CD1) !! "shared_sym" = Some (ex_at 8208 true).
Proof. vm_compute. done. Qed.

Lemma C5_witness :
  ∃ L', removeObject 1 ex_EC1 = Returned (Value ()) L' ∧
        StdMap.find 1 (LinkedObjects L') = None.
Proof.
  destruct (C5_unload_removes_the_module ex_parse ex_dyld 1 ex_EC1 (ex_module 1 ex_EC1))
    as (L' & Hrun & Hnone & _).
  - exact ex_EC1_reachable.
  - vm_compute. reflexivity.
  - by exists L'.
Defined.

(** C, finalized under key 1, is unloaded; [shared_sym] still resolves,
    to the module under key 2, which was added before C. *)
Lemma C5_counterexample :
  Finalized (ex_module 1 ex_EC1) = true ∧
  findSymbol ex_EC1 "shared_sym" true = JITSymbol_evaluated (ex_at 4112 true) ∧
  removeObject 1 ex_EC1 = Returned (Value ()) ex_EC2 ∧
  findSymbol ex_EC2 "shared_sym" true = JITSymbol_evaluated (ex_at 28688 true).
Proof. vm_compute. done. Qed.

Lemma C2_witness :
  ∃ this', StdMap.find 1 (LinkedObjects ex_R1) = Some this' ∧ Finalized this' = true.
Proof.
  destruct (C2_failed_finalize_is_not_undone ex_dyld 4 1 ex_R0 "Relocation failed" ex_R1)
    as (this & P & SymTab & this' & _ & _ & _ & Hthis' & Hfin & _).
  - vm_compute. reflexivity.
  - by exists this'.
Defined.

(** [finalize] fails on a relocation error; the module is still live and
    its symbol resolves to the address the loader gave it. *)
Lemma C2_counterexample :
  emitAndFinalize ex_dyld 4 1 ex_R0 = Returned (Failure "Relocation failed") ex_R1 ∧
  StdMap.keys (LinkedObjects ex_R1) = [1%N] ∧
  findSymbol ex_R1 "entry" true = JITSymbol_evaluated (ex_at 20480 true) ∧
  call_ftor ex_dyld 3 (getSymbolMaterializer 1 "entry") ex_R1
  = Returned (Value 20480%N) ex_R1.
Proof. vm_compute. done. Qed.

Lemma C3_witness :
  getAddress (ex_entry 1 "shared_sym" ex_C0) = 0%N ∧
  getSymbol 1 (ex_module 1 ex_C0) "shared_sym" true
  = JITSymbol_lazy (getSymbolMaterializer 1 "shared_sym") (ex_flags false true).
Proof.
  destruct (C3_named_then_addressed ex_parse ex_dyld 1 ex_C0 (ex_module 1 ex_C0))
    as [Hbefore _].
  - exact ex_C0_reachable.
  - vm_compute. reflexivity.
  - destruct (Hbefore eq_refl "shared_sym" (ex_entry 1 "shared_sym" ex_C0))
      as [Hzero Hlazy].
    + vm_compute. reflexivity.
    + split; [exact Hzero|]. apply (Hlazy true). by left.
Defined.

(** After a successful [finalize] the exported [weak_sym], which the loader
    did not report, is in the table at address 0. *)
Lemma C3_counterexample :
  emitAndFinalize ex_dyld 4 1 ex_W0 = Returned (Value ()) ex_W1 ∧
  Finalized (ex_module 1 ex_W1) = true ∧
  PFC (ex_module 1 ex_W1) = None ∧
  SymbolTable (ex_module 1 ex_W1) !! "weak_sym"
  = Some {| getAddress := 0; getFlags := ex_flags true true |} ∧
  isExported (ex_flags true true) = true.
Proof. vm_compute. done. Qed.

(** The run of [finalize] on S, step by step: the layer when the loader
    is made and the module marked, the loading of the object, the layer
    when the table is copied and [NotifyLoaded] called, the relocation,
    during which the loader looks [self] up, and the end of [finalize]. *)
Example ex_S_finalize_trace :
  (update_this 1
     (set_RTDyld {| rt_ProcessAllSections := false;
                    getSymbolTable := ∅;
                    getErrorString := None |});;
   update_this 1 set_Finalized) ex_S0
  = Returned () ex_S_marked ∧
  run_script (call_ftor ex_dyld 3) (loadObject (ex_dyld 1 ex_objS)) ex_S_marked
  = Returned {[ "self" := ex_at 24576 true ]} ex_S_marked ∧
  (update_this 1
     (set_RTDyld {| rt_ProcessAllSections := false;
                    getSymbolTable := {[ "self" := ex_at 24576 true ]};
                    getErrorString := None |});;
   update_this 1 (copy_symbol_table {[ "self" := ex_at 24576 true ]});;
   notify NotifyLoaded (Loaded 1)) ex_S_marked
  = Returned () ex_S_loaded ∧
  run_script (call_ftor ex_dyld 3)
    (finalizeWithMemoryManagerLocking (ex_dyld 1 ex_objS)) ex_S_loaded
  = Returned None ex_S_loaded ∧
  (notify NotifyFinalized (FinalizedNote 1);;
   update_this 1 (release_resources true ex_objS)) ex_S_loaded
  = Returned () ex_S1 ∧
  emitAndFinalize ex_dyld 4 1 ex_S0 = Returned (Value ()) ex_S1.
Proof. vm_compute. done. Qed.



Section SetupAddonFacts.

Variable fileName : string → string.
Variable loadAddon : string → AddonContents.
Variable generateAddonFiles : string → string → list string → string.

(** An add-on with sources, outside [Nodes], is submitted as one job. *)
Lemma setupAddon_submits addon P :
  fileName addon ≠ "Nodes" → cpp_files (loadAddon addon) ≠ [] →
  m_compiler (setupAddon fileName loadAddon generateAddonFiles addon P)
  = {| job_id := QString_remove "-"%char (json_key (loadAddon addon));
       job_cpp_files := cpp_files (loadAddon addon);
       job_flags := ["-I" +:+ addon;
                     "-I" +:+ generateAddonFiles (fileName addon) addon
                                (files (loadAddon addon))] |}
    :: m_compiler P.
Proof.
  intros Hname Hsrc. unfold setupAddon.
  destruct (String.eqb_spec (fileName addon) "Nodes"); [done|].
  by destruct (cpp_files (loadAddon addon)).
Qed.

(** C9, as the code has it: an add-on whose source set is empty is
    tolerated: [setupAddon] returns before anything is submitted to the
    compiler, so no job exists for it and no completion, success or
    failure, is notified; the one line written is the registration line
    written for every add-on. *)
Theorem C9_empty_source_set_is_skipped addon P :
  cpp_files (loadAddon addon) = [] →
  setupAddon fileName loadAddon generateAddonFiles addon P = debug "Registering JIT addon" addon P ∧
  m_compiler (setupAddon fileName loadAddon generateAddonFiles addon P) = m_compiler P.
Proof.
  intros Hsrc. unfold setupAddon. rewrite Hsrc.
  by destruct (String.eqb (fileName addon) "Nodes").
Qed.

End SetupAddonFacts.

Example ex_setupAddon_submits :
  m_compiler (setupAddon ex_fileName ex_loadAddon ex_generateAddonFiles
                "/library/Addons/Synth" ex_plugin)
  = [{| job_id := "9e8d7c6b5a4f";
        job_cpp_files := ["/library/Addons/Synth/main.cpp"];
        job_flags := ["-I/library/Addons/Synth"; "-I/tmp/Synth"] |}].
Proof. reflexivity. Qed.

Lemma C9_witness :
  m_compiler (setupAddon ex_fileName ex_loadAddon ex_generateAddonFiles
                "/library/Addons/Empty" ex_plugin) = [].
Proof.
  destruct (C9_empty_source_set_is_skipped ex_fileName ex_loadAddon
              ex_generateAddonFiles "/library/Addons/Empty" ex_plugin) as [_ Hjobs].
  - reflexivity.
  - exact Hjobs.
Defined.

(** The add-on with no source file: nothing is submitted, so nothing can be
    notified, and nothing but the registration line is written. *)
Lemma C9_counterexample :
  cpp_files (ex_loadAddon "/library/Addons/Empty") = [] ∧
  setupAddon ex_fileName ex_loadAddon ex_generateAddonFiles
    "/library/Addons/Empty" ex_plugin
  = {| m_compiler := [];
       qDebug := [("Registering JIT addon", "/library/Addons/Empty")] |}.
Proof. split; reflexivity. Qed.



(** * More on the linking layer *)

Local Close Scope string_scope.

(** ** The initial symbol table *)

Lemma buildInitialSymbolTable_lookup Syms :
  ∀ T T', buildInitialSymbolTable Syms T = Some T' →
  ∀ Name, T' !! Name
          = match T !! Name with
            | Some E => Some E
            | None => first_definition Name Syms ≫= initial_entry
            end.
Proof.
  induction Syms as [|Symbol Syms IH]; intros T T'; simpl.
  - intros [= <-] Name. by destruct (T !! Name).
  - unfold is_defined, has_name, initial_entry.
    destruct (sym_getFlags Symbol) as [flags|]; simpl.
    2:{ apply IH. }
    destruct (N.land flags SF_Undefined =? 0); simpl; [|apply IH].
    destruct (sym_getName Symbol) as [SymbolName|]; [|done].
    destruct (fromObjectSymbol Symbol) as [Flags|] eqn:HFlags; [|done].
    intros Hrun Name. rewrite (IH _ _ Hrun Name).
    destruct (String.eqb_spec SymbolName Name) as [->|Hne].
    + destruct (T !! Name) as [E|] eqn:HT; [by rewrite HT|].
      rewrite lookup_insert_eq. simpl. by rewrite HFlags.
    + destruct (T !! SymbolName); [done|]. by rewrite lookup_insert_ne.
Qed.

Lemma buildInitialSymbolTable_None Syms :
  ∀ T, buildInitialSymbolTable Syms T = None ↔
       Exists (λ Symbol, is_defined Symbol = true ∧
                         (unnamed Symbol = true ∨ flagless Symbol = true)) Syms.
Proof.
  induction Syms as [|Symbol Syms IH]; intros T; simpl.
  - split; [done|]. intros H. by apply Exists_nil in H.
  - rewrite Exists_cons. unfold is_defined, unnamed, flagless.
    destruct (sym_getFlags Symbol) as [flags|]; simpl.
    2:{ rewrite IH. split; [by right|]. by intros [[? _]|?]. }
    destruct (N.land flags SF_Undefined =? 0); simpl.
    2:{ rewrite IH. split; [by right|]. by intros [[? _]|?]. }
    destruct (sym_getName Symbol) as [SymbolName|].
    + destruct (fromObjectSymbol Symbol) as [Flags|].
      * rewrite IH. split; [by right|]. by intros [[_ [?|?]]|?].
      * split; [left; auto|done].
    + split; [left; auto|done].
Qed.

Lemma createLinkedObject_table Object pas this Name :
  createLinkedObject Object pas = Some this →
  SymbolTable this !! Name
  = first_definition Name (symbols Object) ≫= initial_entry ∧
  Finalized this = false ∧
  PFC this = Some {| Obj := Object; pfc_ProcessAllSections := pas; RTDyld := None |}.
Proof.
  unfold createLinkedObject.
  destruct (buildInitialSymbolTable (symbols Object) ∅) as [T|] eqn:HT; [|done].
  intros [= <-]. simpl. split; [|done].
  rewrite (buildInitialSymbolTable_lookup _ _ _ HT Name). by rewrite lookup_empty.
Qed.

(** X1: when a module is built from an object, its table holds exactly the
    names of the defined symbols, each at address 0 with the flags of the
    first defined symbol of that name: a later definition of the same name
    is ignored. *)
Theorem X1_first_definition_wins Object pas this Name :
  createLinkedObject Object pas = Some this →
  SymbolTable this !! Name
  = first_definition Name (symbols Object) ≫= initial_entry.
Proof. intros H. by apply (createLinkedObject_table Object pas this Name). Qed.

Section LayerMore.

Variable createObjectFile : MemoryBuffer → Expected ObjectFile.
Variable Dyld : VModuleKey → ObjectFile → DyldRun.

(** X2: what [addObject] does, case by case: a buffer that is no object
    file gives that error and changes nothing; otherwise a live key stops it
    on the assertion; otherwise a defined symbol whose name cannot be read
    stops it on the failed [get()] of the logging line, and a defined symbol
    whose JIT flags cannot be computed stops it on the unchecked dereference
    of [fromObjectSymbol]; otherwise it returns success with the new module
    stored under the key. *)
Theorem X2_addObject_outcomes K ObjBuffer L :
  match createObjectFile ObjBuffer with
  | Failure Err => addObject createObjectFile K ObjBuffer L = Returned (Failure Err) L
  | Value Object =>
      match StdMap.find K (LinkedObjects L) with
      | Some _ =>
          addObject createObjectFile K ObjBuffer L = Aborted "VModuleKey already in use"
      | None =>
          if bool_decide (Exists (λ Symbol, is_defined Symbol = true ∧
                                            (unnamed Symbol = true ∨
                                             flagless Symbol = true))
                            (symbols Object))
          then addObject createObjectFile K ObjBuffer L
               = Aborted "Cannot get value when an error exists!"
          else ∃ this,
            createLinkedObject Object (ProcessAllSections L) = Some this ∧
            addObject createObjectFile K ObjBuffer L
            = Returned (Value ())
                (set_LinkedObjects (StdMap.assign K this (LinkedObjects L)) L)
      end
  end.
Proof.
  unfold addObject. destruct (createObjectFile ObjBuffer) as [Object|Err]; [|done].
  rewrite bind_run. simpl. rewrite bind_run. unfold StdMap.count.
  destruct (StdMap.find K (LinkedObjects L)); simpl; [done|].
  unfold createLinkedObject. case_bool_decide as Hbad.
  - apply (buildInitialSymbolTable_None _ ∅) in Hbad. by rewrite Hbad.
  - destruct (buildInitialSymbolTable (symbols Object) ∅) as [T|] eqn:HT.
    + eexists. split; [reflexivity|]. by rewrite bind_run.
    + apply buildInitialSymbolTable_None in HT. done.
Qed.

(** X3: add, then look up by key: right after a successful [addObject]
    the lookup of any name in the new module yields a lazy symbol carrying
    the flags of the first definition of the name when the object defines
    it and it passes the filter on exported symbols, and the null symbol
    otherwise; the layer is not changed by the lookup. *)
Theorem X3_add_then_findSymbolIn K ObjBuffer Object L L' Name Exp :
  createObjectFile ObjBuffer = Value Object →
  addObject createObjectFile K ObjBuffer L = Returned (Value ()) L' →
  findSymbolIn K Name Exp L' = Returned (fresh_symbol K Object Name Exp) L'.
Proof.
  intros Hparse Hrun. apply addObject_Returned in Hrun
    as [(Err & ? & ? & _)|(Object' & this & Hparse' & _ & Hnew & _ & ->)]; [done|].
  assert (Object' = Object) as -> by congruence.
  rewrite findSymbolIn_run. simpl. rewrite StdMapFacts.find_assign_eq.
  destruct (createLinkedObject_table _ _ _ Name Hnew) as (Hlook & Hun & _).
  unfold getSymbol, fresh_symbol. rewrite Hlook, Hun.
  by destruct (first_definition Name (symbols Object)).
Qed.

(** ** Adding and removing *)

Lemma findSymbol_in_assign_unused K x (M : StdMap.t) Name Exp :
  StdMap.find K M = None →
  JITSymbol_bool (getSymbol K x Name Exp) = false →
  findSymbol_in (StdMap.assign K x M) Name Exp = findSymbol_in M Name Exp.
Proof.
  intros Hnone Hx. induction M as [|[k y] M IH]; simpl in *.
  - by rewrite Hx, getSymbol_takeError.
  - destruct (N.eqb_spec k K) as [->|Hne]; [done|].
    destruct (K <? k); simpl.
    + by rewrite Hx, getSymbol_takeError.
    + destruct (JITSymbol_bool (getSymbol k y Name Exp)); [done|].
      rewrite getSymbol_takeError. by apply IH.
Qed.

Lemma findSymbol_in_assign_shadowed K x (M : StdMap.t) K0 this0 Name Exp :
  StdMap.ascending M → StdMap.find K M = None →
  StdMap.find K0 M = Some this0 → K0 < K →
  JITSymbol_bool (getSymbol K0 this0 Name Exp) = true →
  findSymbol_in (StdMap.assign K x M) Name Exp = findSymbol_in M Name Exp.
Proof.
  intros Hasc Hnone H0 Hlt Hb. induction M as [|[k y] M IH]; simpl in *; [done|].
  destruct Hasc as [Hk Hasc].
  destruct (N.eqb_spec k K) as [->|Hne]; [done|].
  assert (k ≤ K0) as Hle.
  { destruct (N.eqb_spec k K0) as [->|HK0]; [lia|].
    apply StdMapFacts.find_Some_elem in H0. rewrite Forall_forall in Hk.
    specialize (Hk _ H0). simpl in Hk. lia. }
  destruct (N.ltb_spec K k); [lia|]. simpl.
  destruct (JITSymbol_bool (getSymbol k y Name Exp)) eqn:Hy; [done|].
  rewrite getSymbol_takeError. apply IH; [done|done|].
  destruct (N.eqb_spec k K0) as [->|HK0]; [|done].
  injection H0 as ->. congruence.
Qed.

Lemma erase_assign K x (M : StdMap.t) :
  StdMap.find K M = None → StdMap.erase K (StdMap.assign K x M) = M.
Proof.
  induction M as [|[k y] M IH]; simpl.
  - by rewrite N.eqb_refl.
  - destruct (N.eqb_spec k K) as [->|Hne]; [done|]. intros Hnone.
    destruct (K <? k); simpl.
    + by rewrite N.eqb_refl.
    + destruct (N.eqb_spec k K); [done|]. by rewrite IH.
Qed.

(** X4: adding an object cannot change what [findSymbol] answers for a
    name the object does not define, nor for a name that a live module with
    a smaller key already provides. *)
Theorem X4_add_keeps_other_resolutions K ObjBuffer Object L L' Name Exp :
  reachable createObjectFile Dyld L →
  createObjectFile ObjBuffer = Value Object →
  addObject createObjectFile K ObjBuffer L = Returned (Value ()) L' →
  first_definition Name (symbols Object) = None ∨
  (∃ K0 this0, K0 < K ∧ StdMap.find K0 (LinkedObjects L) = Some this0 ∧
               JITSymbol_bool (getSymbol K0 this0 Name Exp) = true) →
  findSymbol L' Name Exp = findSymbol L Name Exp.
Proof.
  intros Hreach Hparse Hrun Hcase.
  apply reachable_well_formed in Hreach as [Hasc _].
  apply addObject_Returned in Hrun
    as [(Err & ? & ? & _)|(Object' & this & Hparse' & Hnone & Hnew & _ & ->)]; [done|].
  assert (Object' = Object) as -> by congruence.
  unfold findSymbol. simpl. destruct Hcase as [Hundef|(K0 & this0 & Hlt & H0 & Hb)].
  - apply findSymbol_in_assign_unused; [done|].
    destruct (createLinkedObject_table _ _ _ Name Hnew) as (Hlook & _).
    unfold getSymbol. by rewrite Hlook, Hundef.
  - by eapply findSymbol_in_assign_shadowed.
Qed.

(** X5: add, then remove: removing a module right after it was added
    leaves the modules of the layer exactly as they were before the add;
    when [NotifyFreed] is set it is called for the key with no object to
    show, since the object is kept for it only by a successful [finalize]. *)
Theorem X5_add_then_remove K ObjBuffer L L1 :
  addObject createObjectFile K ObjBuffer L = Returned (Value ()) L1 →
  ∃ L2, removeObject K L1 = Returned (Value ()) L2 ∧
        LinkedObjects L2 = LinkedObjects L ∧
        same_setup L L2 ∧
        notified L2 = if NotifyFreed L then Freed K None :: notified L else notified L.
Proof.
  intros Hrun. apply addObject_Returned in Hrun
    as [(Err & ? & ? & _)|(Object & this & _ & Hnone & Hnew & _ & ->)]; [done|].
  rewrite removeObject_run. simpl. rewrite StdMapFacts.find_assign_eq.
  eexists. split; [reflexivity|].
  destruct (createLinkedObject Object (ProcessAllSections L)) as [this'|] eqn:Hc; [|done].
  injection Hnew as <-. unfold createLinkedObject in Hc.
  destruct (buildInitialSymbolTable (symbols Object) ∅); [|done]. injection Hc as <-.
  destruct (NotifyFreed L) eqn:HF; simpl; rewrite ?HF;
    (split_and!; [by apply erase_assign|done|done]).
Qed.

(** X6: once [removeObject] has returned in a layer a client can reach, the
    key holds no module: every call addressed by that key stops on its
    assertion, and [addObject] under that key no longer stops on the
    assertion that the key is in use. *)
Theorem X6_removed_key_is_free K L r L' :
  reachable createObjectFile Dyld L →
  removeObject K L = Returned r L' →
  StdMap.find K (LinkedObjects L') = None ∧
  removeObject K L' = Aborted "VModuleKey not associated with object" ∧
  (∀ Name Exp, findSymbolIn K Name Exp L'
               = Aborted "VModuleKey not associated with object") ∧
  (∀ fuel, emitAndFinalize Dyld fuel K L'
           = Aborted "VModuleKey not associated with object") ∧
  (∀ a b, mapSectionAddress K a b L'
          = Aborted "VModuleKey not associated with object") ∧
  (∀ ObjBuffer, addObject createObjectFile K ObjBuffer L'
                ≠ Aborted "VModuleKey already in use").
Proof.
  intros Hreach Hrun.
  assert (StdMap.find K (LinkedObjects L') = None) as Hnone.
  { apply reachable_well_formed in Hreach as [Hasc _].
    rewrite removeObject_run in Hrun.
    destruct (StdMap.find K (LinkedObjects L)) as [this|]; [|done].
    injection Hrun as _ <-. simpl.
    destruct (NotifyFreed L); simpl; by apply StdMapFacts.find_erase_eq. }
  split_and!.
  - done.
  - by rewrite removeObject_run, Hnone.
  - intros Name Exp. by rewrite findSymbolIn_run, Hnone.
  - intros fuel. by rewrite emitAndFinalize_run, Hnone.
  - intros a b. unfold mapSectionAddress. rewrite bind_run. simpl. rewrite bind_run.
    unfold StdMap.count. by rewrite Hnone.
  - intros ObjBuffer. unfold addObject.
    destruct (createObjectFile ObjBuffer) as [Object|Err]; [|done].
    rewrite bind_run. simpl. rewrite bind_run. unfold StdMap.count. rewrite Hnone.
    simpl. destruct (createLinkedObject Object (ProcessAllSections L')); [|done].
    by rewrite bind_run.
Qed.

(** ** Finalizing *)

(** X7: a finalization that returns, with success or with an error, adds
    and removes no module and leaves the set-up of the layer alone; the
    module it was asked to finalize is marked finalized; any other module is
    exactly as it was, unless it was not finalized and the loader's lookups
    finalized it on the way.  A module that was finalized before is never
    touched. *)
Theorem X7_finalize_touches_no_finalized_module fuel K L r L' :
  emitAndFinalize Dyld fuel K L = Returned r L' →
  StdMap.keys (LinkedObjects L') = StdMap.keys (LinkedObjects L) ∧
  same_setup L L' ∧
  (∃ this', StdMap.find K (LinkedObjects L') = Some this' ∧ Finalized this' = true) ∧
  ∀ K' this, K' ≠ K → StdMap.find K' (LinkedObjects L) = Some this →
    ∃ this', StdMap.find K' (LinkedObjects L') = Some this' ∧
             (this' = this ∨ (Finalized this = false ∧ Finalized this' = true)) ∧
             (Finalized this = true → this' = this).
Proof.
  rewrite emitAndFinalize_run.
  destruct (StdMap.find K (LinkedObjects L)); [|done]. intros Hrun.
  apply finalize_spec in Hrun
    as (this0 & P & SymTab & Err & _ & _ & _ & (Hsetup & Hkeys & Hframe) & Hafter & _).
  split_and!; [done|done| |].
  - eexists. split; [exact Hafter|]. by destruct Err.
  - intros K' this Hne Hthis. destruct (Hframe _ _ Hne Hthis) as (this' & Hthis' & Hlazy).
    exists this'. split_and!; [done|done|].
    intros Hfin. destruct Hlazy as [->|[? _]]; [done|congruence].
Qed.

Lemma extends_trans {A} (m1 m2 m3 : M A) :
  extends m1 m2 → extends m2 m3 → extends m1 m3.
Proof.
  intros H12 H23 L HL. rewrite H23; [by apply H12|]. by rewrite H12.
Qed.

Lemma much_more_fuel fuel extra :
  (∀ K, extends (finalize Dyld fuel K) (finalize Dyld (extra + fuel) K)) ∧
  (∀ F, extends (call_ftor Dyld fuel F) (call_ftor Dyld (extra + fuel) F)).
Proof.
  induction extra as [|extra [IHfin IHcall]]; [split; intros; apply extends_refl|].
  split.
  - intros K. eapply extends_trans; [apply IHfin|]. apply (more_fuel Dyld).
  - intros F. eapply extends_trans; [apply IHcall|]. apply (more_fuel Dyld).
Qed.

(** X8: whatever the loader's lookups set off, a finalization ends: with
    fuel above twice the number of live modules plus one, [emitAndFinalize]
    and the closures never run out of fuel, and any larger fuel gives the
    same outcome, layer included. *)
Theorem X8_finalization_ends fuel fuel' K F L :
  (2 * length (LinkedObjects L) + 1 < fuel)%nat → (fuel ≤ fuel')%nat →
  emitAndFinalize Dyld fuel K L ≠ OutOfFuel ∧
  emitAndFinalize Dyld fuel' K L = emitAndFinalize Dyld fuel K L ∧
  call_ftor Dyld fuel F L ≠ OutOfFuel ∧
  call_ftor Dyld fuel' F L = call_ftor Dyld fuel F L.
Proof.
  intros Hfuel Hle. pose proof (pending_le_length L) as Hpending.
  assert (finalize Dyld fuel K L ≠ OutOfFuel) as Hfin.
  { apply enough_fuel. left. lia. }
  assert (call_ftor Dyld fuel F L ≠ OutOfFuel) as Hcall.
  { apply enough_fuel. lia. }
  replace fuel' with ((fuel' - fuel) + fuel)%nat by lia.
  destruct (much_more_fuel fuel (fuel' - fuel)) as [Hmf Hmc].
  split_and!.
  - rewrite emitAndFinalize_run. by destruct (StdMap.find K (LinkedObjects L)).
  - rewrite !emitAndFinalize_run. destruct (StdMap.find K (LinkedObjects L)); [|done].
    by apply Hmf.
  - done.
  - by apply Hmc.
Qed.

(** X9: a module that was finalized with success is never changed by a
    later call of the client: after any call that returns, the key either
    holds the very same module, tables and addresses included, or holds
    nothing because that call was [removeObject] on the key. *)
Theorem X9_finalized_module_is_frozen K this L L' :
  reachable createObjectFile Dyld L →
  client_step createObjectFile Dyld L L' →
  StdMap.find K (LinkedObjects L) = Some this →
  Finalized this = true → PFC this = None →
  StdMap.find K (LinkedObjects L') = Some this ∨
  (StdMap.find K (LinkedObjects L') = None ∧
   ∃ r, removeObject K L = Returned r L').
Proof.
  intros Hreach Hstep Hthis Hfin HP.
  apply reachable_well_formed in Hreach as [Hasc _].
  destruct Hstep as [K0 buf r L' Hrun|K0 r L' Hrun|fuel K0 r L' Hrun|fuel F r L' Hrun|b].
  - left. apply addObject_Returned in Hrun
      as [(Err & _ & _ & ->)|(Object & new & _ & Hnone & _ & _ & ->)]; [done|].
    simpl. rewrite StdMapFacts.find_assign_ne; [done|congruence].
  - destruct (decide (K0 = K)) as [->|Hne].
    + right. split; [|by exists r]. rewrite removeObject_run, Hthis in Hrun.
      injection Hrun as _ <-. simpl.
      destruct (NotifyFreed L); simpl; by apply StdMapFacts.find_erase_eq.
    + left. rewrite removeObject_run in Hrun.
      destruct (StdMap.find K0 (LinkedObjects L)); [|done]. injection Hrun as _ <-.
      simpl. destruct (NotifyFreed L); simpl; by rewrite StdMapFacts.find_erase_ne.
  - left. rewrite emitAndFinalize_run in Hrun.
    destruct (StdMap.find K0 (LinkedObjects L)); [|done].
    apply finalize_spec in Hrun
      as (this0 & P & SymTab & Err & H0 & HP0 & _ & (_ & _ & Hframe) & _ & _).
    destruct (decide (K = K0)) as [->|Hne]; [congruence|].
    destruct (Hframe _ _ Hne Hthis) as (this' & Hthis' & [->|[? _]]); [done|congruence].
  - left. apply (proj1 (call_ftor_lazy Dyld fuel)) in Hrun.
    by eapply lazy_step_finalized.
  - by left.
Qed.

(** X10: in a layer a client can reach, [mapSectionAddress] stops on an
    assertion for a module that is not finalized (its loader does not exist
    yet) and for a module that has released its loader; when it returns, the
    module is marked finalized and still holds its loader, and the layer is
    as it was. *)
Theorem X10_mapSectionAddress_window K a b L this :
  reachable createObjectFile Dyld L →
  StdMap.find K (LinkedObjects L) = Some this →
  (Finalized this = false →
   mapSectionAddress K a b L = Aborted "mapSectionAddress called on raw LinkedObject") ∧
  (PFC this = None →
   mapSectionAddress K a b L
   = Aborted "mapSectionAddress called on finalized LinkedObject") ∧
  (∀ r L', mapSectionAddress K a b L = Returned r L' →
           L' = L ∧ Finalized this = true ∧ is_Some (PFC this)).
Proof.
  intros Hreach Hthis. apply reachable_well_formed in Hreach as [_ Hmod].
  assert (mapSectionAddress K a b L
          = match PFC this with
            | None => Aborted "mapSectionAddress called on finalized LinkedObject"
            | Some P => match RTDyld P with
                        | None => Aborted "mapSectionAddress called on raw LinkedObject"
                        | Some _ => Returned () L
                        end
            end) as ->.
  { unfold mapSectionAddress. rewrite bind_run. simpl. rewrite bind_run.
    unfold StdMap.count. rewrite Hthis. simpl.
    rewrite bind_run, get_this_run, Hthis. rewrite bind_run.
    destruct (PFC this) as [P|] eqn:HP; simpl; [|done].
    rewrite bind_run, deref_PFC_run, Hthis, HP. rewrite bind_run.
    by destruct (RTDyld P). }
  split_and!.
  - intros Hun. destruct (Hmod _ _ Hthis Hun) as [_ (P & -> & ->)]. done.
  - by intros ->.
  - intros r L'. destruct (PFC this) as [P|] eqn:HP; [|done].
    destruct (RTDyld P) eqn:HD; [|done]. intros [= _ <-]. split_and!; [done| |by eexists].
    destruct (Finalized this) eqn:Hf; [done|].
    destruct (Hmod _ _ Hthis Hf) as [_ (P' & HP' & HD')]. congruence.
Qed.

Lemma alter_alter f g K (M : StdMap.t) :
  StdMap.alter g K (StdMap.alter f K M) = StdMap.alter (g ∘ f) K M.
Proof.
  induction M as [|[k y] M IH]; simpl; [done|].
  destruct (N.eqb_spec k K) as [->|Hne]; simpl.
  - by rewrite N.eqb_refl.
  - destruct (N.eqb_spec k K); [done|]. by rewrite IH.
Qed.

Lemma alter_ext f g K (M : StdMap.t) this :
  StdMap.find K M = Some this → f this = g this →
  StdMap.alter f K M = StdMap.alter g K M.
Proof.
  induction M as [|[k y] M IH]; simpl; [done|].
  destruct (N.eqb_spec k K) as [->|Hne].
  - intros [= ->] ->. done.
  - intros H1 H2. by rewrite IH.
Qed.

(** X11: when the loader makes no call back into the layer, a finalization
    changes the module it finalizes and nothing else, and the notifications
    it makes are: [NotifyLoaded] once the object is loaded, whether or not
    relocation then fails, and [NotifyFinalized] after it and only on
    success, each only if the functor is set. *)
Theorem X11_finalize_without_lookups fuel K L this P SymTab Err :
  StdMap.find K (LinkedObjects L) = Some this →
  PFC this = Some P →
  loadObject (Dyld K (Obj P)) = Done SymTab →
  finalizeWithMemoryManagerLocking (Dyld K (Obj P)) = Done Err →
  emitAndFinalize Dyld (S fuel) K L
  = Returned (match Err with Some msg => Failure msg | None => Value () end)
      {| LinkedObjects :=
           StdMap.alter (λ _, after_finalize this P SymTab Err (NotifyFreed L)) K
             (LinkedObjects L);
         NotifyLoaded := NotifyLoaded L;
         NotifyFinalized := NotifyFinalized L;
         NotifyFreed := NotifyFreed L;
         ProcessAllSections := ProcessAllSections L;
         notified :=
           (match Err with
            | Some _ => []
            | None => if NotifyFinalized L then [FinalizedNote K] else []
            end)
           ++ (if NotifyLoaded L then [Loaded K] else [])
           ++ notified L |}.
Proof.
  intros Hthis HP Hload Hlink. rewrite emitAndFinalize_run, Hthis. simpl.
  unfold finalize_body.
  destruct this as [T F O pfc]; simpl in HP; subst pfc.
  destruct L as [Mods nl nf nfr pas notes]; simpl in *.
  destruct nl, nf, Err as [msg|];
    repeat progress
      (rewrite ?bind_run, ?get_this_run, ?deref_PFC_run, ?deref_RTDyld_run,
         ?update_this_run, ?notify_run;
       simpl;
       rewrite ?alter_alter, ?StdMapFacts.find_alter_eq, ?Hthis, ?Hload, ?Hlink;
       simpl);
    unfold set_LinkedObjects, push_notified; simpl;
    f_equal; f_equal; by eapply alter_ext.
Qed.

(** X23: add, finalize, remove: when [NotifyFreed] is set, the module's
    destructor calls it for the key; it is handed the object file that was
    added if the finalization succeeded, and no object if it failed, since
    the object is moved aside for the callback only at the end of a
    successful [finalize]. *)
Theorem X23_freed_with_the_added_object K ObjBuffer Object fuel L L1 L2 r :
  createObjectFile ObjBuffer = Value Object →
  addObject createObjectFile K ObjBuffer L = Returned (Value ()) L1 →
  emitAndFinalize Dyld fuel K L1 = Returned r L2 →
  ∃ L3,
    removeObject K L2 = Returned (Value ()) L3 ∧
    notified L3
    = if NotifyFreed L
      then Freed K (match r with
                    | Value _ => Some Object
                    | Failure _ => None
                    end) :: notified L2
      else notified L2.
Proof.
  intros Hparse Hadd Hfin. apply addObject_Returned in Hadd
    as [(Err & ? & ? & _)|(Object' & this & Hparse' & Hnone & Hnew & _ & ->)]; [done|].
  rewrite Hparse in Hparse'. injection Hparse' as <-.
  rewrite emitAndFinalize_run in Hfin. simpl in Hfin.
  rewrite StdMapFacts.find_assign_eq in Hfin.
  apply finalize_spec in Hfin
    as (this0 & P & SymTab & Err & Hthis0 & HP & -> & Hframe & Hthis' & _).
  simpl in Hthis0. rewrite StdMapFacts.find_assign_eq in Hthis0.
  injection Hthis0 as <-.
  destruct (createLinkedObject_table _ _ _ ""%string Hnew) as (_ & _ & HPFC).
  rewrite HPFC in HP. injection HP as <-.
  assert (ObjForNotify this = None) as Hnotify.
  { unfold createLinkedObject in Hnew.
    destruct (buildInitialSymbolTable (symbols Object) ∅); [|done].
    by injection Hnew as <-. }
  destruct Hframe as [(_ & _ & Hfreed & _) _]. simpl in Hfreed.
  rewrite removeObject_run, Hthis'. eexists. split; [reflexivity|].
  rewrite Hfreed. simpl in Hthis'.
  destruct (NotifyFreed L) eqn:Hset; [|done].
  destruct Err as [msg|]; simpl; by rewrite ?Hset, ?Hnotify.
Qed.

End LayerMore.

(** ** The layer properties on the concrete setting *)

Local Open Scope string_scope.

Lemma X1_witness :
  SymbolTable (ex_created ex_objTwice) !! "twice"
  = Some {| getAddress := 0; getFlags := ex_flags true true |} ∧
  SymbolTable (ex_created ex_objTwice) !! "elsewhere" = None.
Proof.
  split.
  - rewrite (X1_first_definition_wins ex_objTwice false (ex_created ex_objTwice) "twice").
    + vm_compute. reflexivity.
    + vm_compute. reflexivity.
  - rewrite (X1_first_definition_wins ex_objTwice false (ex_created ex_objTwice)
               "elsewhere").
    + vm_compute. reflexivity.
    + vm_compute. reflexivity.
Defined.

(** An object with a defined, named symbol whose JIT flags cannot be
    computed stops [addObject] on the unchecked dereference. *)
Example ex_flagless_symbol_stops_addObject :
  addObject ex_parse 1 "F" ex_new = Aborted "Cannot get value when an error exists!".
Proof. vm_compute. reflexivity. Qed.

Lemma X3_witness :
  findSymbolIn 1 "shared_sym" true ex_C0
  = Returned (JITSymbol_lazy (getSymbolMaterializer 1 "shared_sym") (ex_flags false true))
      ex_C0.
Proof.
  rewrite (X3_add_then_findSymbolIn ex_parse 1 "C" ex_objC ex_new ex_C0 "shared_sym" true).
  - vm_compute. reflexivity.
  - vm_compute. reflexivity.
  - vm_compute. reflexivity.
Defined.

Lemma X4_witness :
  findSymbol ex_CD0 "run_addonC" true = findSymbol ex_C1 "run_addonC" true.
Proof.
  apply (X4_add_keeps_other_resolutions ex_parse ex_dyld 2 "D" ex_objD ex_C1 ex_CD0
           "run_addonC" true).
  - exact ex_C1_reachable.
  - vm_compute. reflexivity.
  - vm_compute. reflexivity.
  - left. vm_compute. reflexivity.
Defined.

Lemma X5_witness :
  ∃ L2, removeObject 2 ex_CD0 = Returned (Value ()) L2 ∧
        LinkedObjects L2 = LinkedObjects ex_C1.
Proof.
  destruct (X5_add_then_remove ex_parse 2 "D" ex_C1 ex_CD0) as (L2 & Hrun & Hmods & _).
  - vm_compute. reflexivity.
  - by exists L2.
Defined.

Lemma X6_witness :
  removeObject 1 ex_EC2 = Aborted "VModuleKey not associated with object".
Proof.
  destruct (X6_removed_key_is_free ex_parse ex_dyld 1 ex_EC1 (Value ()) ex_EC2)
    as (_ & Hagain & _).
  - exact ex_EC1_reachable.
  - vm_compute. reflexivity.
  - exact Hagain.
Defined.

Lemma X7_witness :
  StdMap.keys (LinkedObjects ex_CD1) = StdMap.keys (LinkedObjects ex_CD0).
Proof.
  destruct (X7_finalize_touches_no_finalized_module ex_dyld 4 2 ex_CD0 (Value ()) ex_CD1)
    as (Hkeys & _).
  - vm_compute. reflexivity.
  - exact Hkeys.
Defined.

Lemma X8_witness :
  emitAndFinalize ex_dyld 9 1 ex_C0 = emitAndFinalize ex_dyld 4 1 ex_C0.
Proof.
  destruct (X8_finalization_ends ex_dyld 4 9 1 (getSymbolMaterializer 1 "shared_sym") ex_C0)
    as (_ & Hsame & _).
  - vm_compute. lia.
  - lia.
  - exact Hsame.
Defined.

Lemma X9_witness :
  StdMap.find 1 (LinkedObjects ex_CD0) = Some (ex_module 1 ex_C1) ∨
  (StdMap.find 1 (LinkedObjects ex_CD0) = None ∧
   ∃ r, removeObject 1 ex_C1 = Returned r ex_CD0).
Proof.
  apply (X9_finalized_module_is_frozen ex_parse ex_dyld 1 (ex_module 1 ex_C1) ex_C1 ex_CD0).
  - exact ex_C1_reachable.
  - apply (step_addObject ex_parse ex_dyld ex_C1 2 "D" (Value ())).
    vm_compute. reflexivity.
  - vm_compute. reflexivity.
  - vm_compute. reflexivity.
  - vm_compute. reflexivity.
Defined.

Lemma X10_witness :
  mapSectionAddress 1 0 4096 ex_C0
  = Aborted "mapSectionAddress called on raw LinkedObject".
Proof.
  destruct (X10_mapSectionAddress_window ex_parse ex_dyld 1 0%N 4096%N ex_C0
              (ex_module 1 ex_C0)) as (Hraw & _).
  - exact ex_C0_reachable.
  - vm_compute. reflexivity.
  - apply Hraw. vm_compute. reflexivity.
Defined.

Lemma X11_witness :
  notified (ex_after (emitAndFinalize ex_dyld 1 1) ex_R0) = [Loaded 1].
Proof.
  unfold ex_after.
  rewrite (X11_finalize_without_lookups ex_dyld 0 1 ex_R0 (ex_module 1 ex_R0)
             {| Obj := ex_objR; pfc_ProcessAllSections := false; RTDyld := None |}
             {[ "entry" := ex_at 20480 true ]} (Some "Relocation failed")).
  - vm_compute. reflexivity.
  - vm_compute. reflexivity.
  - vm_compute. reflexivity.
  - vm_compute. reflexivity.
  - vm_compute. reflexivity.
Defined.

Lemma X23_witness :
  notified (ex_after (removeObject 1) ex_C1) = Freed 1 (Some ex_objC) :: notified ex_C1 ∧
  notified (ex_after (removeObject 1) ex_R1) = Freed 1 None :: notified ex_R1.
Proof.
  split.
  - destruct (X23_freed_with_the_added_object ex_parse ex_dyld 1 "C" ex_objC 4 ex_new
                ex_C0 ex_C1 (Value ())) as (L3 & Hrun & Hnotes).
    + vm_compute. reflexivity.
    + vm_compute. reflexivity.
    + vm_compute. reflexivity.
    + unfold ex_after. rewrite Hrun. exact Hnotes.
  - destruct (X23_freed_with_the_added_object ex_parse ex_dyld 1 "R" ex_objR 4 ex_new
                ex_R0 ex_R1 (Failure "Relocation failed")) as (L3 & Hrun & Hnotes).
    + vm_compute. reflexivity.
    + vm_compute. reflexivity.
    + vm_compute. reflexivity.
    + unfold ex_after. rewrite Hrun. exact Hnotes.
Defined.

(** * Node files, rescans and the plug-in settings *)

Local Close Scope string_scope.

(** ** Text *)

Lemma string_app_nil (b : string) : "" +:+ b = b.
Proof. reflexivity. Qed.

Lemma string_app_cons x (a b : string) : String x a +:+ b = String x (a +:+ b).
Proof. reflexivity. Qed.

Ltac text := rewrite ?string_app_nil, ?string_app_cons; simpl.

Lemma string_app_assoc (a b c : string) : (a +:+ b) +:+ c = a +:+ (b +:+ c).
Proof. induction a as [|x a IH]; text; [done|by rewrite IH]. Qed.

Lemma string_length_app (a b : string) :
  String.length (a +:+ b) = (String.length a + String.length b)%nat.
Proof. induction a as [|x a IH]; text; [done|by rewrite IH]. Qed.

Lemma occurs_app c (a b : string) : occurs c (a +:+ b) = occurs c a || occurs c b.
Proof.
  induction a as [|x a IH]; text; [done|]. rewrite IH. by rewrite orb_assoc.
Qed.

Lemma QString_remove_occurs c s : occurs c (QString_remove c s) = false.
Proof.
  induction s as [|a s IH]; simpl; [done|].
  destruct (Ascii.eqb a c) eqn:E; simpl; [done|]. by rewrite E.
Qed.

Lemma prefix_app (w s : string) :
  String.prefix w s = true → ∃ rest, s = w +:+ rest.
Proof.
  revert s. induction w as [|x w IH]; intros s H.
  - by exists s.
  - destruct s as [|y s]; simpl in H; [done|].
    destruct (Ascii.ascii_dec x y) as [->|]; [|done].
    destruct (IH _ H) as [rest ->]. by exists rest.
Qed.

Lemma prefix_empty (s : string) : String.prefix "" s = true.
Proof. by destruct s. Qed.

(** [index] returns a position at or after the one it starts from. *)
Lemma index_from n w s m : String.index n w s = Some m → (n ≤ m)%nat.
Proof.
  revert n m. induction s as [|x s IH]; intros n m H; simpl in H.
  - destruct n; [|done]. lia.
  - destruct n as [|n]; [lia|].
    destruct (String.index n w s) as [k|] eqn:E; [|done].
    injection H as <-. apply IH in E. lia.
Qed.

Lemma index_0_cons w x s :
  String.index 0 w (String x s)
  = if String.prefix w (String x s) then Some 0%nat
    else S <$> String.index 0 w s.
Proof. reflexivity. Qed.

(** An occurrence found by [index] splits the text. *)
Lemma index_split w s m :
  String.index 0 w s = Some m →
  ∃ pre rest, s = pre +:+ w +:+ rest ∧ String.length pre = m.
Proof.
  revert m. induction s as [|x s IH]; intros m H.
  - simpl in H. destruct w; [|done]. injection H as <-.
    by exists ""%string, ""%string.
  - rewrite index_0_cons in H. destruct (String.prefix w (String x s)) eqn:E.
    + injection H as <-. destruct (prefix_app _ _ E) as [rest ->].
      by exists ""%string, rest.
    + destruct (String.index 0 w s) as [k|]; [|done]. injection H as <-.
      destruct (IH k eq_refl) as (pre & rest & -> & <-).
      by exists (String x pre), rest.
Qed.

(** Searching past a prefix is searching in what follows it. *)
Lemma index_skip (a : string) n w s :
  String.index (String.length a + n) w (a +:+ s)
  = (λ k, String.length a + k)%nat <$> String.index n w s.
Proof.
  induction a as [|x a IH]; text.
  - by destruct (String.index n w s).
  - rewrite IH. by destruct (String.index n w s).
Qed.


Lemma substring_prefix (u r : string) :
  String.substring 0 (String.length u) (u +:+ r) = u.
Proof.
  induction u as [|x u IH]; text.
  - by destruct r.
  - by rewrite IH.
Qed.

(** The first occurrence of one character. *)
Lemma index_char_split c s m :
  String.index 0 (String c "") s = Some m →
  ∃ a b, s = a +:+ String c b ∧ String.length a = m ∧ occurs c a = false.
Proof.
  revert m. induction s as [|x s IH]; intros m H; simpl in H; [done|].
  destruct (Ascii.ascii_dec c x) as [->|Hne].
  - rewrite prefix_empty in H. injection H as <-. by exists ""%string, s.
  - destruct (String.index 0 (String c "") s) as [k|]; [|done]. injection H as <-.
    destruct (IH k eq_refl) as (a & b & -> & <- & Ha).
    exists (String x a), b. split_and!; [done..|]. simpl. rewrite Ha.
    rewrite orb_false_r. apply Ascii.eqb_neq. congruence.
Qed.



(** ** Sets of paths *)

Lemma paths_insert_twice (p : string) (W : gset string) :
  {[p]} ∪ ({[p]} ∪ W) = {[p]} ∪ W.
Proof. apply set_eq. intros x. rewrite !elem_of_union. tauto. Qed.

Lemma paths_insert_seen (p : string) (W : gset string) :
  p ∈ W → W = {[p]} ∪ W.
Proof.
  intros Hp. apply set_eq. intros x. rewrite elem_of_union, elem_of_singleton.
  split; [tauto|]. by intros [->|].
Qed.

Lemma paths_nil (W : gset string) : W = list_to_set [] ∪ W.
Proof.
  apply set_eq. intros x. rewrite elem_of_union, elem_of_list_to_set, elem_of_nil.
  tauto.
Qed.

Lemma paths_cons (p : string) (entries : list string) (W : gset string) :
  list_to_set entries ∪ ({[p]} ∪ W) = list_to_set (p :: entries) ∪ W.
Proof.
  apply set_eq. intros x.
  rewrite !elem_of_union, !elem_of_list_to_set, elem_of_cons, elem_of_singleton.
  tauto.
Qed.

(** ** Node files *)

Section PluginFacts.

Variable fileName : string → string.
Variable suffix : string → string.
Variable loadAddon : string → AddonContents.
Variable generateAddonFiles : string → string → list string → string.
Variable readAll : string → option string.
Variable fromUtf8 : string → string.
Variable pathExists : string → bool.
Variable libpath : string.



(** X13: [setupNode] leaves the plug-in as it is, with no job and no line
    written, unless the file has suffix [hpp] or [cpp], opens, and holds a
    node text. *)
Theorem X13_other_files_are_ignored f P :
  Jit.setupNode suffix readAll fromUtf8 f P ≠ P →
  ∃ node before between uuid rest,
    (suffix f = "hpp"%string ∨ suffix f = "cpp"%string) ∧
    readAll f = Some node ∧
    node_text node before between uuid rest.
Proof.
  unfold Jit.setupNode, indexOf. intros Hrun.
  destruct (String.eqb (suffix f) "hpp" || String.eqb (suffix f) "cpp") eqn:Hsuffix;
    [|done].
  destruct (readAll f) as [node|] eqn:Hread; [|done].
  destruct (String.index 0 make_uuid_s node) as [i|] eqn:Hi; [|done].
  destruct (String.index (i + 9) (String double_quote "") node) as [umin|] eqn:Hmin;
    [|done].
  destruct (String.index (umin + 1) (String double_quote "") node) as [umax|] eqn:Hmax;
    [|done].
  destruct (Nat.eqb (umax - umin) 37) eqn:Hdiff; [|done].
  apply Nat.eqb_eq in Hdiff. clear Hrun.
  destruct (index_split _ _ _ Hi) as (before & tail & Hnode & Hbefore).
  assert (Hfirst : ∀ k, (k < String.length before)%nat →
                        String.substring k 9 node ≠ make_uuid_s).
  { intros k Hk. apply (String.index_correct2 _ _ _ _ Hi k); lia. }
  rewrite Hnode, <-string_app_assoc in Hmin.
  replace (i + 9)%nat with (String.length (before +:+ make_uuid_s) + 0)%nat in Hmin
    by (rewrite string_length_app, Hbefore; simpl; lia).
  rewrite index_skip in Hmin.
  destruct (String.index 0 (String double_quote "") tail) as [j|] eqn:Hj; [|done].
  injection Hmin as Hmin.
  destruct (index_char_split _ _ _ Hj) as (between & tail2 & -> & Hlen & Hbetween).
  assert (Hhead : String.length
                    (before +:+ make_uuid_s +:+ between +:+ String double_quote "")
                  = (umin + 1)%nat).
  { rewrite <-Hmin, !string_length_app. simpl. lia. }
  assert (Hnode' : node
                   = (before +:+ make_uuid_s +:+ between +:+ String double_quote "")
                     +:+ tail2).
  { rewrite Hnode, !string_app_assoc. reflexivity. }
  rewrite Hnode' in Hmax at 1.
  rewrite <-Hhead, <-(Nat.add_0_r (String.length _)) in Hmax at 1.
  rewrite index_skip in Hmax.
  destruct (String.index 0 (String double_quote "") tail2) as [k|] eqn:Hk; [|done].
  injection Hmax as Hmax.
  destruct (index_char_split _ _ _ Hk) as (uuid & rest & -> & Hlen' & Huuid).
  exists node, before, between, uuid, rest. split_and!.
  - apply orb_true_iff in Hsuffix as [H|H]; apply String.eqb_eq in H; auto.
  - done.
  - unfold node_text. split_and!; try done. rewrite Hhead in Hmax. lia.
Qed.

(** *** What one set-up submits *)

Lemma setupAddon_fresh addon :
  let done := setupAddon fileName loadAddon generateAddonFiles addon fresh_plugin in
  written done = [("Registering JIT addon"%string, addon)] ∧
  (submitted done = [] ∨
   ∃ cpp flags,
     submitted done
     = [FilesJob {| job_id := QString_remove "-"%char (json_key (loadAddon addon));
                    job_cpp_files := cpp; job_flags := flags |}]).
Proof.
  unfold setupAddon, written, submitted. simpl.
  destruct (String.eqb (fileName addon) "Nodes"); simpl; [auto|].
  destruct (cpp_files (loadAddon addon)); simpl; [auto|].
  split; [done|]. right. by eexists _, _.
Qed.

Lemma setupAddon_files addon P :
  filter (λ job, is_SourceJob job)
    (Jit.m_compiler (Jit.setupAddon fileName loadAddon generateAddonFiles addon P))
  = filter (λ job, is_SourceJob job) (Jit.m_compiler P).
Proof.
  simpl. rewrite filter_app.
  destruct (setupAddon_fresh addon) as [_ [-> | (cpp & flags & ->)]]; done.
Qed.

Lemma setupAddon_dashless addon P :
  Forall dashless (Jit.m_compiler P) →
  Forall dashless
    (Jit.m_compiler (Jit.setupAddon fileName loadAddon generateAddonFiles addon P)).
Proof.
  intros HP. simpl. apply Forall_app. split; [|done].
  destruct (setupAddon_fresh addon) as [_ [-> | (cpp & flags & ->)]]; [done|].
  apply Forall_singleton. apply QString_remove_occurs.
Qed.

Lemma setupNode_cases f P :
  Jit.setupNode suffix readAll fromUtf8 f P = P ∨
  ∃ uuid node,
    Jit.setupNode suffix readAll fromUtf8 f P
    = Jit.submitJob
        (SourceJob (QString_remove "-"%char (fromUtf8 uuid)) (node +:+ footer) [])
        (Jit.debug "Registering JIT node" f P).
Proof.
  unfold Jit.setupNode. repeat case_match; eauto.
Qed.

Lemma setupNode_jobs f P :
  Jit.m_compiler (Jit.setupNode suffix readAll fromUtf8 f P)
  = option_list (Jit.node_job suffix readAll fromUtf8 f) ++ Jit.m_compiler P.
Proof.
  unfold Jit.node_job, Jit.setupNode. repeat case_match; done.
Qed.

Lemma node_job_source f job :
  Jit.node_job suffix readAll fromUtf8 f = Some job →
  is_SourceJob job = true ∧ dashless job.
Proof.
  unfold Jit.node_job.
  destruct (setupNode_cases f Jit.initial) as [-> | (uuid & node & ->)]; [done|].
  simpl. intros [= <-]. split; [done|]. apply QString_remove_occurs.
Qed.

Lemma setupNode_dashless f P :
  Forall dashless (Jit.m_compiler P) →
  Forall dashless (Jit.m_compiler (Jit.setupNode suffix readAll fromUtf8 f P)).
Proof.
  intros HP. rewrite setupNode_jobs. apply Forall_app. split; [|done].
  destruct (Jit.node_job suffix readAll fromUtf8 f) as [job|] eqn:E; [|done].
  apply Forall_singleton. by eapply node_job_source.
Qed.

(** *** Rescans *)

Lemma foldl_invariant {A B} (I : A → Prop) (g : A → B → A) (l : list B) (a : A) :
  (∀ a b, I a → I (g a b)) → I a → I (foldl g a l).
Proof. intros Hg. revert a. induction l; simpl; auto. Qed.

Lemma rescanAddons_entry_dashless P p :
  Forall dashless (Jit.m_compiler P) →
  Forall dashless
    (Jit.m_compiler
       (Jit.rescanAddons_entry fileName loadAddon generateAddonFiles P p)).
Proof.
  intros HP. unfold Jit.rescanAddons_entry. destruct (decide _); [done|].
  by apply setupAddon_dashless.
Qed.

Lemma rescanNodes_entry_dashless P p :
  Forall dashless (Jit.m_compiler P) →
  Forall dashless
    (Jit.m_compiler
       (Jit.rescanNodes_entry fileName suffix loadAddon generateAddonFiles readAll
          fromUtf8 pathExists P p)).
Proof.
  intros HP. unfold Jit.rescanNodes_entry. apply setupNode_dashless.
  simpl. destruct (decide _); [done|]. by apply setupAddon_dashless.
Qed.

(** X14: no job the plug-in submits has a ['-'] in its id, whichever
    member functions ran before. *)
Theorem X14_job_ids_hold_no_dash P :
  Jit.reached fileName suffix loadAddon generateAddonFiles readAll fromUtf8
    pathExists libpath P →
  Forall dashless (Jit.m_compiler P).
Proof.
  induction 1 as [|P P' _ IH Hcall]; [done|].
  destruct Hcall as [entries|entries|addon|f].
  - unfold Jit.rescanAddons.
    apply (foldl_invariant (λ P, Forall dashless (Jit.m_compiler P))); [|done].
    intros. by apply rescanAddons_entry_dashless.
  - unfold Jit.rescanNodes.
    apply (foldl_invariant (λ P, Forall dashless (Jit.m_compiler P))); [|done].
    intros. by apply rescanNodes_entry_dashless.
  - by apply setupAddon_dashless.
  - by apply setupNode_dashless.
Qed.

Lemma addPath_addPath p W :
  Jit.addPath pathExists p (Jit.addPath pathExists p W) = Jit.addPath pathExists p W.
Proof.
  unfold Jit.addPath. destruct (pathExists p); [apply paths_insert_twice|done].
Qed.

Lemma rescanAddons_entry_sets P p :
  let P' := Jit.rescanAddons_entry fileName loadAddon generateAddonFiles P p in
  Jit.m_addonsWatch P' = Jit.m_addonsWatch P ∧
  Jit.m_addonsPaths P' = {[p]} ∪ Jit.m_addonsPaths P.
Proof.
  unfold Jit.rescanAddons_entry. destruct (decide _); simpl; [|done].
  split; [done|by apply paths_insert_seen].
Qed.

Lemma rescanAddons_entries_sets entries P :
  let P' := foldl (Jit.rescanAddons_entry fileName loadAddon generateAddonFiles) P
              entries in
  Jit.m_addonsWatch P' = Jit.m_addonsWatch P ∧
  Jit.m_addonsPaths P' = list_to_set entries ∪ Jit.m_addonsPaths P.
Proof.
  revert P. induction entries as [|p entries IH]; intros P; simpl.
  - split; [done|apply paths_nil].
  - destruct (IH (Jit.rescanAddons_entry fileName loadAddon generateAddonFiles P p))
      as [-> ->].
    destruct (rescanAddons_entry_sets P p) as [-> ->].
    split; [done|apply paths_cons].
Qed.

Lemma rescanAddons_entries_seen entries P :
  (∀ p, p ∈ entries → p ∈ Jit.m_addonsPaths P) →
  foldl (Jit.rescanAddons_entry fileName loadAddon generateAddonFiles) P entries = P.
Proof.
  induction entries as [|p entries IH]; intros Hseen; simpl; [done|].
  assert (Jit.rescanAddons_entry fileName loadAddon generateAddonFiles P p = P) as ->.
  { unfold Jit.rescanAddons_entry. rewrite decide_True; [done|].
    apply Hseen. left. }
  apply IH. intros q Hq. apply Hseen. by right.
Qed.

(** X15: a rescan of the add-ons directory that yields no directory the
    previous rescan did not yield changes nothing: no add-on is set up
    again. *)
Theorem X15_rescanAddons_sets_up_once entries entries' P :
  entries' ⊆ entries →
  Jit.rescanAddons fileName loadAddon generateAddonFiles pathExists libpath entries'
    (Jit.rescanAddons fileName loadAddon generateAddonFiles pathExists libpath
       entries P)
  = Jit.rescanAddons fileName loadAddon generateAddonFiles pathExists libpath
      entries P.
Proof.
  intros Hsub. unfold Jit.rescanAddons at 1.
  set (Q := Jit.rescanAddons _ _ _ _ _ entries P).
  destruct (rescanAddons_entries_sets entries
              {| Jit.m_addonsWatch :=
                   Jit.addPath pathExists (libpath +:+ "/Addons") (Jit.m_addonsWatch P);
                 Jit.m_nodesWatch := Jit.m_nodesWatch P;
                 Jit.m_addonsPaths := Jit.m_addonsPaths P;
                 Jit.m_nodesPaths := Jit.m_nodesPaths P;
                 Jit.m_compiler := Jit.m_compiler P;
                 Jit.qDebug := Jit.qDebug P |}) as [Hwatch Hpaths].
  fold (Jit.rescanAddons fileName loadAddon generateAddonFiles pathExists libpath
          entries P) in Hwatch, Hpaths.
  fold Q in Hwatch, Hpaths. simpl in Hwatch, Hpaths.
  rewrite Hwatch, addPath_addPath, <-Hwatch.
  assert ({| Jit.m_addonsWatch := Jit.m_addonsWatch Q;
             Jit.m_nodesWatch := Jit.m_nodesWatch Q;
             Jit.m_addonsPaths := Jit.m_addonsPaths Q;
             Jit.m_nodesPaths := Jit.m_nodesPaths Q;
             Jit.m_compiler := Jit.m_compiler Q;
             Jit.qDebug := Jit.qDebug Q |} = Q) as -> by by destruct Q.
  apply rescanAddons_entries_seen. intros p Hp. rewrite Hpaths.
  apply elem_of_union_l, elem_of_list_to_set. by apply Hsub.
Qed.

Lemma filter_option_list_node f :
  filter (λ job, is_SourceJob job)
    (option_list (Jit.node_job suffix readAll fromUtf8 f))
  = option_list (Jit.node_job suffix readAll fromUtf8 f) ∧
  filter (λ job, ¬ is_SourceJob job)
    (option_list (Jit.node_job suffix readAll fromUtf8 f)) = [].
Proof.
  destruct (Jit.node_job suffix readAll fromUtf8 f) as [job|] eqn:E; [|done].
  destruct (node_job_source _ _ E) as [Hjob _]. simpl.
  rewrite filter_cons_True, filter_cons_False by (rewrite Hjob; simpl; tauto).
  done.
Qed.

Lemma rescanNodes_entry_sources P path :
  filter (λ job, is_SourceJob job)
    (Jit.m_compiler
       (Jit.rescanNodes_entry fileName suffix loadAddon generateAddonFiles readAll
          fromUtf8 pathExists P path))
  = option_list (Jit.node_job suffix readAll fromUtf8 path)
    ++ filter (λ job, is_SourceJob job) (Jit.m_compiler P).
Proof.
  unfold Jit.rescanNodes_entry. rewrite setupNode_jobs, filter_app.
  destruct (filter_option_list_node path) as [-> _]. f_equal.
  simpl. destruct (decide _); [done|]. by rewrite setupAddon_files.
Qed.

Lemma rescanNodes_entries_sources entries P :
  filter (λ job, is_SourceJob job)
    (Jit.m_compiler
       (foldl (Jit.rescanNodes_entry fileName suffix loadAddon generateAddonFiles
                 readAll fromUtf8 pathExists) P entries))
  = reverse (omap (Jit.node_job suffix readAll fromUtf8) entries)
    ++ filter (λ job, is_SourceJob job) (Jit.m_compiler P).
Proof.
  revert P. induction entries as [|path entries IH]; intros P; simpl; [done|].
  rewrite IH, rescanNodes_entry_sources.
  destruct (Jit.node_job suffix readAll fromUtf8 path) as [job|]; simpl; [|done].
  by rewrite reverse_cons, <-app_assoc.
Qed.

Lemma setupNode_sets f P :
  Jit.m_nodesPaths (Jit.setupNode suffix readAll fromUtf8 f P) = Jit.m_nodesPaths P.
Proof. by destruct (setupNode_cases f P) as [-> | (uuid & node & ->)]. Qed.

Lemma rescanNodes_entry_sets P path :
  Jit.m_nodesPaths
    (Jit.rescanNodes_entry fileName suffix loadAddon generateAddonFiles readAll
       fromUtf8 pathExists P path)
  = {[path]} ∪ Jit.m_nodesPaths P.
Proof.
  unfold Jit.rescanNodes_entry. rewrite setupNode_sets. simpl.
  destruct (decide _); simpl; [by apply paths_insert_seen|done].
Qed.

Lemma rescanNodes_entries_sets entries P :
  Jit.m_nodesPaths
    (foldl (Jit.rescanNodes_entry fileName suffix loadAddon generateAddonFiles
              readAll fromUtf8 pathExists) P entries)
  = list_to_set entries ∪ Jit.m_nodesPaths P.
Proof.
  revert P. induction entries as [|p entries IH]; intros P; simpl;
    [apply paths_nil|].
  rewrite IH, rescanNodes_entry_sets. apply paths_cons.
Qed.

Lemma rescanNodes_entry_files P path :
  path ∈ Jit.m_nodesPaths P →
  filter (λ job, ¬ is_SourceJob job)
    (Jit.m_compiler
       (Jit.rescanNodes_entry fileName suffix loadAddon generateAddonFiles readAll
          fromUtf8 pathExists P path))
  = filter (λ job, ¬ is_SourceJob job) (Jit.m_compiler P).
Proof.
  intros Hseen. unfold Jit.rescanNodes_entry. rewrite setupNode_jobs, filter_app.
  destruct (filter_option_list_node path) as [_ ->]. simpl.
  by rewrite decide_True.
Qed.

Lemma rescanNodes_entries_files entries P :
  (∀ p, p ∈ entries → p ∈ Jit.m_nodesPaths P) →
  filter (λ job, ¬ is_SourceJob job)
    (Jit.m_compiler
       (foldl (Jit.rescanNodes_entry fileName suffix loadAddon generateAddonFiles
                 readAll fromUtf8 pathExists) P entries))
  = filter (λ job, ¬ is_SourceJob job) (Jit.m_compiler P).
Proof.
  revert P. induction entries as [|path entries IH]; intros P Hseen; simpl; [done|].
  rewrite IH.
  - apply rescanNodes_entry_files, Hseen. left.
  - intros q Hq. rewrite rescanNodes_entry_sets.
    apply elem_of_union_r, Hseen. by right.
Qed.

(** X16: every rescan of the nodes directory submits every node file
    again, whatever the plug-in has seen before, while the add-on set-up of
    a file is not repeated. *)
Theorem X16_rescanNodes_resubmits_nodes entries P :
  filter (λ job, is_SourceJob job)
    (Jit.m_compiler
       (Jit.rescanNodes fileName suffix loadAddon generateAddonFiles readAll fromUtf8
          pathExists libpath entries P))
  = reverse (omap (Jit.node_job suffix readAll fromUtf8) entries)
    ++ filter (λ job, is_SourceJob job) (Jit.m_compiler P) ∧
  filter (λ job, ¬ is_SourceJob job)
    (Jit.m_compiler
       (Jit.rescanNodes fileName suffix loadAddon generateAddonFiles readAll fromUtf8
          pathExists libpath entries
          (Jit.rescanNodes fileName suffix loadAddon generateAddonFiles readAll
             fromUtf8 pathExists libpath entries P)))
  = filter (λ job, ¬ is_SourceJob job)
      (Jit.m_compiler
         (Jit.rescanNodes fileName suffix loadAddon generateAddonFiles readAll
            fromUtf8 pathExists libpath entries P)).
Proof.
  split.
  - unfold Jit.rescanNodes. by rewrite rescanNodes_entries_sources.
  - unfold Jit.rescanNodes at 1. rewrite rescanNodes_entries_files; [done|].
    intros p Hp. simpl. unfold Jit.rescanNodes.
    rewrite rescanNodes_entries_sets. by apply elem_of_union_l, elem_of_list_to_set.
Qed.

End PluginFacts.

(** * The plug-in settings *)

(** ** Paths of a downloaded archive *)

Lemma lastIndexOf_None c str :
  zip_helper.lastIndexOf c str = None → occurs c str = false.
Proof.
  induction str as [|a str IH]; simpl; [done|].
  destruct (zip_helper.lastIndexOf c str); [done|].
  destruct (Ascii.eqb a c); [done|]. intros _. by apply IH.
Qed.

Lemma lastIndexOf_split c str idx :
  zip_helper.lastIndexOf c str = Some idx →
  ∃ path filename,
    str = path +:+ String c filename ∧ String.length path = idx ∧
    occurs c filename = false.
Proof.
  revert idx. induction str as [|a str IH]; intros idx; simpl; [done|].
  destruct (zip_helper.lastIndexOf c str) as [i|] eqn:E.
  - intros [= <-]. destruct (IH i eq_refl) as (path & filename & -> & <- & Hname).
    by exists (String a path), filename.
  - destruct (Ascii.eqb_spec a c) as [->|]; [|done]. intros [= <-].
    exists ""%string, str. split_and!; [done..|]. by apply lastIndexOf_None.
Qed.

Lemma lastIndexOf_found c (path filename : string) :
  occurs c filename = false →
  zip_helper.lastIndexOf c (path +:+ String c filename)
  = Some (String.length path).
Proof.
  intros Hname. induction path as [|a path IH]; text.
  - destruct (zip_helper.lastIndexOf c filename) as [i|] eqn:E.
    + destruct (lastIndexOf_split _ _ _ E) as (p & n & -> & _ & _).
      rewrite occurs_app in Hname. simpl in Hname.
      rewrite Ascii.eqb_refl, orb_true_r in Hname. done.
    + by rewrite Ascii.eqb_refl.
  - by rewrite IH.
Qed.

(** X17: the folder of a path put together from a folder and a file name
    is that folder, when the file name holds no ['/']. *)
Theorem X17_get_path_of_combine_path path filename :
  occurs "/"%char filename = false →
  zip_helper.get_path (zip_helper.combine_path path filename) = path.
Proof.
  intros Hname. unfold zip_helper.get_path, zip_helper.combine_path.
  change ("/" +:+ filename)%string with (String "/"%char filename).
  rewrite lastIndexOf_found by done. unfold mid. apply substring_prefix.
Qed.

(** X18: a path with no ['/'] has the empty folder; any other path is its
    folder, a ['/'] and a rest that holds no ['/']. *)
Theorem X18_get_path_splits_at_last_slash str :
  (occurs "/"%char str = false ∧ zip_helper.get_path str = ""%string) ∨
  (∃ filename,
     occurs "/"%char filename = false ∧
     str = zip_helper.combine_path (zip_helper.get_path str) filename).
Proof.
  unfold zip_helper.get_path, zip_helper.combine_path.
  destruct (zip_helper.lastIndexOf "/" str) as [idx|] eqn:E.
  - right. destruct (lastIndexOf_split _ _ _ E) as (path & filename & -> & <- & Hname).
    exists filename. split; [done|]. unfold mid. by rewrite substring_prefix.
  - left. split; [|done]. by apply lastIndexOf_None.
Qed.

(** ** The add-ons offered for download *)

Lemma find_if_Some {A} (pred : A → bool) (vec : list A) i :
  PluginSettings.find_if pred vec = Some i →
  ∃ before x after,
    vec = before ++ x :: after ∧ length before = i ∧ pred x = true ∧
    Forall (λ y, pred y = false) before.
Proof.
  revert i. induction vec as [|y vec IH]; intros i; simpl; [done|].
  destruct (pred y) eqn:Hy.
  - intros [= <-]. by exists [], y, vec.
  - destruct (PluginSettings.find_if pred vec) as [j|]; [|done]. intros [= <-].
    destruct (IH j eq_refl) as (before & x & after & -> & <- & Hx & Hbefore).
    exists (y :: before), x, after. split_and!; try done. by constructor.
Qed.

Lemma find_if_None {A} (pred : A → bool) (vec : list A) :
  PluginSettings.find_if pred vec = None → Forall (λ y, pred y = false) vec.
Proof.
  induction vec as [|y vec IH]; simpl; [done|].
  destruct (pred y) eqn:Hy; [done|].
  destruct (PluginSettings.find_if pred vec); [done|]. intros _.
  constructor; [done|]. by apply IH.
Qed.

(** X19: [updateAddon] applies the function to the first add-on with the
    key, in place, and resets the model once; when no add-on has the key it
    leaves the model as it is, without a reset. *)
Theorem X19_updateAddon_updates_the_first k f M :
  (Forall (λ add, PluginSettings.key add ≠ k) (PluginSettings.m_vec M) ∧
   PluginSettings.updateAddon k f M = M) ∨
  (∃ before add after,
     PluginSettings.m_vec M = before ++ add :: after ∧
     PluginSettings.key add = k ∧
     Forall (λ add', PluginSettings.key add' ≠ k) before ∧
     PluginSettings.updateAddon k f M
     = {| PluginSettings.m_vec := before ++ f add :: after;
          PluginSettings.modelReset := S (PluginSettings.modelReset M) |}).
Proof.
  unfold PluginSettings.updateAddon, PluginSettings.addon.
  destruct (PluginSettings.find_if _ _) as [i|] eqn:E.
  - right. destruct (find_if_Some _ _ _ E) as (before & add & after & Hvec & <- & Hk & Hb).
    exists before, add, after. apply N.eqb_eq in Hk. split_and!; [done..| |].
    + eapply Forall_impl; [exact Hb|]. intros add' H. by apply N.eqb_neq.
    + f_equal. rewrite Hvec.
      by rewrite (alter_app_r_alt f before (add :: after)), Nat.sub_diag.
  - left. split; [|done]. apply find_if_None in E.
    eapply Forall_impl; [exact E|]. intros add' H. by apply N.eqb_neq.
Qed.

(** X20: of two add-ons with the same key the later one is out of reach:
    no [updateAddon], whatever its key and function, changes it. *)
Theorem X20_later_duplicate_is_never_updated k f M i j add add' :
  (i < j)%nat →
  PluginSettings.m_vec M !! i = Some add →
  PluginSettings.m_vec M !! j = Some add' →
  PluginSettings.key add = PluginSettings.key add' →
  PluginSettings.m_vec (PluginSettings.updateAddon k f M) !! j = Some add'.
Proof.
  intros Hij Hi Hj Hkey. unfold PluginSettings.updateAddon, PluginSettings.addon.
  destruct (PluginSettings.find_if _ _) as [n|] eqn:E; [|done]. simpl.
  destruct (find_if_Some _ _ _ E) as (before & x & after & Hvec & Hn & Hx & Hb).
  apply N.eqb_eq in Hx.
  destruct (decide (n = j)) as [->|Hne]; [|by rewrite list_lookup_alter_ne].
  exfalso. rewrite Hvec in Hi, Hj.
  rewrite lookup_app_l in Hi by lia.
  rewrite lookup_app_r, Hn, Nat.sub_diag in Hj by lia. injection Hj as ->.
  rewrite Forall_forall in Hb. apply list_elem_of_lookup_2 in Hi.
  apply Hb in Hi. apply N.eqb_neq in Hi. congruence.
Qed.

Lemma find_if_alter {A} (pred : A → bool) (f : A → A) (vec : list A) i :
  (∀ x, pred (f x) = pred x) →
  PluginSettings.find_if pred (alter f i vec) = PluginSettings.find_if pred vec.
Proof.
  intros Hf. revert i. induction vec as [|x vec IH]; intros [|i]; simpl; try done.
  - by rewrite Hf.
  - change (list_alter f i vec) with (alter f i vec). by rewrite IH.
Qed.

(** X22: an image that arrives changes no key: every key finds the same
    add-on after the download as before, so both images of an add-on
    reach the same entry of the model. *)
Theorem X22_download_keeps_the_lookup loadFromData dl arr V k :
  PluginSettings.addon k
    (PluginSettings.model (PluginSettings.downloaded loadFromData dl arr V))
  = PluginSettings.addon k (PluginSettings.model V).
Proof.
  unfold PluginSettings.downloaded, PluginSettings.updateAddon. simpl.
  destruct (PluginSettings.addon (PluginSettings.for_key dl) (PluginSettings.model V))
    as [i|]; [|done].
  unfold PluginSettings.addon. simpl. apply find_if_alter.
  intros add. by destruct (PluginSettings.which dl).
Qed.

(** ** The progress bar *)

Section ViewFacts.

Variable QJsonObject : Type.
Variable fromJson_object : string → QJsonObject.
Variable contains : QJsonObject → string → bool.
Variable addons_array : QJsonObject → list string.
Variable fromJson : QJsonObject → option PluginSettings.RemoteAddon.
Variable addAddon :
  PluginSettings.RemoteAddon → PluginSettings.RemotePluginItemModel →
  PluginSettings.RemotePluginItemModel.

Lemma handleAddonList_progress obj V :
  let V' := PluginSettings.handleAddonList QJsonObject addons_array obj V in
  PluginSettings.m_progress_hidden V' = false ∧
  PluginSettings.m_addonsToRetrieve V' = Z.of_nat (length (addons_array obj)).
Proof.
  unfold PluginSettings.handleAddonList.
  apply (foldl_invariant
           (λ V', PluginSettings.m_progress_hidden V' = false ∧
                  PluginSettings.m_addonsToRetrieve V'
                  = Z.of_nat (length (addons_array obj)))); [|done].
  by intros V' elt [? ?].
Qed.

Lemma handleAddon_progress obj V :
  let V' := PluginSettings.handleAddon QJsonObject fromJson addAddon obj V in
  PluginSettings.m_addonsToRetrieve V' = (PluginSettings.m_addonsToRetrieve V - 1)%Z ∧
  PluginSettings.m_progress_hidden V'
  = PluginSettings.m_progress_hidden V
    || bool_decide (PluginSettings.m_addonsToRetrieve V = 1%Z).
Proof.
  unfold PluginSettings.handleAddon. simpl.
  assert (bool_decide (PluginSettings.m_addonsToRetrieve V = 1%Z)
          = (PluginSettings.m_addonsToRetrieve V - 1 =? 0)%Z) as ->.
  { destruct (Z.eqb_spec (PluginSettings.m_addonsToRetrieve V - 1) 0).
    - apply bool_decide_eq_true. lia.
    - apply bool_decide_eq_false. lia. }
  destruct (PluginSettings.m_addonsToRetrieve V - 1 =? 0)%Z;
    destruct (fromJson obj) as [add|]; simpl;
    repeat (destruct (negb _); simpl); rewrite ?orb_true_r, ?orb_false_r; done.
Qed.

Lemma on_message_addon V res :
  contains (fromJson_object res) "addons" = false →
  contains (fromJson_object res) "name" = true →
  PluginSettings.on_message QJsonObject fromJson_object contains addons_array fromJson
    addAddon V res
  = PluginSettings.handleAddon QJsonObject fromJson addAddon (fromJson_object res) V.
Proof. intros Hlist Hname. unfold PluginSettings.on_message. by rewrite Hlist, Hname. Qed.

Lemma addon_replies_progress replies V :
  Forall (λ res, contains (fromJson_object res) "addons" = false ∧
                 contains (fromJson_object res) "name" = true) replies →
  let V' := foldl (PluginSettings.on_message QJsonObject fromJson_object contains
                     addons_array fromJson addAddon) V replies in
  PluginSettings.m_addonsToRetrieve V'
  = (PluginSettings.m_addonsToRetrieve V - Z.of_nat (length replies))%Z ∧
  PluginSettings.m_progress_hidden V'
  = PluginSettings.m_progress_hidden V
    || bool_decide (1 ≤ PluginSettings.m_addonsToRetrieve V ≤ Z.of_nat (length replies))%Z.
Proof.
  intros Hreplies. revert V.
  induction Hreplies as [|res replies [Hlist Hname] _ IH]; intros V; simpl.
  - split; [lia|]. rewrite bool_decide_eq_false_2 by lia. by rewrite orb_false_r.
  - rewrite on_message_addon by done.
    destruct (IH (PluginSettings.handleAddon QJsonObject fromJson addAddon
                    (fromJson_object res) V)) as [-> ->].
    destruct (handleAddon_progress (fromJson_object res) V) as [-> ->].
    split; [lia|]. rewrite <-orb_assoc. f_equal.
    destruct (decide (PluginSettings.m_addonsToRetrieve V = 1%Z)) as [E|E].
    + rewrite (bool_decide_eq_true_2 _ E). simpl. symmetry.
      apply bool_decide_eq_true. lia.
    + rewrite (bool_decide_eq_false_2 _ E). simpl. apply bool_decide_ext. lia.
Qed.

(** X21: after the reply that lists [n] add-ons, the progress bar is shown
    until the [n]-th add-on reply has been handled and hidden from then on;
    when the list is empty it stays shown however many add-on replies
    follow. *)
Theorem X21_progress_bar_follows_the_count list_reply replies V :
  contains (fromJson_object list_reply) "addons" = true →
  Forall (λ res, contains (fromJson_object res) "addons" = false ∧
                 contains (fromJson_object res) "name" = true) replies →
  (Z.of_nat (length replies) ≤ 2 ^ 31)%Z →
  PluginSettings.m_progress_hidden
    (foldl (PluginSettings.on_message QJsonObject fromJson_object contains
              addons_array fromJson addAddon)
       (PluginSettings.on_message QJsonObject fromJson_object contains addons_array
          fromJson addAddon V list_reply)
       replies)
  = bool_decide (0 < length (addons_array (fromJson_object list_reply))
                 ≤ length replies)%nat.
Proof.
  intros Hlist Hreplies _.
  assert (PluginSettings.on_message QJsonObject fromJson_object contains addons_array
            fromJson addAddon V list_reply
          = PluginSettings.handleAddonList QJsonObject addons_array
              (fromJson_object list_reply) V) as ->.
  { unfold PluginSettings.on_message. by rewrite Hlist. }
  destruct (addon_replies_progress replies
              (PluginSettings.handleAddonList QJsonObject addons_array
                 (fromJson_object list_reply) V) Hreplies) as [_ ->].
  destruct (handleAddonList_progress (fromJson_object list_reply) V) as [-> ->].
  simpl. apply bool_decide_ext. lia.
Qed.

End ViewFacts.

(** ** The set-up and settings properties on the concrete setting *)

Local Open Scope string_scope.

Example ex_rescanNodes_run :
  Jit.m_compiler (ex_rescanNodes ex_node_files Jit.initial)
  = [FilesJob {| job_id := "9e8d7c6b5a4f";
                 job_cpp_files := ["/library/Nodes/README.txt/main.cpp"];
                 job_flags := ["-I/library/Nodes/README.txt"; "-I/tmp/README.txt"] |};
     FilesJob {| job_id := "9e8d7c6b5a4f";
                 job_cpp_files := ["/library/Nodes/Notes.hpp/main.cpp"];
                 job_flags := ["-I/library/Nodes/Notes.hpp"; "-I/tmp/Notes.hpp"] |};
     SourceJob "f6c626f8b1eb4b0e8e2c0f5b3c9a7d41" (ex_node +:+ footer) [];
     FilesJob {| job_id := "9e8d7c6b5a4f";
                 job_cpp_files := ["/library/Nodes/Gain.hpp/main.cpp"];
                 job_flags := ["-I/library/Nodes/Gain.hpp"; "-I/tmp/Gain.hpp"] |}].
Proof. vm_compute. reflexivity. Qed.



Lemma X13_witness :
  ∃ node before between uuid rest,
    (ex_suffix "/library/Nodes/Gain.hpp" = "hpp" ∨
     ex_suffix "/library/Nodes/Gain.hpp" = "cpp") ∧
    ex_readAll "/library/Nodes/Gain.hpp" = Some node ∧
    node_text node before between uuid rest.
Proof.
  apply (X13_other_files_are_ignored ex_suffix ex_readAll ex_fromUtf8
           "/library/Nodes/Gain.hpp" Jit.initial).
  intros Hrun. apply (f_equal Jit.m_compiler) in Hrun. vm_compute in Hrun.
  discriminate Hrun.
Defined.

Lemma X14_witness :
  Forall dashless (Jit.m_compiler (ex_rescanNodes ex_node_files Jit.initial)).
Proof.
  apply (X14_job_ids_hold_no_dash ex_fileName ex_suffix ex_loadAddon
           ex_generateAddonFiles ex_readAll ex_fromUtf8 ex_pathExists ex_libpath).
  apply (Jit.reached_call _ _ _ _ _ _ _ _ Jit.initial).
  - apply Jit.reached_initial.
  - apply Jit.call_rescanNodes.
Defined.

Lemma X15_witness :
  ex_rescanAddons ["/library/Addons/Synth"]
    (ex_rescanAddons ["/library/Addons/Synth"; "/library/Addons/Empty"] Jit.initial)
  = ex_rescanAddons ["/library/Addons/Synth"; "/library/Addons/Empty"] Jit.initial.
Proof.
  apply (X15_rescanAddons_sets_up_once ex_fileName ex_loadAddon ex_generateAddonFiles
           ex_pathExists ex_libpath).
  intros p Hp. inversion Hp; subst.
  - left.
  - inversion H1.
Defined.

Lemma X17_witness :
  zip_helper.get_path (zip_helper.combine_path "/library/Addons" "synth.zip")
  = "/library/Addons".
Proof. apply X17_get_path_of_combine_path. vm_compute. reflexivity. Defined.

Lemma X20_witness :
  PluginSettings.m_vec
    (PluginSettings.updateAddon 7 (PluginSettings.set_smallImage (Some "png")) ex_model)
  !! 2%nat
  = Some (ex_addon 7 "synth-copy").
Proof.
  apply (X20_later_duplicate_is_never_updated 7
           (PluginSettings.set_smallImage (Some "png")) ex_model 0 2
           (ex_addon 7 "synth") (ex_addon 7 "synth-copy")).
  - lia.
  - reflexivity.
  - reflexivity.
  - reflexivity.
Defined.

Lemma X21_witness :
  PluginSettings.m_progress_hidden
    (foldl ex_on_message (ex_on_message ex_view "list") ["synth"]) = false ∧
  PluginSettings.m_progress_hidden
    (foldl ex_on_message (ex_on_message ex_view "list") ["synth"; "reverb"]) = true.
Proof.
  split.
  - unfold ex_on_message.
    rewrite (X21_progress_bar_follows_the_count string ex_fromJson_object ex_contains
               ex_addons_array ex_fromJson ex_addAddon "list" ["synth"] ex_view).
    + vm_compute. reflexivity.
    + vm_compute. reflexivity.
    + repeat constructor.
    + vm_compute. discriminate.
  - unfold ex_on_message.
    rewrite (X21_progress_bar_follows_the_count string ex_fromJson_object ex_contains
               ex_addons_array ex_fromJson ex_addAddon "list" ["synth"; "reverb"]
               ex_view).
    + vm_compute. reflexivity.
    + vm_compute. reflexivity.
    + repeat constructor.
    + vm_compute. discriminate.
Defined.
